(** * BAC planner: a shallow embedding of the dosing calculator

    The two Python programs of the repository share [watson_tbw_liters] and
    [parse_bac] verbatim and differ in [Plan] / [make_plan]: the first keeps
    masses in grams, the second converts them to millilitres and adds the
    beverage table.  Python's [float] is IEEE 754 binary64, so every
    arithmetic step below is "exact result, then round to nearest, ties to
    even", on the data type [spec_float] of the Standard Library. *)

From Stdlib Require Import ZArith QArith Qround Qabs Qpower Qminmax Lia Lqa.
From Stdlib Require Import List Bool.
From Stdlib Require Import Strings.String Strings.Ascii.
From Stdlib Require Import Floats.SpecFloat.
Import ListNotations.
Open Scope Q_scope.

(* ================================================================== *)
(** ** Binary64 arithmetic *)

Module Binary64.

Definition prec : Z := 53.
Definition emax : Z := 1024.
Definition emin : Z := -1074.

Definition float := spec_float.

Definition pow2 (e : Z) : Q := 2 ^ e.

(** [flog2 q] is the binary exponent of a positive rational:
    [2^(flog2 q) <= q < 2^(flog2 q + 1)]. *)
Definition flog2 (q : Q) : Z :=
  let e0 := (Z.log2 (Qnum q) - Z.log2 (Zpos (Qden q)))%Z in
  if Qle_bool (pow2 e0) q then e0 else (e0 - 1)%Z.

(** Nearest integer, ties to the even one. *)
Definition rne (q : Q) : Z :=
  let f := Qfloor q in
  match Qcompare (q - inject_Z f) (1 # 2) with
  | Lt => f
  | Gt => (f + 1)%Z
  | Eq => if Z.even f then f else (f + 1)%Z
  end.

(** Mantissa and exponent of the binary64 number nearest to [q > 0]; the
    exponent is that of the binade of [q], never below [emin]
    (subnormals). *)
Definition round_mag (q : Q) : Z * Z :=
  let ex := Z.max (flog2 q - (prec - 1)) emin in
  (rne (q / pow2 ex), ex).

(** Canonical form: a mantissa that rounded up to [2^53] moves to the next
    binade, anything at or above [2^1024] is an infinity, a mantissa of
    [0] is a signed zero. *)
Definition pack (s : bool) (me : Z * Z) : float :=
  let (m, e) := me in
  let (m', e') :=
    if (m =? 2 ^ prec)%Z then (2 ^ (prec - 1), e + 1)%Z else (m, e) in
  match m' with
  | Zpos p => if (emax - prec <? e')%Z then S754_infinity s
              else S754_finite s p e'
  | _ => S754_zero s
  end.

(** [round64 szero q]: the double nearest to [q]; [szero] is the sign of
    the zero returned when [q] is exactly [0]. *)
Definition round64 (szero : bool) (q : Q) : float :=
  match Qcompare q 0 with
  | Eq => S754_zero szero
  | Lt => pack true (round_mag (- q))
  | Gt => pack false (round_mag q)
  end.

(** The rational a finite double stands for ([0] for the others). *)
Definition val (x : float) : Q :=
  match x with
  | S754_finite s m e =>
      (if s then - inject_Z (Zpos m) else inject_Z (Zpos m)) * pow2 e
  | _ => 0
  end.

Definition is_nan (x : float) : bool :=
  match x with S754_nan => true | _ => false end.

Definition is_zero (x : float) : bool :=
  match x with S754_zero _ => true | _ => false end.

Definition is_finite (x : float) : bool :=
  match x with S754_zero _ | S754_finite _ _ _ => true | _ => false end.

Definition fopp (x : float) : float := SFopp x.

Definition fadd (x y : float) : float :=
  match x, y with
  | S754_nan, _ | _, S754_nan => S754_nan
  | S754_infinity sx, S754_infinity sy =>
      if Bool.eqb sx sy then x else S754_nan
  | S754_infinity _, _ => x
  | _, S754_infinity _ => y
  | S754_zero sx, S754_zero sy => S754_zero (sx && sy)
  | _, _ => round64 false (val x + val y)
  end.

Definition fsub (x y : float) : float := fadd x (fopp y).

Definition fmul (x y : float) : float :=
  match x, y with
  | S754_nan, _ | _, S754_nan => S754_nan
  | S754_infinity _, S754_zero _ | S754_zero _, S754_infinity _ => S754_nan
  | S754_infinity sx, S754_infinity sy
  | S754_infinity sx, S754_finite sy _ _
  | S754_finite sx _ _, S754_infinity sy => S754_infinity (xorb sx sy)
  | S754_finite sx _ _, S754_zero sy
  | S754_zero sx, S754_finite sy _ _
  | S754_zero sx, S754_zero sy => S754_zero (xorb sx sy)
  | S754_finite sx _ _, S754_finite sy _ _ =>
      round64 (xorb sx sy) (val x * val y)
  end.

(** IEEE division; Python raises before dividing by a zero, see
    [py_truediv]. *)
Definition fdiv (x y : float) : float :=
  match x, y with
  | S754_nan, _ | _, S754_nan => S754_nan
  | S754_infinity _, S754_infinity _ | S754_zero _, S754_zero _ => S754_nan
  | S754_infinity sx, S754_finite sy _ _
  | S754_infinity sx, S754_zero sy
  | S754_finite sx _ _, S754_zero sy => S754_infinity (xorb sx sy)
  | S754_finite sx _ _, S754_infinity sy
  | S754_zero sx, S754_infinity sy
  | S754_zero sx, S754_finite sy _ _ => S754_zero (xorb sx sy)
  | S754_finite sx _ _, S754_finite sy _ _ =>
      round64 (xorb sx sy) (val x / val y)
  end.

(** Comparison of doubles: undefined on a NaN, the two zeros are equal. *)
Definition fcompare (x y : float) : option comparison :=
  match x, y with
  | S754_nan, _ | _, S754_nan => None
  | S754_infinity sx, S754_infinity sy =>
      Some (match sx, sy with
            | true, false => Lt | false, true => Gt | _, _ => Eq end)
  | S754_infinity s, _ => Some (if s then Lt else Gt)
  | _, S754_infinity s => Some (if s then Gt else Lt)
  | _, _ => Some (Qcompare (val x) (val y))
  end.

(** Python's [==], [<] and [<=] on floats. *)
Definition feqb (x y : float) : bool :=
  match fcompare x y with Some Eq => true | _ => false end.
Definition fltb (x y : float) : bool :=
  match fcompare x y with Some Lt => true | _ => false end.
Definition fleb (x y : float) : bool :=
  match fcompare x y with Some Lt | Some Eq => true | _ => false end.

(** The double written as the decimal literal [m]e[e], for instance
    [dec 2447 (-3)] for [2.447]. *)
Definition dec (m e : Z) : float := round64 false (inject_Z m * 10 ^ e).

(** Specification-level notions used to reason about rounding. *)
Definition pval (me : Z * Z) : Q := inject_Z (fst me) * pow2 (snd me).

Definition mag_ok (me : Z * Z) : Prop :=
  (0 <= fst me <= 2 ^ prec)%Z /\ (emin <= snd me)%Z
  /\ ((emin < snd me)%Z -> (2 ^ (prec - 1) <= fst me)%Z).

(** Doubles on the extended rational line: the infinities sit at
    [+-2^1024], just beyond every finite double. *)
Definition xval (x : float) : Q :=
  match x with
  | S754_infinity s => if s then - pow2 emax else pow2 emax
  | _ => val x
  end.

(** A datum that is not a NaN and, when finite, lies inside the range. *)
Definition in_range (x : float) : Prop :=
  match x with
  | S754_nan => False
  | S754_finite _ _ _ => - pow2 emax < val x /\ val x < pow2 emax
  | _ => True
  end.

(** The value [round64] lands on, as a function of the rational alone. *)
Definition clampq (q : Q) : Q :=
  match Qcompare q 0 with
  | Eq => 0
  | Gt => Qmin (pval (round_mag q)) (pow2 emax)
  | Lt => - Qmin (pval (round_mag (- q))) (pow2 emax)
  end.

(** A rational that is itself a finite double. *)
Definition representable (r : Q) : Prop :=
  is_finite (round64 false r) = true /\ val (round64 false r) == r.


End Binary64.
Export Binary64.

Declare Scope float_scope.
Delimit Scope float_scope with flt.
Infix "+" := fadd : float_scope.
Infix "-" := fsub : float_scope.
Infix "*" := fmul : float_scope.
Infix "/" := fdiv : float_scope.
Notation "- x" := (fopp x) : float_scope.

(* ================================================================== *)
(** ** The Python run-time the program relies on *)

Module Py.

Inductive exn := ValueError | OverflowError | ZeroDivisionError.

Inductive result (A : Type) : Type :=
| Ok (a : A)
| Raise (e : exn).
Arguments Ok {A} a.
Arguments Raise {A} e.

Definition bind {A B} (c : result A) (k : A -> result B) : result B :=
  match c with Ok a => k a | Raise e => Raise e end.

Definition returns {A} (c : result A) : bool :=
  match c with Ok _ => true | Raise _ => false end.

(** A [str] is a sequence of Unicode code points. *)
Definition char := N.
Definition str := list char.

Definition str_eqb (a b : str) : bool :=
  if list_eq_dec N.eq_dec a b then true else false.

(** [int -> float] as done by a mixed [float * int]: correctly rounded,
    [OverflowError] when the integer is beyond the doubles. *)
Definition float_of_int (z : Z) : result float :=
  match round64 false (inject_Z z) with
  | S754_infinity _ => Raise OverflowError
  | f => Ok f
  end.

(** The least magnitude of an [int] that no longer converts:
    [2^1024 - 2^970], halfway between the largest double and [2^1024]. *)
Definition int_float_limit : Z := (2 ^ 1024 - 2 ^ 970)%Z.

(** [x / y] on floats. *)
Definition py_truediv (x y : float) : result float :=
  if is_zero y then Raise ZeroDivisionError else Ok (fdiv x y).

(** [str.isspace] for one code point. *)
Definition isspace (c : char) : bool :=
  ((9 <=? c) && (c <=? 13) || (28 <=? c) && (c <=? 32) || (c =? 133)
   || (c =? 160) || (c =? 5760) || (8192 <=? c) && (c <=? 8202)
   || (c =? 8232) || (c =? 8233) || (c =? 8239) || (c =? 8287)
   || (c =? 12288))%N.

Fixpoint lstrip (s : str) : str :=
  match s with
  | c :: r => if isspace c then lstrip r else s
  | [] => []
  end.

Definition rstrip (s : str) : str := rev (lstrip (rev s)).

(** [s.strip()] *)
Definition strip (s : str) : str := rstrip (lstrip s).

(** [s.lower()] on plain text (see [plain_char] below): the letters A to
    Z are mapped, every other character is carried through.  The case
    mappings beyond ASCII are not modelled, and no statement is made
    about [lower] on a text that could need them. *)
Definition lower_char (c : char) : char :=
  if ((65 <=? c) && (c <=? 90))%N then (c + 32)%N else c.

Definition lower (s : str) : str := map lower_char s.

(** [s.replace(" ", "")] *)
Definition remove_spaces (s : str) : str :=
  filter (fun c => negb (c =? 32)%N) s.

Fixpoint startswith (s p : str) {struct p} : bool :=
  match p, s with
  | [], _ => true
  | a :: p', b :: s' => (a =? b)%N && startswith s' p'
  | _ :: _, [] => false
  end.

(** [x in s] *)
Fixpoint contains (x s : str) : bool :=
  startswith s x
  || match s with [] => false | _ :: r => contains x r end.

(** [s.endswith(suf)] *)
Definition endswith (s suf : str) : bool := startswith (rev s) (rev suf).

(** [s[: -n]] for [n = len(suf)]; [s[:-0]] is [s[:0]], the empty string. *)
Definition drop_last (n : nat) (s : str) : str :=
  match n with
  | O => []
  | _ => firstn (List.length s - n) s
  end.

(** Code points of a literal given in UTF-8. *)
Fixpoint utf8_decode (fuel : nat) (b : list N) : str :=
  match fuel with
  | O => []
  | S fuel' =>
      match b with
      | [] => []
      | b0 :: r =>
          if (b0 <? 128)%N then b0 :: utf8_decode fuel' r
          else if (b0 <? 224)%N then
            match r with
            | b1 :: r' =>
                ((b0 mod 32) * 64 + b1 mod 64)%N :: utf8_decode fuel' r'
            | _ => [65533%N]
            end
          else if (b0 <? 240)%N then
            match r with
            | b1 :: b2 :: r' =>
                ((b0 mod 16) * 4096 + (b1 mod 64) * 64 + b2 mod 64)%N
                :: utf8_decode fuel' r'
            | _ => [65533%N]
            end
          else
            match r with
            | b1 :: b2 :: b3 :: r' =>
                ((b0 mod 8) * 262144 + (b1 mod 64) * 4096
                 + (b2 mod 64) * 64 + b3 mod 64)%N
                :: utf8_decode fuel' r'
            | _ => [65533%N]
            end
      end
  end.

Definition lit (s : string) : str :=
  let b := map N_of_ascii (list_ascii_of_string s) in
  utf8_decode (List.length b) b.

End Py.
Export Py.

Notation "x <- c ;; k" := (bind c (fun x => k))
  (at level 61, c at next level, right associativity).

(* ------------------------------------------------------------------ *)
(** *** [float(s)] on a string *)

Module PyFloat.

(** The zeros of the decimal digits of Unicode 14.0 (general category
    Nd, the tables of CPython 3.11), ASCII first: each is followed by
    its digits one to nine.  [float] reads every one of them as it reads
    [0] to [9]. *)
Definition decimal_zeros : list N :=
  [48; 1632; 1776; 1984; 2406; 2534; 2662; 2790; 2918; 3046; 3174; 3302;
   3430; 3558; 3664; 3792; 3872; 4160; 4240; 6112; 6160; 6470; 6608; 6784;
   6800; 6992; 7088; 7232; 7248; 42528; 43216; 43264; 43472; 43504; 43600;
   44016; 65296; 66720; 68912; 69734; 69872; 69942; 70096; 70384; 70736;
   70864; 71248; 71360; 71472; 71904; 72016; 72784; 73040; 73120; 92768;
   92864; 93008; 120782; 120792; 120802; 120812; 120822; 123200; 123632;
   125264; 130032]%N.

Definition decimal_value (c : char) : option N :=
  match find (fun z => (z <=? c) && (c <? z + 10))%N decimal_zeros with
  | Some z => Some (c - z)%N
  | None => None
  end.

Definition is_digit (c : char) : bool :=
  match decimal_value c with Some _ => true | None => false end.

(** White space for [float]: tab to carriage return and the space among
    the ASCII characters (the separators U+001C to U+001F are not), and
    every white-space character beyond ASCII. *)
Definition float_isspace (c : char) : bool :=
  ((9 <=? c) && (c <=? 13) || (c =? 32) || (128 <=? c) && isspace c)%N.

Fixpoint float_lstrip (s : str) : str :=
  match s with
  | c :: r => if float_isspace c then float_lstrip r else s
  | [] => []
  end.

Definition float_strip (s : str) : str :=
  rev (float_lstrip (rev (float_lstrip s))).

Definition underscore : char := 95%N.

(** An underscore is accepted between two digits only. *)
Fixpoint underscores_ok (prev : option char) (s : str) : bool :=
  match s with
  | [] => match prev with
          | Some p => negb (p =? underscore)%N
          | None => true
          end
  | c :: r =>
      (if (c =? underscore)%N
       then match prev with Some p => is_digit p | None => false end
       else match prev with
            | Some p => if (p =? underscore)%N then is_digit c else true
            | None => true
            end)
      && underscores_ok (Some c) r
  end.

Fixpoint take_digits (s : str) : list Z * str :=
  match s with
  | c :: r =>
      match decimal_value c with
      | Some d => let (ds, rest) := take_digits r in (Z.of_N d :: ds, rest)
      | None => ([], s)
      end
  | [] => ([], [])
  end.

Definition digits_value (ds : list Z) : Z :=
  fold_left (fun acc d => (10 * acc + d)%Z) ds 0%Z.

Definition split_sign (s : str) : bool * str :=
  match s with
  | 45%N :: r => (true, r)
  | 43%N :: r => (false, r)
  | _ => (false, s)
  end.

(** What follows the digits: nothing, or [e] / [E], an optional sign and
    at least one digit, up to the end of the string. *)
Definition parse_exponent (s : str) : option Z :=
  match s with
  | [] => Some 0%Z
  | c :: r =>
      if ((c =? 101) || (c =? 69))%N then
        let (neg, r') := split_sign r in
        match take_digits r' with
        | (d :: ds, []) =>
            let v := digits_value (d :: ds) in
            Some (if neg then (- v)%Z else v)
        | _ => None
        end
      else None
  end.

(** [float(s)]: surrounding white space is dropped, then
    [[sign] (inf | infinity | nan | digits [. digits] [exponent])], the
    decimal value being rounded to the nearest double; anything else is a
    [ValueError].  The digits are those of [decimal_zeros]. *)
Definition float_of_str (s : str) : result float :=
  let s := float_strip s in
  if negb (underscores_ok None s) then Raise ValueError else
  let s := filter (fun c => negb (c =? underscore)%N) s in
  let (neg, body) := split_sign s in
  let lb := lower body in
  if str_eqb lb (lit "inf") || str_eqb lb (lit "infinity")
  then Ok (S754_infinity neg)
  else if str_eqb lb (lit "nan") then Ok S754_nan
  else
    let (ip, r1) := take_digits body in
    let (fp, r2) :=
      match r1 with
      | 46%N :: r => take_digits r
      | _ => ([], r1)
      end in
    match ip ++ fp with
    | [] => Raise ValueError
    | ds =>
        match parse_exponent r2 with
        | None => Raise ValueError
        | Some e =>
            let m := digits_value ds in
            Ok (round64 neg
                  (inject_Z (if neg then (- m)%Z else m)
                   * 10 ^ (e - Z.of_nat (List.length fp))))
        end
    end.

End PyFloat.
Export PyFloat.

(** Plain text: ASCII, white space, the decimal digits and the permille
    sign.  None of these characters is a cased letter other than A to Z
    and a to z, so [str.lower] maps such a text character by character,
    as [lower] does. *)
Definition plain_char (c : char) : bool :=
  ((c <? 128) || isspace c || is_digit c || (c =? 8240))%N.

Definition plain_text (s : str) : Prop := forallb plain_char s = true.


(* ================================================================== *)
(** ** The program *)

(** [Sex = Literal["male", "female"]]: an annotation, nothing checks it
    at run time. *)
Definition is_Sex (s : str) : Prop := s = lit "male" \/ s = lit "female".

Record Inputs := mkInputs {
  sex : str;
  weight_kg : float;
  height_cm : float;
  age_years : Z;
  duration_hours : float;
  target_bac : float;
  beta : float
}.

(** [Inputs(sex, weight, height, age, duration, target_bac)], [beta] left
    at its default [0.015]. *)
Definition Inputs_default s w h a d t : Inputs :=
  mkInputs s w h a d t (dec 15 (-3)).

Definition watson_tbw_liters (sex : str) (weight_kg height_cm : float)
    (age_years : Z) : result float :=
  if str_eqb sex (lit "male") then
    age <- float_of_int age_years ;;
    Ok (dec 2447 (-3) - dec 9516 (-5) * age + dec 1074 (-4) * height_cm
        + dec 3362 (-4) * weight_kg)%flt
  else
    Ok (- dec 2097 (-3) + dec 1069 (-4) * height_cm
        + dec 2466 (-4) * weight_kg)%flt.

Definition permille_markers : list str :=
  [lit "‰"; lit "permille"; lit "/1000"].

Definition suffixes : list str :=
  [lit "%"; lit "‰"; lit "permille"; lit "/1000"].

(** The [for suf in ...: if s.endswith(suf): s = s[:-len(suf)]; break]
    loop. *)
Fixpoint strip_first_suffix (sufs : list str) (s : str) : str :=
  match sufs with
  | [] => s
  | suf :: rest =>
      if endswith s suf then drop_last (List.length suf) s
      else strip_first_suffix rest s
  end.

(** [parse_bac] over any [str.lower] and any [float]: the two library
    calls whose result depends on the Unicode tables of the interpreter
    are parameters, the rest is the function as written. *)
Definition parse_bac_over (str_lower : str -> str)
    (to_float : str -> result float) (value : str) : result float :=
  let s := remove_spaces (str_lower (strip value)) in
  let is_permille := existsb (fun x => contains x s) permille_markers in
  let s := strip_first_suffix suffixes s in
  x <- to_float s ;;
  if is_permille then Ok (x * dec 1 (-1))%flt else Ok x.

Definition parse_bac (value : str) : result float :=
  parse_bac_over lower float_of_str value.

(** The two intermediate results of [parse_bac], named: the value of
    [is_permille], and the string handed to [float]. *)
Definition permille_flag (value : str) : bool :=
  existsb (fun x => contains x (remove_spaces (lower (strip value))))
    permille_markers.

Definition bac_remainder (value : str) : str :=
  strip_first_suffix suffixes (remove_spaces (lower (strip value))).

(** The first program: masses in grams. *)
Module MassPlanner.

Record Plan := mkPlan {
  tbw_L : float;
  tbw_dL : float;
  loading_grams : float;
  maintenance_g_per_h : float;
  total_grams_for_duration : float;
  std_drinks_12g : float;
  std_drinks_14g : float
}.

Definition make_plan (inp : Inputs) : result Plan :=
  tbw_L <- watson_tbw_liters (sex inp) (weight_kg inp) (height_cm inp)
             (age_years inp) ;;
  let tbw_dL := (tbw_L * dec 100 (-1))%flt in
  let loading_grams := (target_bac inp * tbw_dL)%flt in
  let maintenance_g_per_h := (beta inp * tbw_dL)%flt in
  let total_grams_for_duration :=
    (loading_grams + maintenance_g_per_h * duration_hours inp)%flt in
  std_drinks_12g <- py_truediv total_grams_for_duration (dec 120 (-1)) ;;
  std_drinks_14g <- py_truediv total_grams_for_duration (dec 140 (-1)) ;;
  Ok (mkPlan tbw_L tbw_dL loading_grams maintenance_g_per_h
        total_grams_for_duration std_drinks_12g std_drinks_14g).

End MassPlanner.

(** The second program: volumes in millilitres, and the beverage table. *)
Module VolumePlanner.

Record Plan := mkPlan {
  tbw_L : float;
  tbw_dL : float;
  loading_ml : float;
  maintenance_ml_per_h : float;
  total_ml_for_duration : float;
  std_drinks_12g : float;
  std_drinks_14g : float
}.

Definition ETHANOL_DENSITY : float := dec 789 (-3).

Definition BEVERAGES : list (str * float) :=
  [ (lit "Beer (5%)", dec 5 (-2));
    (lit "Wine (12%)", dec 12 (-2));
    (lit "Fortified Wine (18%)", dec 18 (-2));
    (lit "Spirits (40%)", dec 40 (-2)) ].

Definition make_plan (inp : Inputs) : result Plan :=
  tbw_L <- watson_tbw_liters (sex inp) (weight_kg inp) (height_cm inp)
             (age_years inp) ;;
  let tbw_dL := (tbw_L * dec 100 (-1))%flt in
  let loading_grams := (target_bac inp * tbw_dL)%flt in
  let maintenance_g_per_h := (beta inp * tbw_dL)%flt in
  let total_grams_for_duration :=
    (loading_grams + maintenance_g_per_h * duration_hours inp)%flt in
  loading_ml <- py_truediv loading_grams ETHANOL_DENSITY ;;
  maintenance_ml_per_h <- py_truediv maintenance_g_per_h ETHANOL_DENSITY ;;
  total_ml_for_duration <-
    py_truediv total_grams_for_duration ETHANOL_DENSITY ;;
  std_drinks_12g <- py_truediv total_grams_for_duration (dec 120 (-1)) ;;
  std_drinks_14g <- py_truediv total_grams_for_duration (dec 140 (-1)) ;;
  Ok (mkPlan tbw_L tbw_dL loading_ml maintenance_ml_per_h
        total_ml_for_duration std_drinks_12g std_drinks_14g).

Definition ethanol_to_beverage_volume (ethanol_ml abv : float)
  : result float :=
  py_truediv ethanol_ml abv.

(** The numbers computed by the two [for name, abv in BEVERAGES.items()]
    loops of [main], in the order of the table. *)
Fixpoint beverage_volumes (table : list (str * float)) (ethanol_ml : float)
  : result (list (str * float)) :=
  match table with
  | [] => Ok []
  | (name, abv) :: rest =>
      vol <- ethanol_to_beverage_volume ethanol_ml abv ;;
      vols <- beverage_volumes rest ethanol_ml ;;
      Ok ((name, vol) :: vols)
  end.

Definition total_volumes (plan : Plan) : result (list (str * float)) :=
  beverage_volumes BEVERAGES (total_ml_for_duration plan).

Definition per_hour_volumes (plan : Plan) : result (list (str * float)) :=
  beverage_volumes BEVERAGES (maintenance_ml_per_h plan).

End VolumePlanner.

(* ================================================================== *)
(** ** The specification's reading of the three operations *)

Module Spec.

(** "sex (enum: male|female)" *)
Inductive Sex := Male | Female.

Definition sex_name (s : Sex) : str :=
  match s with Male => lit "male" | Female => lit "female" end.

Definition ParseError : exn := ValueError.

(** The integer age as the equation takes it: the nearest double, an
    infinity beyond the doubles. *)
Definition age_as_double (age_years : Z) : float :=
  round64 false (inject_Z age_years).

(** The value of the Watson equation as written in the specification,
    its operations taken in doubles from left to right; it has no
    failure. *)
Definition watson_value (s : Sex) (weight_kg height_cm : float)
    (age_years : Z) : float :=
  match s with
  | Male =>
      (dec 2447 (-3) - dec 9516 (-5) * age_as_double age_years
       + dec 1074 (-4) * height_cm + dec 3362 (-4) * weight_kg)%flt
  | Female =>
      (dec (-2097) (-3) + dec 1069 (-4) * height_cm
       + dec 2466 (-4) * weight_kg)%flt
  end.

(** The same equation over the rationals, without any rounding. *)
Definition watson_exact (s : Sex) (weight_kg height_cm : Q)
    (age_years : Z) : Q :=
  match s with
  | Male =>
      (2447 # 1000) - (9516 # 100000) * inject_Z age_years
      + (1074 # 10000) * height_cm + (3362 # 10000) * weight_kg
  | Female =>
      - (2097 # 1000) + (1069 # 10000) * height_cm
      + (2466 # 10000) * weight_kg
  end.

(** The equation with the conversion of the age done as Python does it,
    [OverflowError] included: what [watson_tbw_liters] is compared with
    when the sex is any string. *)
Definition estimate_tbw (s : Sex) (weight_kg height_cm : float)
    (age_years : Z) : result float :=
  match s with
  | Male =>
      age <- float_of_int age_years ;;
      Ok (dec 2447 (-3) - dec 9516 (-5) * age + dec 1074 (-4) * height_cm
          + dec 3362 (-4) * weight_kg)%flt
  | Female =>
      Ok (dec (-2097) (-3) + dec 1069 (-4) * height_cm
          + dec 2466 (-4) * weight_kg)%flt
  end.

(** Step 1: trim, lowercase, remove internal spaces. *)
Definition normalize (text : str) : str :=
  remove_spaces (lower (strip text)).

(** Step 2: any of the three markers, anywhere. *)
Definition permille_detected (s : str) : bool :=
  contains (lit "‰") s || contains (lit "permille") s
  || contains (lit "/1000") s.

(** Step 3: the first candidate that is a suffix is removed, once. *)
Definition strip_one_suffix (s : str) : str :=
  match find (endswith s)
          [lit "%"; lit "‰"; lit "permille"; lit "/1000"] with
  | Some suf => firstn (List.length s - List.length suf) s
  | None => s
  end.

(** Steps 4 and 5. *)
Definition parse_target_bac (text : str) : result float :=
  let s := normalize text in
  match float_of_str (strip_one_suffix s) with
  | Raise _ => Raise ParseError
  | Ok x => Ok (if permille_detected s then (x * dec 1 (-1))%flt else x)
  end.

(** The five steps over any lowercasing and any float parser. *)
Definition parse_target_bac_over (str_lower : str -> str)
    (to_float : str -> result float) (text : str) : result float :=
  let s := remove_spaces (str_lower (strip text)) in
  match to_float (strip_one_suffix s) with
  | Raise _ => Raise ParseError
  | Ok x => Ok (if permille_detected s then (x * dec 1 (-1))%flt else x)
  end.

End Spec.

(** The scenario of the specification: male, 80 kg, 180 cm, 30 years,
    3 hours, target parsed from "0.08", default [beta]. *)
Definition scenario : Inputs :=
  Inputs_default (lit "male") (dec 80 0) (dec 180 0) 30 (dec 3 0) (dec 8 (-2)).

(** A request the form accepts: male, 95 kg, 160 cm, 30 years, 18 hours,
    target "0.03". *)
Definition long_session : Inputs :=
  Inputs_default (lit "male") (dec 95 0) (dec 160 0) 30 (dec 18 0) (dec 3 (-2)).

(** A finite binary64 datum. *)
Definition double (x : float) : Prop :=
  is_finite x = true /\ valid_binary prec emax x = true.

(** The integer age reaches the arithmetic only for "male"; there it has
    to convert to a double. *)
Definition age_converts (s : str) (a : Z) : Prop :=
  s <> lit "male" \/ (Z.abs a < int_float_limit)%Z.

(** The double next above [80.0], written [80.00000000000001]. *)
Definition just_above_80 : float := dec 8000000000000001 (-14).

(** The double next above [170.0], written [170.00000000000003]. *)
Definition just_above_170 : float := dec 17000000000000003 (-14).

(** [x] is a finite double with [2^a <= x <= 2^b]. *)
Definition between (x : float) (a b : Z) : Prop :=
  is_finite x = true /\ pow2 a <= val x /\ val x <= pow2 b.

(** [z] is [q] up to one rounding. *)
Definition rounds (z : float) (q : Q) : Prop :=
  q * (1 - pow2 (-53)) <= val z /\ val z <= q * (1 + pow2 (-53)).

(** "[x] is [c] to within [tol]", for the figures the specification
    prints with a few decimals. *)
Definition close_to (x : float) (c tol : Q) : bool :=
  is_finite x && Qle_bool (Qabs (val x - c)) tol.

(** Relative gap of two finite doubles above the machine epsilon
    [2^-52]. *)
Definition beyond_epsilon (x y : float) : bool :=
  is_finite x && is_finite y
  && negb (Qle_bool (Qabs (val x - val y))
             (pow2 (-52) * Qmax (Qabs (val x)) (Qabs (val y)))).


(* ================================================================== *)
(** ** The rest of the two programs *)

(** A plain character that the normalisation of [parse_bac] leaves
    alone and that occurs in no marker and no suffix: not white space,
    not a capital letter, and none of [%], [‰], [p], [/]. *)
Definition bare_char (c : char) : bool :=
  plain_char c
  && negb (isspace c) && negb ((65 <=? c) && (c <=? 90))%N
  && negb ((c =? 37) || (c =? 8240) || (c =? 112) || (c =? 47))%N.

(** What the [if st.button("Calculate")] block of [main] ends with:
    the results it wrote, or the error of the [except] branch. *)
Inductive outcome (A : Type) : Type :=
| Results (a : A)
| Error (e : exn).
Arguments Results {A} a.
Arguments Error {A} e.

Definition shown {A} (c : result A) : outcome A :=
  match c with Ok a => Results a | Raise e => Error e end.

(** The first program's handler: the plan whose fields are formatted. *)
Definition mass_on_calculate (sex : str) (weight height : float) (age : Z)
    (duration : float) (target_bac_input : str)
  : outcome MassPlanner.Plan :=
  shown (target_bac <- parse_bac target_bac_input ;;
         let inp := Inputs_default sex weight height age duration
                      target_bac in
         MassPlanner.make_plan inp).

(** The second program's handler: the plan, then the volume of each
    beverage for the total and for the hourly maintenance. *)
Definition volume_on_calculate (sex : str) (weight height : float) (age : Z)
    (duration : float) (target_bac_input : str)
  : outcome (VolumePlanner.Plan * list (str * float) * list (str * float)) :=
  shown (target_bac <- parse_bac target_bac_input ;;
         let inp := Inputs_default sex weight height age duration
                      target_bac in
         plan <- VolumePlanner.make_plan inp ;;
         totals <- VolumePlanner.total_volumes plan ;;
         per_hour <- VolumePlanner.per_hour_volumes plan ;;
         Ok (plan, totals, per_hour)).

(** The inputs the form of [main] can hand over: one of the two sexes of
    the select box, the numbers within the bounds of their widgets, and
    [beta] at its default. *)
Definition form_inputs (inp : Inputs) : Prop :=
  is_Sex (sex inp)
  /\ fleb (dec 30 0) (weight_kg inp) = true
  /\ fleb (weight_kg inp) (dec 200 0) = true
  /\ fleb (dec 120 0) (height_cm inp) = true
  /\ fleb (height_cm inp) (dec 220 0) = true
  /\ (15 <= age_years inp <= 100)%Z
  /\ fleb (dec 5 (-1)) (duration_hours inp) = true
  /\ fleb (duration_hours inp) (dec 24 0) = true
  /\ beta inp = dec 15 (-3).

(** A target between 0 and 1 g/dL. *)
Definition plausible_target (t : float) : Prop :=
  fleb (S754_zero false) t = true /\ fleb t (dec 1 0) = true.

(** [x] is finite and lies in [[lo, hi]]. *)
Definition finite_in (x : float) (lo hi : Q) : Prop :=
  is_finite x = true /\ lo <= val x /\ val x <= hi.

Definition with_target (inp : Inputs) (t : float) : Inputs :=
  mkInputs (sex inp) (weight_kg inp) (height_cm inp) (age_years inp)
    (duration_hours inp) t (beta inp).

Definition with_duration (inp : Inputs) (d : float) : Inputs :=
  mkInputs (sex inp) (weight_kg inp) (height_cm inp) (age_years inp)
    d (target_bac inp) (beta inp).

(* ================================================================== *)
(** ** Proof automation *)

Ltac representable_by_computation :=
  split; vm_compute; reflexivity.

Ltac val_const c :=
  let v := eval vm_compute in (val c) in
  replace (val c) with v in * by (vm_compute; reflexivity).

(** Division by a literal, as a product with a rational constant. *)
Ltac inv_const c :=
  unfold Qdiv in *;
  let v := eval vm_compute in (/ val c) in
  replace (/ val c) with v in * by (vm_compute; reflexivity).

(** Replace the values of the literals in the goal by rationals. *)
Ltac val_literals :=
  repeat match goal with
    | |- context [val (dec ?m ?e)] =>
        let v := eval vm_compute in (val (dec m e)) in
        replace (val (dec m e)) with v by (vm_compute; reflexivity)
    | |- context [val (fopp (dec ?m ?e))] =>
        let v := eval vm_compute in (val (fopp (dec m e))) in
        replace (val (fopp (dec m e))) with v by (vm_compute; reflexivity)
    end.

(** One enclosure step: [lemma] is [fmul_within], [fadd_within] or
    [fsub_within], [x] and [y] the finite operands, [lo] and [hi] the
    bounds, shown to hold by linear arithmetic once the constants among
    the operands are replaced by their rational values. *)
Ltac enclose lemma x y Fx Fy lo hi F B :=
  destruct (lemma x y lo hi Fx Fy
              ltac:(representable_by_computation)
              ltac:(representable_by_computation)
              ltac:(repeat match goal with v := _ |- _ => subst v end;
                     val_literals; lra)) as [F B].

(** One step of the finiteness argument, with bounds that are multiples
    of [2^1021]. *)
Ltac enclose_big lemma x y Fx Fy lo hi Rlo Rhi F B :=
  destruct (lemma x y lo hi Fx Fy Rlo Rhi
              ltac:(repeat match goal with v := _ |- _ => subst v end;
                    val_literals; lra)) as [F B].

(** One enclosure step for a quotient by a literal. *)
Ltac enclose_div lemma x c Fx lo hi F B :=
  destruct (lemma x c lo hi Fx eq_refl eq_refl
              ltac:(representable_by_computation)
              ltac:(representable_by_computation)
              ltac:(inv_const c; lra)) as [F B].

(* ================================================================== *)
(** ** Rounding is monotone *)

Section RoundingOrder.

Lemma pow2_pos e : 0 < pow2 e.
Proof. apply Qpower_0_lt; reflexivity. Qed.

Lemma pow2_le a b : (a <= b)%Z -> pow2 a <= pow2 b.
Proof. intros H; apply Qpower_le_compat_l; [exact H | discriminate]. Qed.

Lemma pow2_lt a b : (a < b)%Z -> pow2 a < pow2 b.
Proof. intros H; apply Qpower_lt_compat_l; [exact H | reflexivity]. Qed.

Lemma pow2_add a b : pow2 (a + b) == pow2 a * pow2 b.
Proof. apply Qpower_plus; discriminate. Qed.

Lemma pow2_Z n : (0 <= n)%Z -> pow2 n == inject_Z (2 ^ n).
Proof. intros H; unfold pow2; rewrite Zpower_Qpower by exact H; reflexivity. Qed.

Lemma flog2_spec q : 0 < q -> pow2 (flog2 q) <= q /\ q < pow2 (flog2 q + 1).
Proof.
  intros Hq. destruct q as [n d]. unfold flog2; cbn [Qnum Qden].
  assert (Hn : (0 < n)%Z) by (unfold Qlt in Hq; cbn in Hq; lia).
  set (a := Z.log2 n). set (b := Z.log2 (Zpos d)).
  assert (Ha : (2 ^ a <= n < 2 ^ (a + 1))%Z).
  { subst a. pose proof (Z.log2_spec n Hn) as H.
    rewrite <- Z.add_1_r in H. exact H. }
  assert (Hb : (2 ^ b <= Zpos d < 2 ^ (b + 1))%Z).
  { subst b. pose proof (Z.log2_spec (Zpos d) eq_refl) as H.
    rewrite <- Z.add_1_r in H. exact H. }
  assert (Ha0 : (0 <= a)%Z) by apply Z.log2_nonneg.
  assert (Hb0 : (0 <= b)%Z) by apply Z.log2_nonneg.
  assert (Hnd : n # d == inject_Z n / inject_Z (Zpos d)) by apply Qmake_Qdiv.
  assert (Hdpos : 0 < inject_Z (Zpos d)) by reflexivity.
  assert (Hup : n # d < pow2 (a - b + 1)).
  { rewrite Hnd. apply Qlt_shift_div_r; [exact Hdpos|].
    apply Qlt_le_trans with (pow2 (a + 1)).
    - rewrite pow2_Z by lia. rewrite <- Zlt_Qlt. lia.
    - replace (a + 1)%Z with ((a - b + 1) + b)%Z by ring.
      rewrite pow2_add. apply Qmult_le_l; [apply pow2_pos|].
      rewrite pow2_Z by lia. rewrite <- Zle_Qle. lia. }
  assert (Hlo : pow2 (a - b - 1) <= n # d).
  { rewrite Hnd. apply Qle_shift_div_l; [exact Hdpos|].
    apply Qle_trans with (pow2 a).
    - apply Qle_trans with (pow2 (a - b - 1) * pow2 (b + 1)).
      + apply Qmult_le_l; [apply pow2_pos|].
        rewrite pow2_Z by lia. rewrite <- Zle_Qle. lia.
      + rewrite <- pow2_add. replace (a - b - 1 + (b + 1))%Z with a by ring.
        apply Qle_refl.
    - rewrite pow2_Z by lia. rewrite <- Zle_Qle. lia. }
  destruct (Qle_bool (pow2 (a - b)) (n # d)) eqn:E.
  - apply Qle_bool_iff in E. split; assumption.
  - assert (E' : n # d < pow2 (a - b)).
    { apply Qnot_le_lt. intro H. apply Qle_bool_iff in H. congruence. }
    split; [exact Hlo|]. replace (a - b - 1 + 1)%Z with (a - b)%Z by ring.
    exact E'.
Qed.

Lemma flog2_mono p q : 0 < p -> p <= q -> (flog2 p <= flog2 q)%Z.
Proof.
  intros Hp Hpq.
  destruct (flog2_spec p Hp) as [Hp1 _].
  destruct (flog2_spec q (Qlt_le_trans _ _ _ Hp Hpq)) as [_ Hq2].
  destruct (Z_lt_le_dec (flog2 q) (flog2 p)) as [Hlt|]; [|assumption].
  exfalso.
  assert (H : pow2 (flog2 q + 1) <= pow2 (flog2 p)) by (apply pow2_le; lia).
  apply (Qlt_irrefl q). eapply Qlt_le_trans; [exact Hq2|].
  eapply Qle_trans; [exact H|]. eapply Qle_trans; eassumption.
Qed.


Lemma rne_floor q : (Qfloor q <= rne q <= Qfloor q + 1)%Z.
Proof.
  unfold rne. destruct (Qcompare _ _); [destruct (Z.even _)| |]; lia.
Qed.

Lemma rne_Z z : rne (inject_Z z) = z.
Proof.
  unfold rne. rewrite Qfloor_Z.
  generalize (inject_Z z); intros x.
  destruct (Qcompare_spec (x - x) (1 # 2)) as [H|H|H];
    [exfalso; lra | reflexivity | exfalso; lra].
Qed.

Lemma rne_mono p q : p <= q -> (rne p <= rne q)%Z.
Proof.
  intros Hpq. pose proof (Qfloor_resp_le _ _ Hpq) as Hf.
  pose proof (rne_floor p) as Bp. pose proof (rne_floor q) as Bq.
  destruct (Z.eq_dec (Qfloor p) (Qfloor q)) as [E|NE]; [|lia].
  unfold rne in *. rewrite E in *.
  generalize dependent (inject_Z (Qfloor q)). intros x.
  set (f := Qfloor q) in *.
  destruct (Qcompare_spec (p - x) (1 # 2)) as [Hp|Hp|Hp];
  destruct (Qcompare_spec (q - x) (1 # 2)) as [Hq|Hq|Hq];
    try destruct (Z.even f); try lia; exfalso; lra.
Qed.

Lemma rne_proper p q : p == q -> rne p = rne q.
Proof.
  intros H. apply Z.le_antisymm; apply rne_mono; rewrite H; apply Qle_refl.
Qed.

Lemma round_mag_ok q : 0 < q -> mag_ok (round_mag q).
Proof.
  intros Hq. destruct (flog2_spec q Hq) as [Hlo Hhi].
  unfold mag_ok, round_mag; cbn [fst snd].
  set (ex := Z.max (flog2 q - (prec - 1)) emin).
  assert (Hex : 0 < pow2 ex) by apply pow2_pos.
  assert (Hx0 : 0 <= q / pow2 ex).
  { apply Qle_shift_div_l; [exact Hex|]. rewrite Qmult_0_l. apply Qlt_le_weak, Hq. }
  assert (Hx1 : q / pow2 ex <= inject_Z (2 ^ prec)).
  { apply Qle_shift_div_r; [exact Hex|].
    rewrite <- pow2_Z by (unfold prec; lia). rewrite <- pow2_add.
    apply Qlt_le_weak. eapply Qlt_le_trans; [exact Hhi|].
    apply pow2_le. unfold prec in *. lia. }
  split; [split|split].
  - rewrite <- (rne_Z 0). apply rne_mono. exact Hx0.
  - rewrite <- (rne_Z (2 ^ prec)). apply rne_mono. exact Hx1.
  - apply Z.le_max_r.
  - intros Hgt. assert (Eex : ex = (flog2 q - (prec - 1))%Z) by lia.
    rewrite <- (rne_Z (2 ^ (prec - 1))). apply rne_mono.
    apply Qle_shift_div_l; [exact Hex|].
    rewrite <- pow2_Z by (unfold prec; lia). rewrite <- pow2_add.
    eapply Qle_trans; [|exact Hlo]. apply pow2_le. lia.
Qed.

Lemma round_mag_mono p q :
  0 < p -> p <= q -> pval (round_mag p) <= pval (round_mag q).
Proof.
  intros Hp Hpq. assert (Hq : 0 < q) by (eapply Qlt_le_trans; eassumption).
  pose proof (round_mag_ok p Hp) as [[Hp0 Hp1] [Hp2 Hp3]].
  pose proof (round_mag_ok q Hq) as [[Hq0 Hq1] [Hq2 Hq3]].
  pose proof (flog2_mono p q Hp Hpq) as Hfl.
  unfold pval, round_mag in *; cbn [fst snd] in *.
  set (ep := Z.max (flog2 p - (prec - 1)) emin) in *.
  set (eq := Z.max (flog2 q - (prec - 1)) emin) in *.
  assert (Hep : 0 < pow2 ep) by apply pow2_pos.
  assert (Heq : 0 < pow2 eq) by apply pow2_pos.
  destruct (Z.eq_dec ep eq) as [E|NE].
  - rewrite E in *. apply Qmult_le_compat_r; [|apply Qlt_le_weak, Heq].
    rewrite <- Zle_Qle. apply rne_mono.
    apply Qmult_le_compat_r; [exact Hpq|].
    apply Qlt_le_weak, Qinv_lt_0_compat, Heq.
  - assert (Hlt : (ep < eq)%Z) by lia.
    apply Qle_trans with (inject_Z (2 ^ prec) * pow2 ep).
    { apply Qmult_le_compat_r; [|apply Qlt_le_weak, Hep].
      rewrite <- Zle_Qle. exact Hp1. }
    apply Qle_trans with (inject_Z (2 ^ (prec - 1)) * pow2 eq).
    { rewrite <- !pow2_Z by (unfold prec; lia). rewrite <- !pow2_add.
      apply pow2_le. unfold prec. lia. }
    apply Qmult_le_compat_r; [|apply Qlt_le_weak, Heq].
    rewrite <- Zle_Qle. apply Hq3. lia.
Qed.


Lemma fleb_xval x y :
  in_range x -> in_range y -> (fleb x y = true <-> xval x <= xval y).
Proof.
  assert (P : 0 < pow2 emax) by apply pow2_pos.
  assert (Hc : forall a b, (match Qcompare a b with Lt | Eq => true | Gt => false end = true) <-> a <= b).
  { intros a b. destruct (Qcompare_spec a b) as [H|H|H]; split; intro K;
      try reflexivity; try discriminate; try lra. }
  unfold fleb, fcompare.
  destruct x as [sx|sx| |sx mx ex], y as [sy|sy| |sy my ey];
    cbn [in_range xval]; intros Hx Hy; try contradiction;
    try (apply Hc);
    repeat match goal with
      | |- context [val (S754_zero ?s)] => change (val (S754_zero s)) with 0
      | |- context [val (S754_finite ?s ?m ?e)] =>
          generalize dependent (val (S754_finite s m e)); intros
      end;
    try (destruct sx); try (destruct sy);
    generalize dependent (pow2 emax); intros B; intros;
    split; intro K; try reflexivity; try discriminate; try lra.
Qed.

Lemma pack_spec s me :
  mag_ok me ->
  in_range (pack s me)
  /\ xval (pack s me)
     == (if s then - Qmin (pval me) (pow2 emax) else Qmin (pval me) (pow2 emax)).
Proof.
  destruct me as [m e]. unfold mag_ok, pval; cbn [fst snd].
  intros [[Hm0 Hm1] [He Hn]].
  assert (Pe : 0 < pow2 e) by apply pow2_pos.
  assert (Hbig : (emax - prec < e)%Z -> pow2 emax <= inject_Z m * pow2 e).
  { intros Hgt. apply Qle_trans with (inject_Z (2 ^ (prec - 1)) * pow2 e).
    - rewrite <- pow2_Z by (unfold prec; lia). rewrite <- pow2_add.
      apply pow2_le. unfold emax, prec in *. lia.
    - apply Qmult_le_compat_r; [|apply Qlt_le_weak, Pe].
      rewrite <- Zle_Qle. apply Hn. unfold emax, prec, emin in *. lia. }
  assert (Hsmall : (m < 2 ^ prec)%Z -> (e <= emax - prec)%Z ->
                   inject_Z m * pow2 e < pow2 emax).
  { intros Hlt Hle. apply Qlt_le_trans with (inject_Z (2 ^ prec) * pow2 e).
    - apply Qmult_lt_compat_r; [exact Pe|]. rewrite <- Zlt_Qlt. exact Hlt.
    - rewrite <- pow2_Z by (unfold prec; lia). rewrite <- pow2_add.
      apply pow2_le. unfold emax, prec in *. lia. }
  assert (Hnn : 0 <= inject_Z m * pow2 e).
  { apply Qmult_le_0_compat; [|apply Qlt_le_weak, Pe].
    change 0 with (inject_Z 0). rewrite <- Zle_Qle. exact Hm0. }
  unfold pack.
  destruct (Z.eqb_spec m (2 ^ prec)) as [Em|Nm].
  - (* the mantissa rounded up to the next power of two *)
    assert (Ev : inject_Z (2 ^ (prec - 1)) * pow2 (e + 1) == inject_Z m * pow2 e).
    { rewrite Em. rewrite <- !pow2_Z by (unfold prec; lia).
      rewrite <- !pow2_add. replace (prec - 1 + (e + 1))%Z with (prec + e)%Z by ring.
      reflexivity. }
    change (2 ^ (prec - 1))%Z with (Zpos (2 ^ 52)%positive) in *.
    destruct (Z.ltb_spec (emax - prec) (e + 1)) as [Hov|Hfit].
    + split; [exact I|]. cbn [xval].
      assert (K : pow2 emax <= inject_Z m * pow2 e).
      { rewrite <- Ev. change (Zpos (2 ^ 52)%positive) with (2 ^ (prec - 1))%Z.
        rewrite <- pow2_Z by (unfold prec; lia). rewrite <- pow2_add.
        apply pow2_le. unfold emax, prec in *. lia. }
      destruct s; rewrite (Q.min_r _ _ K); reflexivity.
    + assert (K : inject_Z m * pow2 e < pow2 emax).
      { rewrite <- Ev. change (Zpos (2 ^ 52)%positive) with (2 ^ (prec - 1))%Z.
        rewrite <- pow2_Z by (unfold prec; lia). rewrite <- pow2_add.
        apply pow2_lt. unfold emax, prec in *. lia. }
      cbn [in_range xval val].
      destruct s; rewrite (Q.min_l _ _ (Qlt_le_weak _ _ K));
        split; try split; try (rewrite Ev); try lra.
  - assert (Hlt : (m < 2 ^ prec)%Z) by lia.
    destruct m as [|p|p]; [| |lia].
    + split; [exact I|]. cbn [xval val].
      assert (K : inject_Z 0 * pow2 e == 0) by (apply Qmult_0_l).
      assert (B : 0 < pow2 emax) by apply pow2_pos.
      destruct s; rewrite Q.min_l by (rewrite K; apply Qlt_le_weak, B);
        rewrite K; reflexivity.
    + destruct (Z.ltb_spec (emax - prec) e) as [Hov|Hfit].
      * split; [exact I|]. cbn [xval].
        destruct s; rewrite (Q.min_r _ _ (Hbig Hov)); reflexivity.
      * pose proof (Hsmall Hlt Hfit) as K.
        cbn [in_range xval val].
        destruct s; rewrite (Q.min_l _ _ (Qlt_le_weak _ _ K));
          split; try split; try reflexivity; try lra.
Qed.

Lemma round64_spec s q :
  in_range (round64 s q) /\ xval (round64 s q) == clampq q.
Proof.
  unfold round64, clampq.
  destruct (Qcompare_spec q 0) as [H|H|H].
  - split; [exact I | reflexivity].
  - apply (pack_spec true). apply round_mag_ok. lra.
  - apply (pack_spec false). apply round_mag_ok. exact H.
Qed.

Lemma pval_nonneg q : 0 < q -> 0 <= pval (round_mag q).
Proof.
  intros Hq. destruct (round_mag_ok q Hq) as [[H0 _] _].
  unfold pval. apply Qmult_le_0_compat; [|apply Qlt_le_weak, pow2_pos].
  change 0 with (inject_Z 0). rewrite <- Zle_Qle. exact H0.
Qed.

Lemma clampq_mono p q : p <= q -> clampq p <= clampq q.
Proof.
  intros Hpq. unfold clampq.
  assert (B : 0 < pow2 emax) by apply pow2_pos.
  assert (Hpos : forall r, 0 < r -> 0 <= Qmin (pval (round_mag r)) (pow2 emax)).
  { intros r Hr. apply Q.min_glb; [apply pval_nonneg, Hr | apply Qlt_le_weak, B]. }
  assert (Hmin : forall a b, 0 < a -> a <= b ->
            Qmin (pval (round_mag a)) (pow2 emax)
            <= Qmin (pval (round_mag b)) (pow2 emax)).
  { intros a b Ha Hab. apply Q.min_le_compat_r. apply round_mag_mono; assumption. }
  destruct (Qcompare_spec p 0) as [Hp|Hp|Hp];
  destruct (Qcompare_spec q 0) as [Hq|Hq|Hq]; try (exfalso; lra); try lra.
  - specialize (Hpos q Hq). lra.
  - assert (K := Hpos (- p) ltac:(lra)). lra.
  - assert (K := Hmin (- q) (- p) ltac:(lra) ltac:(lra)). lra.
  - assert (K := Hpos (- p) ltac:(lra)). assert (K' := Hpos q Hq). lra.
  - apply Hmin; assumption.
Qed.

(** Rounding to nearest never reverses an order. *)
Lemma round64_mono s1 s2 p q :
  p <= q -> fleb (round64 s1 p) (round64 s2 q) = true.
Proof.
  intros Hpq.
  destruct (round64_spec s1 p) as [Rp Vp], (round64_spec s2 q) as [Rq Vq].
  apply fleb_xval; [exact Rp | exact Rq |].
  rewrite Vp, Vq. apply clampq_mono, Hpq.
Qed.

End RoundingOrder.

(* ================================================================== *)
(** ** The operations as "exact, then rounded" *)

Section Operations.

Lemma round64_zero s q : q == 0 -> round64 s q = S754_zero s.
Proof.
  intros H. unfold round64.
  destruct (Qcompare_spec q 0) as [K|K|K]; [reflexivity | lra | lra].
Qed.

Lemma val_fopp x : val (fopp x) == - val x.
Proof.
  destruct x as [s|s| |s m e]; cbn; try reflexivity.
  destruct s; cbn; generalize (pow2 e); intro; ring.
Qed.

Lemma is_finite_fopp x : is_finite (fopp x) = is_finite x.
Proof. destruct x; reflexivity. Qed.

Lemma fmul_round x y :
  is_finite x = true -> is_finite y = true ->
  exists s, fmul x y = round64 s (val x * val y).
Proof.
  destruct x as [sx|sx| |sx mx ex], y as [sy|sy| |sy my ey];
    try discriminate; intros _ _; exists (xorb sx sy);
    try reflexivity; cbn [fmul]; symmetry; apply round64_zero;
    cbn [val]; ring.
Qed.

Lemma fadd_round x y :
  is_finite x = true -> is_finite y = true ->
  exists s, fadd x y = round64 s (val x + val y).
Proof.
  destruct x as [sx|sx| |sx mx ex], y as [sy|sy| |sy my ey];
    try discriminate; intros _ _;
    try (exists false; reflexivity).
  exists (sx && sy). cbn [fadd]. symmetry. apply round64_zero. reflexivity.
Qed.

Lemma fsub_round x y :
  is_finite x = true -> is_finite y = true ->
  exists s q, fsub x y = round64 s q /\ q == val x - val y.
Proof.
  intros Hx Hy. unfold fsub.
  destruct (fadd_round x (fopp y)) as [s E];
    [exact Hx | rewrite is_finite_fopp; exact Hy |].
  exists s, (val x + val (fopp y)). split; [exact E|].
  rewrite val_fopp. ring.
Qed.

Lemma fleb_val x y :
  is_finite x = true -> is_finite y = true ->
  (fleb x y = true <-> val x <= val y).
Proof.
  intros Hx Hy. unfold fleb.
  assert (E : fcompare x y = Some (Qcompare (val x) (val y))).
  { destruct x, y; try discriminate; reflexivity. }
  rewrite E.
  destruct (Qcompare_spec (val x) (val y)) as [H|H|H]; split; intro K;
    try reflexivity; try discriminate; try lra.
Qed.

Lemma fltb_val x y :
  is_finite x = true -> is_finite y = true ->
  (fltb x y = true <-> val x < val y).
Proof.
  intros Hx Hy. unfold fltb.
  assert (E : fcompare x y = Some (Qcompare (val x) (val y))).
  { destruct x, y; try discriminate; reflexivity. }
  rewrite E.
  destruct (Qcompare_spec (val x) (val y)) as [H|H|H]; split; intro K;
    try reflexivity; try discriminate; try lra.
Qed.

(** A double lying between two finite doubles is finite. *)
Lemma fleb_between lo hi x :
  is_finite lo = true -> is_finite hi = true ->
  fleb lo x = true -> fleb x hi = true ->
  is_finite x = true /\ val lo <= val x <= val hi.
Proof.
  intros Hlo Hhi H1 H2.
  assert (Fx : is_finite x = true).
  { destruct x as [s|s| |s m e]; try reflexivity.
    - destruct s; [destruct lo | destruct hi]; discriminate.
    - destruct lo; discriminate. }
  split; [exact Fx|].
  split; [apply (fleb_val lo x) | apply (fleb_val x hi)]; assumption.
Qed.

Lemma round64_between s q lo hi :
  is_finite (round64 false lo) = true ->
  is_finite (round64 false hi) = true ->
  lo <= q <= hi ->
  is_finite (round64 s q) = true
  /\ val (round64 false lo) <= val (round64 s q) <= val (round64 false hi).
Proof.
  intros Hlo Hhi [H1 H2].
  apply fleb_between; try assumption; apply round64_mono; assumption.
Qed.

Lemma round64_within s q lo hi :
  representable lo -> representable hi -> lo <= q <= hi ->
  is_finite (round64 s q) = true /\ lo <= val (round64 s q) <= hi.
Proof.
  intros [Flo Vlo] [Fhi Vhi] Hq.
  destruct (round64_between s q lo hi Flo Fhi Hq) as [F [A B]].
  split; [exact F|]. rewrite <- Vlo, <- Vhi. split; assumption.
Qed.

Lemma round64_in_range s q : in_range (round64 s q).
Proof. apply round64_spec. Qed.

Lemma finite_in_range x :
  is_finite x = true -> in_range x ->
  - pow2 emax < val x /\ val x < pow2 emax.
Proof.
  assert (B : 0 < pow2 emax) by apply pow2_pos.
  destruct x as [s|s| |s m e]; try discriminate; intros _ H.
  - cbn [val]. split; lra.
  - exact H.
Qed.

Lemma digits2_pos_bound m : (Zpos m < 2 ^ Zpos (digits2_pos m))%Z.
Proof.
  induction m as [m IH|m IH|]; cbn [digits2_pos]; [| |reflexivity];
    rewrite Pos2Z.inj_succ, Z.pow_succ_r by apply Pos2Z.is_nonneg; lia.
Qed.

(** A valid finite binary64 datum lies strictly inside [+-2^1024]. *)
Lemma valid_in_range x : valid_binary prec emax x = true -> is_nan x = false -> in_range x.
Proof.
  destruct x as [s|s| |s m e]; try discriminate; try (intros; exact I).
  cbn [valid_binary in_range val]. unfold bounded, canonical_mantissa.
  intros H _. apply andb_prop in H. destruct H as [H1 H2].
  apply Z.eqb_eq in H1. apply Z.leb_le in H2.
  unfold fexp, SpecFloat.emin in H1.
  pose proof (digits2_pos_bound m) as D.
  assert (Hd : (Zpos (digits2_pos m) <= prec)%Z) by (unfold prec, emax in *; lia).
  assert (Hm : (Zpos m < 2 ^ prec)%Z).
  { eapply Z.lt_le_trans; [exact D|]. apply Z.pow_le_mono_r; lia. }
  assert (Pe : 0 < pow2 e) by apply pow2_pos.
  assert (K : inject_Z (Zpos m) * pow2 e < pow2 emax).
  { apply Qlt_le_trans with (inject_Z (2 ^ prec) * pow2 e).
    - apply Qmult_lt_compat_r; [exact Pe|]. rewrite <- Zlt_Qlt. exact Hm.
    - rewrite <- pow2_Z by (unfold prec; lia). rewrite <- pow2_add.
      apply pow2_le. unfold emax, prec in *. lia. }
  assert (K0 : 0 < inject_Z (Zpos m) * pow2 e).
  { apply Qmult_lt_0_compat; [reflexivity | exact Pe]. }
  assert (E : - inject_Z (Zpos m) * pow2 e == - (inject_Z (Zpos m) * pow2 e))
    by ring.
  destruct s; [rewrite E|];
    set (v := inject_Z (Zpos m) * pow2 e) in *;
    set (B := pow2 emax) in *; clearbody v B; split; lra.
Qed.

End Operations.

(* ================================================================== *)
(** ** The rounded results are binary64 data *)

Section Validity.

Lemma digits2_pos_lower m : (2 ^ (Zpos (digits2_pos m) - 1) <= Zpos m)%Z.
Proof.
  induction m as [m IH|m IH|]; cbn [digits2_pos]; [| |cbn; lia];
    rewrite Pos2Z.inj_succ;
    replace (Z.succ (Zpos (digits2_pos m)) - 1)%Z
      with (Z.succ (Zpos (digits2_pos m) - 1)) by lia;
    rewrite Z.pow_succ_r by lia; lia.
Qed.

Lemma digits2_pos_le m n : (Zpos m < 2 ^ n)%Z -> (Zpos (digits2_pos m) <= n)%Z.
Proof.
  intros H. pose proof (digits2_pos_lower m) as L.
  destruct (Z_le_gt_dec (Zpos (digits2_pos m)) n) as [|G]; [assumption|].
  exfalso. assert (0 <= n)%Z.
  { destruct (Z_le_gt_dec 0 n); [assumption|].
    rewrite Z.pow_neg_r in H by lia. lia. }
  assert (2 ^ n <= 2 ^ (Zpos (digits2_pos m) - 1))%Z
    by (apply Z.pow_le_mono_r; lia).
  lia.
Qed.

Lemma digits2_pos_ge m n : (2 ^ n <= Zpos m)%Z -> (n < Zpos (digits2_pos m))%Z.
Proof.
  intros H. pose proof (digits2_pos_bound m) as U.
  destruct (Z_lt_le_dec n (Zpos (digits2_pos m))) as [|G]; [assumption|].
  exfalso.
  assert (2 ^ Zpos (digits2_pos m) <= 2 ^ n)%Z
    by (apply Z.pow_le_mono_r; lia).
  lia.
Qed.

Lemma pack_valid s me : mag_ok me -> valid_binary prec emax (pack s me) = true.
Proof.
  destruct me as [m e]. unfold mag_ok; cbn [fst snd].
  intros [[Hm0 Hm1] [He Hn]]. unfold pack.
  assert (V : forall p e', (emin <= e')%Z -> (e' <= emax - prec)%Z ->
              (Zpos p < 2 ^ prec)%Z ->
              ((emin < e')%Z -> (2 ^ (prec - 1) <= Zpos p)%Z) ->
              valid_binary prec emax (S754_finite s p e') = true).
  { intros p e' A B C D. cbn [valid_binary]. unfold bounded, canonical_mantissa.
    apply andb_true_intro. split; [|apply Z.leb_le; exact B].
    apply Z.eqb_eq. unfold fexp, SpecFloat.emin.
    pose proof (digits2_pos_le p prec C) as L.
    unfold emin, emax, prec in *.
    destruct (Z.eq_dec e' (-1074)) as [->|NE]; [lia|].
    assert (G : (52 < Zpos (digits2_pos p))%Z)
      by (apply digits2_pos_ge, D; lia).
    lia. }
  destruct (Z.eqb_spec m (2 ^ prec)) as [Em|Nm].
  - change (2 ^ (prec - 1))%Z with (Zpos (2 ^ 52)%positive).
    destruct (Z.ltb_spec (emax - prec) (e + 1)); [reflexivity|].
    apply V; [lia | lia | reflexivity | intros _; apply Z.le_refl].
  - destruct m as [|p|p]; [reflexivity | | lia].
    destruct (Z.ltb_spec (emax - prec) e); [reflexivity|].
    apply V; [lia | lia | lia | exact Hn].
Qed.

(** Whatever is rounded, the result is a valid binary64 datum. *)
Lemma round64_valid s q : valid_binary prec emax (round64 s q) = true.
Proof.
  unfold round64. destruct (Qcompare_spec q 0) as [H|H|H].
  - reflexivity.
  - apply pack_valid, round_mag_ok. lra.
  - apply pack_valid, round_mag_ok. exact H.
Qed.

Lemma flog2_unique q k :
  pow2 k <= q -> q < pow2 (k + 1) -> flog2 q = k.
Proof.
  intros L U.
  assert (Hq : 0 < q) by (eapply Qlt_le_trans; [apply pow2_pos | exact L]).
  destruct (flog2_spec q Hq) as [L' U'].
  destruct (Z_lt_le_dec (flog2 q) k) as [A|A].
  - exfalso. assert (pow2 (flog2 q + 1) <= pow2 k) by (apply pow2_le; lia).
    apply (Qlt_irrefl q). eapply Qlt_le_trans; [exact U'|].
    eapply Qle_trans; eassumption.
  - destruct (Z_lt_le_dec k (flog2 q)) as [B|B]; [|lia].
    exfalso. assert (pow2 (k + 1) <= pow2 (flog2 q)) by (apply pow2_le; lia).
    apply (Qlt_irrefl q). eapply Qlt_le_trans; [exact U|].
    eapply Qle_trans; eassumption.
Qed.

Lemma round_mag_proper p q : 0 < p -> p == q -> round_mag p = round_mag q.
Proof.
  intros Hp E. assert (Hq : 0 < q) by (rewrite <- E; exact Hp).
  destruct (flog2_spec q Hq) as [L U].
  assert (F : flog2 p = flog2 q).
  { apply flog2_unique; rewrite E; assumption. }
  unfold round_mag. rewrite F. f_equal. apply rne_proper.
  rewrite E. reflexivity.
Qed.

Lemma round_mag_canonical m e :
  bounded prec emax m e = true ->
  round_mag (inject_Z (Zpos m) * pow2 e) = (Zpos m, e).
Proof.
  unfold bounded, canonical_mantissa. intros H.
  apply andb_prop in H. destruct H as [H1 H2].
  apply Z.eqb_eq in H1. apply Z.leb_le in H2.
  unfold fexp, SpecFloat.emin in H1.
  pose proof (digits2_pos_bound m) as U.
  pose proof (digits2_pos_lower m) as L.
  set (d := Zpos (digits2_pos m)) in *.
  assert (Pe : 0 < pow2 e) by apply pow2_pos.
  assert (Hd : (0 < d)%Z) by (subst d; lia).
  assert (F : flog2 (inject_Z (Zpos m) * pow2 e) = (d - 1 + e)%Z).
  { apply flog2_unique.
    - rewrite pow2_add. apply Qmult_le_compat_r; [|apply Qlt_le_weak, Pe].
      rewrite pow2_Z by lia. rewrite <- Zle_Qle. exact L.
    - replace (d - 1 + e + 1)%Z with (d + e)%Z by ring.
      rewrite pow2_add. apply Qmult_lt_compat_r; [exact Pe|].
      rewrite pow2_Z by lia. rewrite <- Zlt_Qlt. exact U. }
  unfold round_mag. rewrite F.
  assert (E : Z.max (d - 1 + e - (prec - 1)) emin = e)
    by (unfold prec, emin, emax in *; lia).
  rewrite E. f_equal.
  rewrite <- (rne_Z (Zpos m)) at 2. apply rne_proper.
  generalize dependent (pow2 e). intros c Pc _.
  field. intro K. rewrite K in Pc. discriminate.
Qed.

(** A valid finite double is the rounding of its own value. *)
Lemma round64_val_id s' s m e :
  valid_binary prec emax (S754_finite s m e) = true ->
  round64 s' (val (S754_finite s m e)) = S754_finite s m e.
Proof.
  cbn [valid_binary]. intros V.
  pose proof (round_mag_canonical m e V) as R.
  assert (Pe : 0 < pow2 e) by apply pow2_pos.
  assert (P : 0 < inject_Z (Zpos m) * pow2 e)
    by (apply Qmult_lt_0_compat; [reflexivity | exact Pe]).
  unfold bounded, canonical_mantissa in V.
  apply andb_prop in V. destruct V as [V1 V2].
  apply Z.eqb_eq in V1. apply Z.leb_le in V2.
  unfold fexp, SpecFloat.emin in V1.
  pose proof (digits2_pos_bound m) as U.
  assert (Hm : (Zpos m < 2 ^ prec)%Z).
  { eapply Z.lt_le_trans; [exact U|]. apply Z.pow_le_mono_r;
      unfold prec, emax in *; lia. }
  assert (K : pack s (Zpos m, e) = S754_finite s m e).
  { unfold pack. destruct (Z.eqb_spec (Zpos m) (2 ^ prec)); [lia|].
    destruct (Z.ltb_spec (emax - prec) e); [lia | reflexivity]. }
  unfold round64, val. destruct s.
  - destruct (Qcompare_spec (- inject_Z (Zpos m) * pow2 e) 0) as [H|H|H];
      try (exfalso; lra).
    assert (Q : round_mag (- (- inject_Z (Zpos m) * pow2 e))
                = round_mag (inject_Z (Zpos m) * pow2 e)).
    { apply round_mag_proper; [lra | ring]. }
    rewrite Q, R. exact K.
  - destruct (Qcompare_spec (inject_Z (Zpos m) * pow2 e) 0) as [H|H|H];
      try (exfalso; lra).
    rewrite R. exact K.
Qed.

End Validity.

(* ================================================================== *)
(** ** Relative error of one rounding *)

Section RelativeError.

Lemma rne_half q :
  q - (1 # 2) <= inject_Z (rne q) /\ inject_Z (rne q) <= q + (1 # 2).
Proof.
  pose proof (Qfloor_le q) as L. pose proof (Qlt_floor q) as U.
  rewrite inject_Z_plus in U. change (inject_Z 1) with 1 in U.
  unfold rne. set (f := Qfloor q) in *.
  destruct (Qcompare_spec (q - inject_Z f) (1 # 2)) as [H|H|H];
    [destruct (Z.even f)| |];
    try rewrite inject_Z_plus; try change (inject_Z 1) with 1;
    generalize dependent (inject_Z f); intros x; intros; split; lra.
Qed.

Lemma finite_val_pval s q :
  0 < q -> is_finite (round64 s q) = true ->
  val (round64 s q) == pval (round_mag q).
Proof.
  intros Hq F.
  assert (E : round64 s q = pack false (round_mag q)).
  { unfold round64. destruct (Qcompare_spec q 0) as [H|H|H];
      [exfalso; lra | exfalso; lra | reflexivity]. }
  rewrite E in *.
  destruct (pack_spec false (round_mag q) (round_mag_ok q Hq)) as [R X].
  pose proof (finite_in_range _ F R) as [_ B].
  assert (V : xval (pack false (round_mag q)) = val (pack false (round_mag q))).
  { destruct (pack false (round_mag q)); try discriminate; reflexivity. }
  rewrite V in X.
  destruct (Qlt_le_dec (pval (round_mag q)) (pow2 emax)) as [A|A].
  - rewrite X. apply Q.min_l. apply Qlt_le_weak, A.
  - exfalso. rewrite (Q.min_r _ _ A) in X. rewrite X in B.
    apply (Qlt_irrefl _ B).
Qed.

(** In the normal range one rounding moves a positive rational by at
    most [2^-53] of itself. *)
Lemma round64_relative s q :
  pow2 (-1022) <= q -> q <= pow2 1023 ->
  is_finite (round64 s q) = true
  /\ q * (1 - pow2 (-53)) <= val (round64 s q)
  /\ val (round64 s q) <= q * (1 + pow2 (-53)).
Proof.
  intros L U.
  assert (Hq : 0 < q) by (eapply Qlt_le_trans; [apply pow2_pos | exact L]).
  destruct (round64_within s q (pow2 (-1022)) (pow2 1023)) as [F _];
    [representable_by_computation | representable_by_computation
     | split; assumption |].
  split; [exact F|].
  rewrite (finite_val_pval s q Hq F).
  destruct (flog2_spec q Hq) as [Lq Uq].
  assert (Hfl : (-1022 <= flog2 q)%Z).
  { rewrite <- (flog2_unique (pow2 (-1022)) (-1022)).
    - apply flog2_mono; [apply pow2_pos | exact L].
    - apply Qle_refl.
    - apply pow2_lt. lia. }
  unfold round_mag, pval; cbn [fst snd].
  assert (Eex : Z.max (flog2 q - (prec - 1)) emin = (flog2 q - 52)%Z)
    by (unfold prec, emin; lia).
  rewrite Eex. set (ex := (flog2 q - 52)%Z).
  assert (Pex : 0 < pow2 ex) by apply pow2_pos.
  destruct (rne_half (q / pow2 ex)) as [A B].
  assert (Hulp : pow2 ex * (1 # 2) <= q * pow2 (-53)).
  { apply Qle_trans with (pow2 (flog2 q) * pow2 (-53)).
    - rewrite <- pow2_add. subst ex.
      replace (flog2 q + -53)%Z with (flog2 q - 52 + -1)%Z by ring.
      rewrite pow2_add. apply Qle_refl.
    - apply Qmult_le_compat_r; [exact Lq | apply Qlt_le_weak, pow2_pos]. }
  assert (Eq : q / pow2 ex * pow2 ex == q).
  { field. intro K. rewrite K in Pex. discriminate. }
  apply (Qmult_le_compat_r _ _ (pow2 ex)) in A; [|apply Qlt_le_weak, Pex].
  apply (Qmult_le_compat_r _ _ (pow2 ex)) in B; [|apply Qlt_le_weak, Pex].
  generalize dependent (inject_Z (rne (q / pow2 ex)) * pow2 ex). intros r.
  generalize dependent (q / pow2 ex). intros x.
  generalize dependent (pow2 (-53)). intros u.
  generalize dependent (pow2 ex). intros c. intros.
  split; nra.
Qed.

End RelativeError.

(* ================================================================== *)
(** ** The model of binary64 against the Standard Library's *)

Section Agreement.

(** On the constants and products of the program the operations above
    coincide with [SFadd], [SFmul] and [SFdiv] of [SpecFloat]. *)
Example fmul_agrees :
  fmul (dec 50 0) (dec 1 (-1)) = SFmul prec emax (dec 50 0) (dec 1 (-1))
  /\ fmul (dec 8 (-2)) (dec 458202 (-3))
     = SFmul prec emax (dec 8 (-2)) (dec 458202 (-3))
  /\ fmul (dec 1 (-160)) (dec 1 (-160))
     = SFmul prec emax (dec 1 (-160)) (dec 1 (-160))
  /\ fmul (dec 1 200) (dec 1 200) = SFmul prec emax (dec 1 200) (dec 1 200).
Proof. repeat split; vm_compute; reflexivity. Qed.

Example fadd_agrees :
  fadd (dec 1 (-1)) (dec 2 (-1)) = SFadd prec emax (dec 1 (-1)) (dec 2 (-1))
  /\ fsub (dec 2447 (-3)) (dec 28548 (-4))
     = SFsub prec emax (dec 2447 (-3)) (dec 28548 (-4))
  /\ fadd (dec 1 (-1)) (dec 2 (-1)) <> dec 3 (-1).
Proof. repeat split; try (vm_compute; reflexivity). vm_compute. discriminate. Qed.

Example fdiv_agrees :
  fdiv (dec 1 0) (dec 3 0) = SFdiv prec emax (dec 1 0) (dec 3 0)
  /\ fdiv (dec 5727525 (-5)) (dec 789 (-3))
     = SFdiv prec emax (dec 5727525 (-5)) (dec 789 (-3)).
Proof. repeat split; vm_compute; reflexivity. Qed.

Example ties_go_to_even :
  round64 false (inject_Z (2 ^ 53 + 1)) = round64 false (inject_Z (2 ^ 53))
  /\ round64 false (inject_Z (2 ^ 53 + 3))
     = round64 false (inject_Z (2 ^ 53 + 4))
  /\ dec 1 0 = SFone prec emax
  /\ dec 17976931348623157 292 = SFmax_float prec emax.
Proof. repeat split; vm_compute; reflexivity. Qed.

Example literals_valid :
  forallb (valid_binary prec emax)
    [dec 2447 (-3); dec 9516 (-5); dec 1074 (-4); dec 3362 (-4);
     dec 2097 (-3); dec 1069 (-4); dec 2466 (-4); dec 1 (-1); dec 100 (-1);
     dec 120 (-1); dec 140 (-1); dec 789 (-3); dec 15 (-3);
     dec 5 (-324); dec 17976931348623157 292] = true.
Proof. vm_compute. reflexivity. Qed.

End Agreement.

(* ================================================================== *)
(** ** String operations *)

Section Strings.

Lemma startswith_spec s p :
  startswith s p = true <-> exists r, s = p ++ r.
Proof.
  revert s. induction p as [|a p IH]; intros s; cbn [startswith].
  - split; [intros _; exists s; reflexivity | reflexivity].
  - destruct s as [|b s].
    + split; [discriminate | intros [r H]; discriminate].
    + rewrite andb_true_iff, N.eqb_eq, IH. split.
      * intros [-> [r ->]]. exists r. reflexivity.
      * intros [r H]. injection H as -> ->. split; [reflexivity | eauto].
Qed.

Lemma contains_spec x s :
  contains x s = true <-> exists a b, s = a ++ x ++ b.
Proof.
  induction s as [|c s IH]; cbn [contains]; rewrite orb_true_iff, startswith_spec.
  - split.
    + intros [[r H]|H]; [|discriminate]. exists [], r. exact H.
    + intros [a [b H]]. left. destruct a; [|discriminate]. exists b. exact H.
  - rewrite IH. split.
    + intros [[r H]|[a [b H]]].
      * exists [], r. exact H.
      * exists (c :: a), b. rewrite H. reflexivity.
    + intros [a [b H]]. destruct a as [|c' a].
      * left. exists b. exact H.
      * right. injection H as _ ->. exists a, b. reflexivity.
Qed.

Lemma endswith_spec s suf :
  endswith s suf = true <-> exists a, s = a ++ suf.
Proof.
  unfold endswith. rewrite startswith_spec. split.
  - intros [r H]. exists (rev r).
    rewrite <- (rev_involutive s), H, rev_app_distr, rev_involutive.
    reflexivity.
  - intros [a ->]. exists (rev a). apply rev_app_distr.
Qed.

Lemma drop_last_app a suf :
  suf <> [] -> drop_last (List.length suf) (a ++ suf) = a.
Proof.
  intros H. unfold drop_last.
  destruct (List.length suf) eqn:E.
  - destruct suf; [contradiction | discriminate].
  - rewrite <- E, length_app, Nat.add_sub, firstn_app, Nat.sub_diag, firstn_all.
    cbn [firstn]. apply app_nil_r.
Qed.


Lemma str_eqb_eq a b : str_eqb a b = true <-> a = b.
Proof.
  unfold str_eqb. destruct (list_eq_dec N.eq_dec a b); split; intro H;
    try reflexivity; try assumption; try discriminate; contradiction.
Qed.

Lemma str_eqb_neq a b : str_eqb a b = false <-> a <> b.
Proof.
  unfold str_eqb. destruct (list_eq_dec N.eq_dec a b); split; intro H;
    try reflexivity; try assumption; try discriminate; contradiction.
Qed.

Lemma contains_In x s c : contains x s = true -> In c x -> In c s.
Proof.
  intros H Hc. apply contains_spec in H. destruct H as [a [b ->]].
  apply in_or_app. right. apply in_or_app. left. exact Hc.
Qed.

End Strings.

(* ================================================================== *)
(** ** The parser *)

Section Parser.

Lemma float_of_str_error s e : float_of_str s = Raise e -> e = ValueError.
Proof.
  unfold float_of_str.
  destruct (negb (underscores_ok None (float_strip s))); [congruence|].
  destruct (split_sign _) as [neg body].
  destruct (str_eqb (lower body) (lit "inf") || str_eqb (lower body) (lit "infinity"));
    [discriminate|].
  destruct (str_eqb (lower body) (lit "nan")); [discriminate|].
  destruct (take_digits body) as [ip r1].
  destruct (match r1 with 46%N :: r => take_digits r | _ => ([], r1) end)
    as [fp r2].
  destruct (ip ++ fp); [congruence|].
  destruct (parse_exponent r2); [discriminate | congruence].
Qed.

Lemma parse_bac_unfold value :
  parse_bac value =
  (x <- float_of_str (bac_remainder value) ;;
   Ok (if permille_flag value then (x * dec 1 (-1))%flt else x)).
Proof.
  unfold parse_bac, parse_bac_over, bac_remainder, permille_flag.
  destruct (float_of_str _); cbn [bind]; [|reflexivity].
  destruct (existsb _ _); reflexivity.
Qed.

Lemma strip_first_suffix_find s :
  strip_first_suffix suffixes s = Spec.strip_one_suffix s.
Proof.
  unfold Spec.strip_one_suffix, suffixes.
  cbn [strip_first_suffix find].
  repeat (destruct (endswith s _); [reflexivity|]). reflexivity.
Qed.

Lemma permille_flag_detected value :
  permille_flag value = Spec.permille_detected (Spec.normalize value).
Proof.
  unfold permille_flag, Spec.permille_detected, Spec.normalize, permille_markers.
  cbn [existsb]. rewrite orb_false_r, orb_assoc. reflexivity.
Qed.




End Parser.

(* ================================================================== *)
(** ** What [float] accepts *)

Section FloatAlphabet.















End FloatAlphabet.

(* ================================================================== *)
(** ** The parser against its reference, and its two scans *)

(** C1. [parse_bac] is the five-step reference algorithm of the
    specification (normalise; permille flag from a substring search;
    first matching suffix removed once; [float]; times [0.1] iff the flag
    is set) on every input string: whatever [str.lower] does to the
    string and whatever [float] accepts, as long as [float] fails with
    the parse error only, the two agree; in particular they agree for
    the [lower] and the [float] of this development on plain text.  The
    four examples evaluate to the doubles [0.05], [0.05], [5.0] and
    [0.08]; surrounding white space, capitals and inner spaces go
    through the first step, and digits of other scripts through
    [float]. *)
Theorem parse_bac_reference :
  (forall (str_lower : str -> str) (to_float : str -> result float),
      (forall s e, to_float s = Raise e -> e = Spec.ParseError) ->
      forall text,
        parse_bac_over str_lower to_float text
        = Spec.parse_target_bac_over str_lower to_float text)
  /\ (forall text,
        plain_text text -> parse_bac text = Spec.parse_target_bac text)
  /\ parse_bac (lit "0.05%") = Ok (dec 5 (-2))
  /\ parse_bac (lit "0.5‰") = Ok (dec 5 (-2))
  /\ parse_bac (lit "50permille") = Ok (dec 50 (-1))
  /\ parse_bac (lit "0.08") = Ok (dec 8 (-2))
  /\ parse_bac (lit "  0.5 PerMille ") = Ok (dec 5 (-2))
  /\ parse_bac (lit " 5 0 / 1 0 0 0") = Ok (dec 50 (-1))
  /\ parse_bac (lit "0.0 8 %") = Ok (dec 8 (-2))
  /\ parse_bac (lit "٣%") = Ok (dec 3 0)
  /\ parse_bac (lit "٥permille") = Ok (dec 5 (-1))
  /\ parse_bac (lit "５") = Ok (dec 5 0).
Proof.
  assert (G : forall (str_lower : str -> str) (to_float : str -> result float),
      (forall s e, to_float s = Raise e -> e = Spec.ParseError) ->
      forall text,
        parse_bac_over str_lower to_float text
        = Spec.parse_target_bac_over str_lower to_float text).
  { intros str_lower to_float Herr text.
    unfold parse_bac_over, Spec.parse_target_bac_over.
    rewrite strip_first_suffix_find.
    replace (existsb
               (fun x => contains x (remove_spaces (str_lower (strip text))))
               permille_markers)
      with (Spec.permille_detected
              (remove_spaces (str_lower (strip text))))
      by (unfold Spec.permille_detected, permille_markers; cbn [existsb];
          rewrite orb_false_r, orb_assoc; reflexivity).
    destruct (to_float _) as [x|e] eqn:E; cbn [bind].
    - destruct (Spec.permille_detected _); reflexivity.
    - rewrite (Herr _ _ E). reflexivity. }
  split; [exact G|].
  split; [intros text _; exact (G lower float_of_str float_of_str_error text)|].
  repeat split; vm_compute; reflexivity.
Qed.

Lemma parse_bac_reference_witness :
  parse_bac_over lower float_of_str (lit "0.05 %")
  = Spec.parse_target_bac_over lower float_of_str (lit "0.05 %")
  /\ parse_bac (lit "  0.5 PerMille ")
     = Spec.parse_target_bac (lit "  0.5 PerMille ").
Proof.
  destruct parse_bac_reference as [A [B _]].
  split.
  - apply A. exact float_of_str_error.
  - apply B. vm_compute. reflexivity.
Defined.

Section Markers.




End Markers.





(* ================================================================== *)
(** ** The plans *)

Section Plans.

Lemma py_truediv_nonzero x y :
  is_zero y = false -> py_truediv x y = Ok (fdiv x y).
Proof. intros H. unfold py_truediv. rewrite H. reflexivity. Qed.

(** Both programs run the same gram computation; what they return is a
    projection of it. *)
Lemma mass_make_plan_eq inp :
  MassPlanner.make_plan inp =
  (t <- watson_tbw_liters (sex inp) (weight_kg inp) (height_cm inp)
          (age_years inp) ;;
   let d := (t * dec 100 (-1))%flt in
   let l := (target_bac inp * d)%flt in
   let m := (beta inp * d)%flt in
   let g := (l + m * duration_hours inp)%flt in
   Ok (MassPlanner.mkPlan t d l m g
         (g / dec 120 (-1))%flt (g / dec 140 (-1))%flt)).
Proof.
  unfold MassPlanner.make_plan.
  destruct (watson_tbw_liters _ _ _ _); cbn [bind]; [|reflexivity].
  rewrite !py_truediv_nonzero by (vm_compute; reflexivity). reflexivity.
Qed.

Lemma volume_make_plan_eq inp :
  VolumePlanner.make_plan inp =
  (t <- watson_tbw_liters (sex inp) (weight_kg inp) (height_cm inp)
          (age_years inp) ;;
   let d := (t * dec 100 (-1))%flt in
   let l := (target_bac inp * d)%flt in
   let m := (beta inp * d)%flt in
   let g := (l + m * duration_hours inp)%flt in
   Ok (VolumePlanner.mkPlan t d
         (l / VolumePlanner.ETHANOL_DENSITY)%flt
         (m / VolumePlanner.ETHANOL_DENSITY)%flt
         (g / VolumePlanner.ETHANOL_DENSITY)%flt
         (g / dec 120 (-1))%flt (g / dec 140 (-1))%flt)).
Proof.
  unfold VolumePlanner.make_plan.
  destruct (watson_tbw_liters _ _ _ _); cbn [bind]; [|reflexivity].
  rewrite !py_truediv_nonzero by (vm_compute; reflexivity). reflexivity.
Qed.

Lemma make_plan_returns inp :
  returns (MassPlanner.make_plan inp)
  = returns (watson_tbw_liters (sex inp) (weight_kg inp) (height_cm inp)
               (age_years inp))
  /\ returns (VolumePlanner.make_plan inp)
     = returns (watson_tbw_liters (sex inp) (weight_kg inp) (height_cm inp)
                  (age_years inp)).
Proof.
  rewrite mass_make_plan_eq, volume_make_plan_eq.
  destruct (watson_tbw_liters _ _ _ _); split; reflexivity.
Qed.

Lemma beverage_volumes_table ml :
  VolumePlanner.beverage_volumes VolumePlanner.BEVERAGES ml =
  Ok [ (lit "Beer (5%)", (ml / dec 5 (-2))%flt);
       (lit "Wine (12%)", (ml / dec 12 (-2))%flt);
       (lit "Fortified Wine (18%)", (ml / dec 18 (-2))%flt);
       (lit "Spirits (40%)", (ml / dec 40 (-2))%flt) ].
Proof.
  unfold VolumePlanner.BEVERAGES.
  cbn [VolumePlanner.beverage_volumes VolumePlanner.ethanol_to_beverage_volume].
  rewrite !py_truediv_nonzero by (vm_compute; reflexivity). reflexivity.
Qed.

End Plans.

(** C6. The volume program and the mass program agree on the grams:
    each millilitre field is the gram field of the mass plan divided by
    the density [0.789], and each beverage volume is the ethanol volume
    divided by the ABV of the fixed table (Beer 0.05, Wine 0.12,
    Fortified Wine 0.18, Spirits 0.40), for the total and for the hourly
    maintenance figure alike. *)
Theorem volume_plan_is_mass_plan_over_density
    (inp : Inputs) (pm : MassPlanner.Plan) (pv : VolumePlanner.Plan)
    (Hm : MassPlanner.make_plan inp = Ok pm)
    (Hv : VolumePlanner.make_plan inp = Ok pv) :
  VolumePlanner.ETHANOL_DENSITY = dec 789 (-3)
  /\ VolumePlanner.loading_ml pv
     = (MassPlanner.loading_grams pm / dec 789 (-3))%flt
  /\ VolumePlanner.maintenance_ml_per_h pv
     = (MassPlanner.maintenance_g_per_h pm / dec 789 (-3))%flt
  /\ VolumePlanner.total_ml_for_duration pv
     = (MassPlanner.total_grams_for_duration pm / dec 789 (-3))%flt
  /\ VolumePlanner.total_volumes pv
     = Ok [ (lit "Beer (5%)",
             (VolumePlanner.total_ml_for_duration pv / dec 5 (-2))%flt);
            (lit "Wine (12%)",
             (VolumePlanner.total_ml_for_duration pv / dec 12 (-2))%flt);
            (lit "Fortified Wine (18%)",
             (VolumePlanner.total_ml_for_duration pv / dec 18 (-2))%flt);
            (lit "Spirits (40%)",
             (VolumePlanner.total_ml_for_duration pv / dec 40 (-2))%flt) ]
  /\ VolumePlanner.per_hour_volumes pv
     = Ok [ (lit "Beer (5%)",
             (VolumePlanner.maintenance_ml_per_h pv / dec 5 (-2))%flt);
            (lit "Wine (12%)",
             (VolumePlanner.maintenance_ml_per_h pv / dec 12 (-2))%flt);
            (lit "Fortified Wine (18%)",
             (VolumePlanner.maintenance_ml_per_h pv / dec 18 (-2))%flt);
            (lit "Spirits (40%)",
             (VolumePlanner.maintenance_ml_per_h pv / dec 40 (-2))%flt) ].
Proof.
  rewrite mass_make_plan_eq in Hm. rewrite volume_make_plan_eq in Hv.
  destruct (watson_tbw_liters _ _ _ _) as [t|e]; cbn [bind] in *;
    [|discriminate].
  injection Hm as <-. injection Hv as <-.
  cbn [VolumePlanner.loading_ml VolumePlanner.maintenance_ml_per_h
       VolumePlanner.total_ml_for_duration MassPlanner.loading_grams
       MassPlanner.maintenance_g_per_h MassPlanner.total_grams_for_duration].
  unfold VolumePlanner.total_volumes, VolumePlanner.per_hour_volumes.
  rewrite !beverage_volumes_table.
  repeat split; reflexivity.
Qed.

Lemma volume_plan_is_mass_plan_over_density_witness :
  exists pm pv,
    MassPlanner.make_plan scenario = Ok pm
    /\ VolumePlanner.make_plan scenario = Ok pv
    /\ VolumePlanner.total_ml_for_duration pv
       = (MassPlanner.total_grams_for_duration pm / dec 789 (-3))%flt.
Proof.
  destruct (MassPlanner.make_plan scenario) as [pm|] eqn:Em;
    [|vm_compute in Em; discriminate].
  destruct (VolumePlanner.make_plan scenario) as [pv|] eqn:Ev;
    [|vm_compute in Ev; discriminate].
  exists pm, pv. split; [reflexivity|]. split; [reflexivity|].
  apply (volume_plan_is_mass_plan_over_density scenario pm pv Em Ev).
Defined.

(** C8. On the scenario of the specification the mass program returns
    [tbw_L = 45.8202] and [tbw_dL = 458.202] (these very doubles);
    [loading_grams = 0.08 * 458.202], [maintenance_g_per_h
    = 0.015 * 458.202] and [total = loading + maintenance * 3], which
    are 36.656, 6.873 and 57.275 to the three decimals printed; and
    4.77 and 4.09 standard drinks to two decimals. *)
Theorem scenario_figures :
  exists p, MassPlanner.make_plan scenario = Ok p
  /\ target_bac scenario = dec 8 (-2) /\ parse_bac (lit "0.08") = Ok (dec 8 (-2))
  /\ beta scenario = dec 15 (-3)
  /\ MassPlanner.tbw_L p = dec 458202 (-4)
  /\ MassPlanner.tbw_dL p = dec 458202 (-3)
  /\ MassPlanner.loading_grams p = (dec 8 (-2) * dec 458202 (-3))%flt
  /\ close_to (MassPlanner.loading_grams p) 36.656 0.0005 = true
  /\ MassPlanner.maintenance_g_per_h p = (dec 15 (-3) * dec 458202 (-3))%flt
  /\ close_to (MassPlanner.maintenance_g_per_h p) 6.873 0.0005 = true
  /\ MassPlanner.total_grams_for_duration p
     = (MassPlanner.loading_grams p
        + MassPlanner.maintenance_g_per_h p * dec 3 0)%flt
  /\ close_to (MassPlanner.total_grams_for_duration p) 57.275 0.0005 = true
  /\ close_to (MassPlanner.std_drinks_12g p) 4.77 0.005 = true
  /\ close_to (MassPlanner.std_drinks_14g p) 4.09 0.005 = true.
Proof.
  destruct (MassPlanner.make_plan scenario) as [p|] eqn:E;
    [|vm_compute in E; discriminate].
  exists p. split; [reflexivity|].
  vm_compute in E. injection E as <-.
  repeat split; vm_compute; reflexivity.
Qed.

(* ================================================================== *)
(** ** Conversions that can fail *)

Section Conversions.

Lemma float_of_int_finite a f :
  float_of_int a = Ok f -> is_finite f = true /\ in_range f.
Proof.
  unfold float_of_int. pose proof (round64_in_range false (inject_Z a)) as R.
  destruct (round64 false (inject_Z a)) as [s|s| |s m e];
    try discriminate; try contradiction; intros E; injection E as <-;
    split; try reflexivity; exact R.
Qed.

(** [int -> float] succeeds exactly below [2^1024 - 2^970], the midpoint
    between the largest double and [2^1024]. *)
Lemma float_of_int_ok a :
  (Z.abs a < int_float_limit)%Z -> exists f, float_of_int a = Ok f.
Proof.
  intros Ha.
  destruct (round64_between false (inject_Z a)
              (inject_Z (- (int_float_limit - 1)))
              (inject_Z (int_float_limit - 1))) as [F _].
  - vm_compute. reflexivity.
  - vm_compute. reflexivity.
  - rewrite <- !Zle_Qle. lia.
  - unfold float_of_int.
    destruct (round64 false (inject_Z a)); try discriminate; eauto.
Qed.

Lemma fleb_from_pinf y : fleb (S754_infinity false) y = true -> y = S754_infinity false.
Proof. destruct y as [s|[]| |s m e]; try discriminate; reflexivity. Qed.

Lemma fleb_to_ninf x : fleb x (S754_infinity true) = true -> x = S754_infinity true.
Proof. destruct x as [s|[]| |s m e]; try discriminate; reflexivity. Qed.

Lemma float_of_int_overflow a :
  (int_float_limit <= Z.abs a)%Z -> float_of_int a = Raise OverflowError.
Proof.
  intros Ha. unfold float_of_int.
  destruct (Z_le_gt_dec 0 a) as [Hpos|Hneg].
  - assert (H : fleb (round64 false (inject_Z int_float_limit))
                     (round64 false (inject_Z a)) = true).
    { apply round64_mono. rewrite <- Zle_Qle. lia. }
    replace (round64 false (inject_Z int_float_limit))
      with (S754_infinity false) in H by (vm_compute; reflexivity).
    rewrite (fleb_from_pinf _ H). reflexivity.
  - assert (H : fleb (round64 false (inject_Z a))
                     (round64 false (inject_Z (- int_float_limit))) = true).
    { apply round64_mono. rewrite <- Zle_Qle. lia. }
    replace (round64 false (inject_Z (- int_float_limit)))
      with (S754_infinity true) in H by (vm_compute; reflexivity).
    rewrite (fleb_to_ninf _ H). reflexivity.
Qed.

Lemma watson_male w h a :
  watson_tbw_liters (lit "male") w h a =
  (age <- float_of_int a ;;
   Ok (dec 2447 (-3) - dec 9516 (-5) * age + dec 1074 (-4) * h
       + dec 3362 (-4) * w)%flt).
Proof.
  unfold watson_tbw_liters.
  replace (str_eqb (lit "male") (lit "male")) with true
    by (vm_compute; reflexivity).
  reflexivity.
Qed.

Lemma watson_not_male s w h a :
  s <> lit "male" ->
  watson_tbw_liters s w h a =
  Ok (- dec 2097 (-3) + dec 1069 (-4) * h + dec 2466 (-4) * w)%flt.
Proof.
  intros H. unfold watson_tbw_liters.
  apply str_eqb_neq in H. rewrite H. reflexivity.
Qed.

End Conversions.

(* ================================================================== *)
(** ** Ranges and rounding errors through the operations *)

Section Propagation.

Lemma fdiv_round x y :
  is_finite x = true -> is_finite y = true -> is_zero y = false ->
  exists s, fdiv x y = round64 s (val x / val y).
Proof.
  destruct x as [sx|sx| |sx mx ex], y as [sy|sy| |sy my ey];
    try discriminate; intros _ _ _; exists (xorb sx sy);
    try reflexivity; cbn [fdiv]; symmetry; apply round64_zero;
    cbn [val]; unfold Qdiv; ring.
Qed.

Lemma round64_between_pow s q a b :
  (-1022 <= a)%Z -> (b <= 1023)%Z -> pow2 a <= q -> q <= pow2 b ->
  between (round64 s q) (a - 1) (b + 1) /\ rounds (round64 s q) q.
Proof.
  intros Ha Hb L U.
  assert (L' : pow2 (-1022) <= q)
    by (eapply Qle_trans; [apply pow2_le; exact Ha | exact L]).
  assert (U' : q <= pow2 1023)
    by (eapply Qle_trans; [exact U | apply pow2_le; exact Hb]).
  destruct (round64_relative s q L' U') as [F [A B]].
  assert (Ea : pow2 a == 2 * pow2 (a - 1)).
  { replace a with (1 + (a - 1))%Z at 1 by ring. rewrite pow2_add. reflexivity. }
  assert (Eb : pow2 (b + 1) == 2 * pow2 b).
  { rewrite Z.add_comm, pow2_add. reflexivity. }
  assert (Pa : 0 < pow2 (a - 1)) by apply pow2_pos.
  assert (Pb : 0 < pow2 b) by apply pow2_pos.
  unfold between, rounds. rewrite Eb.
  replace (pow2 (-53)) with (1 # 9007199254740992) in *
    by (vm_compute; reflexivity).
  generalize dependent (pow2 a). generalize dependent (pow2 (a - 1)).
  generalize dependent (pow2 b).
  generalize dependent (val (round64 s q)). intros.
  repeat split; try assumption; lra.
Qed.

Lemma fmul_between x y a1 b1 a2 b2 :
  between x a1 b1 -> between y a2 b2 ->
  (-1022 <= a1 + a2)%Z -> (b1 + b2 <= 1023)%Z ->
  between (fmul x y) (a1 + a2 - 1) (b1 + b2 + 1)
  /\ rounds (fmul x y) (val x * val y).
Proof.
  intros [Fx [Lx Ux]] [Fy [Ly Uy]] Ha Hb.
  destruct (fmul_round x y Fx Fy) as [s ->].
  assert (P1 : 0 <= pow2 a1) by apply Qlt_le_weak, pow2_pos.
  assert (P2 : 0 <= pow2 a2) by apply Qlt_le_weak, pow2_pos.
  apply round64_between_pow; try assumption.
  - rewrite pow2_add. apply Qmult_le_compat_nonneg; split; assumption.
  - rewrite pow2_add. apply Qmult_le_compat_nonneg; split;
      try assumption;
      [exact (Qle_trans _ _ _ P1 Lx) | exact (Qle_trans _ _ _ P2 Ly)].
Qed.

Lemma fadd_between x y a1 b1 a2 b2 :
  between x a1 b1 -> between y a2 b2 ->
  (-1022 <= a1)%Z -> (Z.max b1 b2 + 1 <= 1023)%Z ->
  between (fadd x y) (a1 - 1) (Z.max b1 b2 + 2)
  /\ rounds (fadd x y) (val x + val y).
Proof.
  intros [Fx [Lx Ux]] [Fy [Ly Uy]] Ha Hb.
  destruct (fadd_round x y Fx Fy) as [s ->].
  replace (Z.max b1 b2 + 2)%Z with (Z.max b1 b2 + 1 + 1)%Z by ring.
  assert (P2 : 0 < pow2 a2) by apply pow2_pos.
  assert (M1 : pow2 b1 <= pow2 (Z.max b1 b2)) by (apply pow2_le; lia).
  assert (M2 : pow2 b2 <= pow2 (Z.max b1 b2)) by (apply pow2_le; lia).
  assert (E : pow2 (Z.max b1 b2 + 1) == 2 * pow2 (Z.max b1 b2)).
  { rewrite Z.add_comm, pow2_add. reflexivity. }
  apply round64_between_pow; try assumption.
  - generalize dependent (pow2 a1). generalize dependent (pow2 a2).
    intros. lra.
  - rewrite E. generalize dependent (pow2 (Z.max b1 b2)).
    generalize dependent (pow2 b1). generalize dependent (pow2 b2).
    intros. lra.
Qed.

(** Division by the density [0.789], which lies between [1/2] and [1]. *)
Lemma fdiv_density_between x a b :
  between x a b -> (-1022 <= a)%Z -> (b + 1 <= 1023)%Z ->
  between (fdiv x VolumePlanner.ETHANOL_DENSITY) (a - 1) (b + 2)
  /\ rounds (fdiv x VolumePlanner.ETHANOL_DENSITY)
            (val x / val VolumePlanner.ETHANOL_DENSITY).
Proof.
  intros [Fx [Lx Ux]] Ha Hb.
  destruct (fdiv_round x VolumePlanner.ETHANOL_DENSITY Fx eq_refl eq_refl)
    as [s ->].
  replace (b + 2)%Z with (b + 1 + 1)%Z by ring.
  assert (E : pow2 (b + 1) == 2 * pow2 b).
  { rewrite Z.add_comm, pow2_add. reflexivity. }
  assert (Pa : 0 < pow2 a) by apply pow2_pos.
  apply round64_between_pow; try assumption.
  - inv_const VolumePlanner.ETHANOL_DENSITY.
    generalize dependent (pow2 a). intros. lra.
  - rewrite E.
    inv_const VolumePlanner.ETHANOL_DENSITY.
    generalize dependent (pow2 b). generalize dependent (pow2 a).
    intros. lra.
Qed.

End Propagation.

Section VolumeSum.

(** The millilitre total and the sum of the millilitre parts are two
    roundings of one quantity: for positive operands of moderate size
    they differ by at most [2^-50] of the total. *)
Lemma volume_sum_close l m d :
  between l (-500) 500 -> between m (-500) 500 -> between d (-500) 500 ->
  let D := VolumePlanner.ETHANOL_DENSITY in
  let T := ((l + m * d) / D)%flt in
  let R := (l / D + m / D * d)%flt in
  is_finite T = true /\ is_finite R = true
  /\ Qabs (val T - val R) <= pow2 (-50) * val T.
Proof.
  intros Bl Bm Bd D T R.
  destruct (fmul_between m d _ _ _ _ Bm Bd ltac:(lia) ltac:(lia))
    as [Bx1 Rx1].
  destruct (fadd_between l (m * d)%flt _ _ _ _ Bl Bx1 ltac:(lia) ltac:(lia))
    as [Bg Rg].
  destruct (fdiv_density_between (l + m * d)%flt _ _ Bg ltac:(lia) ltac:(lia))
    as [BT RT].
  destruct (fdiv_density_between l _ _ Bl ltac:(lia) ltac:(lia)) as [BL RL].
  destruct (fdiv_density_between m _ _ Bm ltac:(lia) ltac:(lia)) as [BM RM].
  destruct (fmul_between (m / D)%flt d _ _ _ _ BM Bd ltac:(lia) ltac:(lia))
    as [Bx2 Rx2].
  destruct (fadd_between (l / D)%flt (m / D * d)%flt _ _ _ _ BL Bx2
              ltac:(lia) ltac:(lia)) as [BR RR].
  split; [apply BT|]. split; [apply BR|].
  apply Qabs_Qle_condition.
  fold D in RT, RL, RM, Rx2, RR. fold T in RT. fold R in RR.
  destruct Bl as [_ [Ll _]], Bm as [_ [Lm _]], Bd as [_ [Ld _]].
  assert (Pl : 0 < val l) by (eapply Qlt_le_trans; [apply pow2_pos | exact Ll]).
  assert (Pm : 0 < val m) by (eapply Qlt_le_trans; [apply pow2_pos | exact Lm]).
  assert (Pd : 0 < val d) by (eapply Qlt_le_trans; [apply pow2_pos | exact Ld]).
  assert (PP : 0 < val m * val d) by (apply Qmult_lt_0_compat; assumption).
  unfold rounds in *.
  destruct RM as [RM1 RM2].
  apply (Qmult_le_compat_r _ _ (val d)) in RM1; [|apply Qlt_le_weak, Pd].
  apply (Qmult_le_compat_r _ _ (val d)) in RM2; [|apply Qlt_le_weak, Pd].
  unfold Qdiv in *.
  let v := eval vm_compute in (/ val D) in
    replace (/ val D) with v in * by (vm_compute; reflexivity);
    set (c := v) in *.
  replace (pow2 (-53)) with (1 # 9007199254740992) in *
    by (vm_compute; reflexivity).
  replace (pow2 (-50)) with (1 # 1125899906842624)
    by (vm_compute; reflexivity).
  assert (E1 : val m * c * (1 - (1 # 9007199254740992)) * val d
               == val m * val d * c * (1 - (1 # 9007199254740992))) by ring.
  assert (E2 : val m * c * (1 + (1 # 9007199254740992)) * val d
               == val m * val d * c * (1 + (1 # 9007199254740992))) by ring.
  rewrite E1 in RM1. rewrite E2 in RM2. clear E1 E2.
  generalize dependent (val (m / D)%flt * val d). intros Q.
  generalize dependent (val m * val d). intros P.
  generalize dependent (val (m * d)%flt). intros x1.
  generalize dependent (val (l + m * d)%flt). intros g.
  generalize dependent (val (l / D)%flt). intros vL.
  generalize dependent (val (m / D * d)%flt). intros x2.
  generalize dependent (val T). generalize dependent (val R).
  generalize dependent (val l). intros vl.
  intros. subst c. split; lra.
Qed.

End VolumeSum.

(* ================================================================== *)
(** ** Claims the code answers differently *)

Lemma feqb_refl x : is_nan x = false -> feqb x x = true.
Proof.
  destruct x as [s|[]| |s m e]; try discriminate; intros _; try reflexivity;
    unfold feqb, fcompare;
    match goal with |- context [Qcompare ?a ?a] =>
      destruct (Qcompare_spec a a) as [H|H|H]; [reflexivity | lra | lra] end.
Qed.

(** C3, as stated, fails on the volume program: for 95 kg, 160 cm,
    30 years, 18 hours and a target of 0.03 the stored
    [total_ml_for_duration] and [loading_ml + maintenance_ml_per_h * 18]
    are different doubles, further apart than the machine epsilon
    allows. *)
Lemma volume_total_differs_from_sum :
  exists pv, VolumePlanner.make_plan long_session = Ok pv
  /\ feqb (VolumePlanner.total_ml_for_duration pv)
          (VolumePlanner.loading_ml pv
           + VolumePlanner.maintenance_ml_per_h pv
             * duration_hours long_session)%flt = false
  /\ beyond_epsilon (VolumePlanner.total_ml_for_duration pv)
          (VolumePlanner.loading_ml pv
           + VolumePlanner.maintenance_ml_per_h pv
             * duration_hours long_session)%flt = true.
Proof.
  destruct (VolumePlanner.make_plan long_session) as [pv|] eqn:E;
    [|vm_compute in E; discriminate].
  exists pv. split; [reflexivity|].
  vm_compute in E. injection E as <-.
  split; vm_compute; reflexivity.
Qed.

(** C3, amended.  In the mass program [total_grams_for_duration] is the
    double [loading_grams + maintenance_g_per_h * duration_hours], bit
    for bit (and [==] holds whenever it is not a NaN).  In the volume
    program each millilitre field is a gram quantity divided by [0.789]:
    [total_ml_for_duration] is [(loading_grams + maintenance_g_per_h
    * duration_hours) / 0.789], not the sum of the two other millilitre
    fields; when the loading grams, the maintenance grams and the
    duration are positive and of moderate size (between [2^-500] and
    [2^500]) it differs from [loading_ml + maintenance_ml_per_h
    * duration_hours] by at most [2^-50] of itself. *)
Theorem plan_total_identity
    (inp : Inputs) (pm : MassPlanner.Plan) (pv : VolumePlanner.Plan)
    (Hm : MassPlanner.make_plan inp = Ok pm)
    (Hv : VolumePlanner.make_plan inp = Ok pv) :
  MassPlanner.total_grams_for_duration pm
  = (MassPlanner.loading_grams pm
     + MassPlanner.maintenance_g_per_h pm * duration_hours inp)%flt
  /\ (is_nan (MassPlanner.total_grams_for_duration pm) = false ->
      feqb (MassPlanner.total_grams_for_duration pm)
           (MassPlanner.loading_grams pm
            + MassPlanner.maintenance_g_per_h pm * duration_hours inp)%flt
      = true)
  /\ VolumePlanner.total_ml_for_duration pv
     = ((MassPlanner.loading_grams pm
         + MassPlanner.maintenance_g_per_h pm * duration_hours inp)
        / VolumePlanner.ETHANOL_DENSITY)%flt
  /\ VolumePlanner.loading_ml pv
     = (MassPlanner.loading_grams pm / VolumePlanner.ETHANOL_DENSITY)%flt
  /\ VolumePlanner.maintenance_ml_per_h pv
     = (MassPlanner.maintenance_g_per_h pm
        / VolumePlanner.ETHANOL_DENSITY)%flt
  /\ (between (MassPlanner.loading_grams pm) (-500) 500 ->
      between (MassPlanner.maintenance_g_per_h pm) (-500) 500 ->
      between (duration_hours inp) (-500) 500 ->
      is_finite (VolumePlanner.total_ml_for_duration pv) = true
      /\ is_finite (VolumePlanner.loading_ml pv
                    + VolumePlanner.maintenance_ml_per_h pv
                      * duration_hours inp)%flt = true
      /\ Qabs (val (VolumePlanner.total_ml_for_duration pv)
               - val (VolumePlanner.loading_ml pv
                      + VolumePlanner.maintenance_ml_per_h pv
                        * duration_hours inp)%flt)
         <= pow2 (-50) * val (VolumePlanner.total_ml_for_duration pv)).
Proof.
  rewrite mass_make_plan_eq in Hm. rewrite volume_make_plan_eq in Hv.
  destruct (watson_tbw_liters _ _ _ _) as [t|e]; cbn [bind] in *;
    [|discriminate].
  injection Hm as <-. injection Hv as <-.
  cbn [VolumePlanner.loading_ml VolumePlanner.maintenance_ml_per_h
       VolumePlanner.total_ml_for_duration MassPlanner.loading_grams
       MassPlanner.maintenance_g_per_h MassPlanner.total_grams_for_duration].
  split; [reflexivity|]. split; [apply feqb_refl|].
  split; [reflexivity|]. split; [reflexivity|]. split; [reflexivity|].
  intros Bl Bm Bd. exact (volume_sum_close _ _ _ Bl Bm Bd).
Qed.

Lemma plan_total_identity_witness :
  exists pm pv,
    MassPlanner.make_plan long_session = Ok pm
    /\ VolumePlanner.make_plan long_session = Ok pv
    /\ MassPlanner.total_grams_for_duration pm
       = (MassPlanner.loading_grams pm
          + MassPlanner.maintenance_g_per_h pm
            * duration_hours long_session)%flt
    /\ Qabs (val (VolumePlanner.total_ml_for_duration pv)
             - val (VolumePlanner.loading_ml pv
                    + VolumePlanner.maintenance_ml_per_h pv
                      * duration_hours long_session)%flt)
       <= pow2 (-50) * val (VolumePlanner.total_ml_for_duration pv).
Proof.
  destruct (MassPlanner.make_plan long_session) as [pm|] eqn:Em;
    [|vm_compute in Em; discriminate].
  destruct (VolumePlanner.make_plan long_session) as [pv|] eqn:Ev;
    [|vm_compute in Ev; discriminate].
  exists pm, pv. split; [reflexivity|]. split; [reflexivity|].
  destruct (plan_total_identity long_session pm pv Em Ev)
    as [H1 [_ [_ [_ [_ H2]]]]].
  split; [exact H1|]. apply H2.
  - vm_compute in Em. injection Em as <-.
    split; [reflexivity|]. split; apply Qle_bool_iff; vm_compute; reflexivity.
  - vm_compute in Em. injection Em as <-.
    split; [reflexivity|]. split; apply Qle_bool_iff; vm_compute; reflexivity.
  - split; [reflexivity|]. split; apply Qle_bool_iff; vm_compute; reflexivity.
Defined.

(** C5, as stated, fails: with sex "male" and the integer age [2^1024]
    the product [0.09516 * age_years] raises [OverflowError], in
    [watson_tbw_liters] and so in both [make_plan]. *)
Lemma huge_age_raises :
  watson_tbw_liters (lit "male") (dec 80 0) (dec 180 0) (2 ^ 1024)
  = Raise OverflowError
  /\ MassPlanner.make_plan
       (Inputs_default (lit "male") (dec 80 0) (dec 180 0) (2 ^ 1024)
          (dec 3 0) (dec 8 (-2))) = Raise OverflowError
  /\ VolumePlanner.make_plan
       (Inputs_default (lit "male") (dec 80 0) (dec 180 0) (2 ^ 1024)
          (dec 3 0) (dec 8 (-2))) = Raise OverflowError.
Proof. repeat split; vm_compute; reflexivity. Qed.

(** C5, amended.  On plain text [parse_bac] raises exactly when [float]
    rejects the remainder left by the suffix scan, and then it is the
    one parse error ([ValueError]); "abc%" is such an input.
    [watson_tbw_liters] and both [make_plan] return a value for all
    float arguments whenever the sex is not "male" or the integer age is
    below [2^1024 - 2^970] in magnitude; for "male" and any age at or
    beyond that they raise [OverflowError]. *)
Theorem core_failure_modes (text : str) (inp : Inputs) :
  (plain_text text ->
   (forall e, parse_bac text = Raise e
              <-> float_of_str (bac_remainder text) = Raise e)
   /\ (forall e, parse_bac text = Raise e -> e = Spec.ParseError))
  /\ parse_bac (lit "abc%") = Raise Spec.ParseError
  /\ (sex inp <> lit "male"
      \/ (Z.abs (age_years inp) < int_float_limit)%Z ->
      returns (watson_tbw_liters (sex inp) (weight_kg inp) (height_cm inp)
                 (age_years inp)) = true
      /\ returns (MassPlanner.make_plan inp) = true
      /\ returns (VolumePlanner.make_plan inp) = true)
  /\ (sex inp = lit "male" ->
      (int_float_limit <= Z.abs (age_years inp))%Z ->
      watson_tbw_liters (sex inp) (weight_kg inp) (height_cm inp)
        (age_years inp) = Raise OverflowError
      /\ MassPlanner.make_plan inp = Raise OverflowError
      /\ VolumePlanner.make_plan inp = Raise OverflowError).
Proof.
  assert (P : forall e, parse_bac text = Raise e
                        <-> float_of_str (bac_remainder text) = Raise e).
  { intros e. rewrite parse_bac_unfold.
    destruct (float_of_str _); cbn [bind]; split; intro H;
      try discriminate; exact H. }
  split.
  { intros _. split; [exact P|].
    intros e H. apply P in H. exact (float_of_str_error _ _ H). }
  split; [vm_compute; reflexivity|].
  split.
  - intros H. destruct (make_plan_returns inp) as [-> ->].
    assert (K : returns (watson_tbw_liters (sex inp) (weight_kg inp)
                           (height_cm inp) (age_years inp)) = true).
    { destruct H as [H|H].
      - rewrite watson_not_male by exact H. reflexivity.
      - destruct (str_eqb (sex inp) (lit "male")) eqn:E.
        + apply str_eqb_eq in E. rewrite E, watson_male.
          destruct (float_of_int_ok _ H) as [f ->]. reflexivity.
        + apply str_eqb_neq in E. rewrite watson_not_male by exact E.
          reflexivity. }
    rewrite K. repeat split.
  - intros Hs Ha. rewrite mass_make_plan_eq, volume_make_plan_eq.
    rewrite Hs, watson_male, (float_of_int_overflow _ Ha).
    repeat split.
Qed.

Lemma core_failure_modes_witness :
  (forall e, parse_bac (lit "abc%") = Raise e
             <-> float_of_str (bac_remainder (lit "abc%")) = Raise e)
  /\ returns (watson_tbw_liters (sex scenario) (weight_kg scenario)
                (height_cm scenario) (age_years scenario)) = true
  /\ returns (MassPlanner.make_plan scenario) = true
  /\ returns (VolumePlanner.make_plan scenario) = true.
Proof.
  destruct (core_failure_modes (lit "abc%") scenario) as [P [_ [R _]]].
  split; [apply P; vm_compute; reflexivity|].
  apply R. right. vm_compute. reflexivity.
Defined.

(** C9, as stated, fails: the sex "other" is neither "male" nor
    "female", yet [watson_tbw_liters] maps it to the female formula. *)
Lemma unrecognised_sex_takes_female_formula :
  lit "other" <> lit "male" /\ lit "other" <> lit "female"
  /\ watson_tbw_liters (lit "other") (dec 60 0) (dec 165 0) 30
     = Spec.estimate_tbw Spec.Female (dec 60 0) (dec 165 0) 30
  /\ exists t, watson_tbw_liters (lit "other") (dec 60 0) (dec 165 0) 30
               = Ok t.
Proof.
  split; [vm_compute; discriminate|]. split; [vm_compute; discriminate|].
  split; [vm_compute; reflexivity|]. eexists. vm_compute. reflexivity.
Qed.

(** C9, amended.  [watson_tbw_liters] tests [sex == "male"] and nothing
    else: "male" gets the male formula, and every other value, "female"
    and any unrecognised one alike, falls into the [else] branch and
    gets the female formula.  Restricting sex to the two categories is
    left to the [Literal] annotation and the caller. *)
Theorem sex_dispatch_is_male_or_else (s : str) (w h : float) (a : Z) :
  (s = lit "male" ->
   watson_tbw_liters s w h a = Spec.estimate_tbw Spec.Male w h a)
  /\ (s <> lit "male" ->
      watson_tbw_liters s w h a = Spec.estimate_tbw Spec.Female w h a).
Proof.
  split; intros H.
  - rewrite H, watson_male. reflexivity.
  - rewrite watson_not_male by exact H. unfold Spec.estimate_tbw.
    replace (fopp (dec 2097 (-3))) with (dec (-2097) (-3))
      by (vm_compute; reflexivity).
    reflexivity.
Qed.

Lemma sex_dispatch_is_male_or_else_witness :
  watson_tbw_liters (lit "male") (dec 80 0) (dec 180 0) 30
  = Spec.estimate_tbw Spec.Male (dec 80 0) (dec 180 0) 30
  /\ watson_tbw_liters (lit "other") (dec 60 0) (dec 165 0) 30
     = Spec.estimate_tbw Spec.Female (dec 60 0) (dec 165 0) 30.
Proof.
  split.
  - apply (sex_dispatch_is_male_or_else (lit "male")). reflexivity.
  - apply (sex_dispatch_is_male_or_else (lit "other")).
    vm_compute. discriminate.
Defined.

(* ================================================================== *)
(** ** Enclosures of the Watson terms *)

Section Enclosures.

Lemma fmul_within c x lo hi :
  is_finite c = true -> is_finite x = true ->
  representable lo -> representable hi ->
  lo <= val c * val x <= hi ->
  is_finite (fmul c x) = true /\ lo <= val (fmul c x) <= hi.
Proof.
  intros Fc Fx Rlo Rhi H. destruct (fmul_round c x Fc Fx) as [s ->].
  apply round64_within; assumption.
Qed.

Lemma fadd_within x y lo hi :
  is_finite x = true -> is_finite y = true ->
  representable lo -> representable hi ->
  lo <= val x + val y <= hi ->
  is_finite (fadd x y) = true /\ lo <= val (fadd x y) <= hi.
Proof.
  intros Fx Fy Rlo Rhi H. destruct (fadd_round x y Fx Fy) as [s ->].
  apply round64_within; assumption.
Qed.

Lemma fsub_within x y lo hi :
  is_finite x = true -> is_finite y = true ->
  representable lo -> representable hi ->
  lo <= val x - val y <= hi ->
  is_finite (fsub x y) = true /\ lo <= val (fsub x y) <= hi.
Proof.
  intros Fx Fy Rlo Rhi H. destruct (fsub_round x y Fx Fy) as [s [q [-> E]]].
  apply round64_within; try assumption. rewrite E. exact H.
Qed.

Lemma float_of_int_within a lo hi :
  representable (inject_Z lo) -> representable (inject_Z hi) ->
  (lo <= a <= hi)%Z ->
  exists f, float_of_int a = Ok f /\ is_finite f = true
            /\ inject_Z lo <= val f <= inject_Z hi.
Proof.
  intros Rlo Rhi H.
  destruct (round64_within false (inject_Z a) (inject_Z lo) (inject_Z hi))
    as [F B]; try assumption.
  { rewrite <- !Zle_Qle. exact H. }
  unfold float_of_int.
  destruct (round64 false (inject_Z a)) eqn:E; try discriminate; eauto.
Qed.

End Enclosures.

(** Within the bounds of the form the female formula stays in
    [[16, 72]]. *)
Lemma female_tbw_enclosure w h :
  fleb (dec 30 0) w = true -> fleb w (dec 200 0) = true ->
  fleb (dec 120 0) h = true -> fleb h (dec 220 0) = true ->
  let t := (- dec 2097 (-3) + dec 1069 (-4) * h + dec 2466 (-4) * w)%flt in
  is_finite t = true /\ 16 <= val t <= 72.
Proof.
  intros W1 W2 H1 H2.
  destruct (fleb_between (dec 30 0) (dec 200 0) w eq_refl eq_refl W1 W2)
    as [Fw Bw].
  destruct (fleb_between (dec 120 0) (dec 220 0) h eq_refl eq_refl H1 H2)
    as [Fh Bh].
  val_const (dec 30 0). val_const (dec 200 0).
  val_const (dec 120 0). val_const (dec 220 0).
  pose (kh := dec 1069 (-4)). pose (kw := dec 2466 (-4)).
  pose (c := fopp (dec 2097 (-3))).
  assert (Fkh : is_finite kh = true) by reflexivity.
  assert (Fkw : is_finite kw = true) by reflexivity.
  assert (Fc : is_finite c = true) by reflexivity.
  enclose fmul_within kh h Fkh Fh 12 24 Fph Bph.
  enclose fmul_within kw w Fkw Fw 7 50 Fpw Bpw.
  enclose fadd_within c (kh * h)%flt Fc Fph 9 22 Fs Bs.
  cbv zeta.
  enclose fadd_within (c + kh * h)%flt (kw * w)%flt Fs Fpw 16 72 Ft Bt.
  split; assumption.
Qed.

(** Within the bounds of the form the male formula stays in
    [[14, 94]]. *)
Lemma male_tbw_enclosure w h a :
  fleb (dec 30 0) w = true -> fleb w (dec 200 0) = true ->
  fleb (dec 120 0) h = true -> fleb h (dec 220 0) = true ->
  (15 <= a <= 100)%Z ->
  exists age, float_of_int a = Ok age /\
  let t := (dec 2447 (-3) - dec 9516 (-5) * age + dec 1074 (-4) * h
            + dec 3362 (-4) * w)%flt in
  is_finite t = true /\ 14 <= val t <= 94.
Proof.
  intros W1 W2 H1 H2 Ha.
  destruct (fleb_between (dec 30 0) (dec 200 0) w eq_refl eq_refl W1 W2)
    as [Fw Bw].
  destruct (fleb_between (dec 120 0) (dec 220 0) h eq_refl eq_refl H1 H2)
    as [Fh Bh].
  val_const (dec 30 0). val_const (dec 200 0).
  val_const (dec 120 0). val_const (dec 220 0).
  destruct (float_of_int_within a 15 100
              ltac:(representable_by_computation)
              ltac:(representable_by_computation) Ha)
    as [age [Ea [Fa Ba]]].
  exists age. split; [exact Ea|].
  change (inject_Z 15) with 15 in Ba. change (inject_Z 100) with 100 in Ba.
  pose (ka := dec 9516 (-5)). pose (kh := dec 1074 (-4)).
  pose (kw := dec 3362 (-4)). pose (c := dec 2447 (-3)).
  assert (Fka : is_finite ka = true) by reflexivity.
  assert (Fkh : is_finite kh = true) by reflexivity.
  assert (Fkw : is_finite kw = true) by reflexivity.
  assert (Fc : is_finite c = true) by reflexivity.
  enclose fmul_within ka age Fka Fa 1 10 Fpa Bpa.
  enclose fsub_within c (ka * age)%flt Fc Fpa (-8) 2 Fs Bs.
  enclose fmul_within kh h Fkh Fh 12 24 Fph Bph.
  enclose fmul_within kw w Fkw Fw 10 68 Fpw Bpw.
  enclose fadd_within (c - ka * age)%flt (kh * h)%flt Fs Fph 4 26 Fb Bb.
  cbv zeta.
  enclose fadd_within (c - ka * age + kh * h)%flt (kw * w)%flt Fb Fpw
    14 94 Ft Bt.
  split; assumption.
Qed.

(** C7. For "male" and "female" and every weight in [30, 200], height
    in [120, 220] and age in [15, 100], [watson_tbw_liters] returns a
    double strictly above zero; outside these bounds it can return a
    negative one, as for a woman of 1 kg and 1 cm. *)
Theorem tbw_positive_within_form_bounds :
  (forall s w h a,
      is_Sex s ->
      fleb (dec 30 0) w = true -> fleb w (dec 200 0) = true ->
      fleb (dec 120 0) h = true -> fleb h (dec 220 0) = true ->
      (15 <= a <= 100)%Z ->
      exists t, watson_tbw_liters s w h a = Ok t
                /\ fltb (S754_zero false) t = true)
  /\ (exists t,
        watson_tbw_liters (lit "female") (dec 1 0) (dec 1 0) 30 = Ok t
        /\ fltb t (S754_zero false) = true).
Proof.
  split.
  - intros s w h a [-> | ->] W1 W2 H1 H2 Ha.
    + rewrite watson_male.
      destruct (male_tbw_enclosure w h a W1 W2 H1 H2 Ha) as [age [-> [F B]]].
      cbn [bind]. eexists. split; [reflexivity|].
      apply fltb_val; [reflexivity | exact F |].
      change (val (S754_zero false)) with 0. lra.
    + rewrite watson_not_male by (vm_compute; discriminate).
      destruct (female_tbw_enclosure w h W1 W2 H1 H2) as [F B].
      eexists. split; [reflexivity|].
      apply fltb_val; [reflexivity | exact F |].
      change (val (S754_zero false)) with 0. lra.
  - eexists. split; vm_compute; reflexivity.
Qed.

Lemma tbw_positive_within_form_bounds_witness :
  exists t, watson_tbw_liters (lit "male") (dec 80 0) (dec 180 0) 30 = Ok t
            /\ fltb (S754_zero false) t = true.
Proof.
  destruct tbw_positive_within_form_bounds as [H _].
  apply (H (lit "male") (dec 80 0) (dec 180 0) 30%Z).
  - left. reflexivity.
  - vm_compute. reflexivity.
  - vm_compute. reflexivity.
  - vm_compute. reflexivity.
  - vm_compute. reflexivity.
  - lia.
Defined.

(* ================================================================== *)
(** ** Monotonicity of the Watson formula in doubles *)

Section Monotone.

Lemma fmul_mono c x y :
  is_finite c = true -> is_finite x = true -> is_finite y = true ->
  val c * val x <= val c * val y ->
  fleb (fmul c x) (fmul c y) = true.
Proof.
  intros Fc Fx Fy H.
  destruct (fmul_round c x Fc Fx) as [s1 ->].
  destruct (fmul_round c y Fc Fy) as [s2 ->].
  apply round64_mono, H.
Qed.

Lemma fadd_mono x1 y1 x2 y2 :
  is_finite x1 = true -> is_finite y1 = true ->
  is_finite x2 = true -> is_finite y2 = true ->
  val x1 + val y1 <= val x2 + val y2 ->
  fleb (fadd x1 y1) (fadd x2 y2) = true.
Proof.
  intros F1 G1 F2 G2 H.
  destruct (fadd_round x1 y1 F1 G1) as [s1 ->].
  destruct (fadd_round x2 y2 F2 G2) as [s2 ->].
  apply round64_mono, H.
Qed.

Lemma fsub_mono x1 y1 x2 y2 :
  is_finite x1 = true -> is_finite y1 = true ->
  is_finite x2 = true -> is_finite y2 = true ->
  val x1 - val y1 <= val x2 - val y2 ->
  fleb (fsub x1 y1) (fsub x2 y2) = true.
Proof.
  intros F1 G1 F2 G2 H.
  destruct (fsub_round x1 y1 F1 G1) as [s1 [q1 [-> E1]]].
  destruct (fsub_round x2 y2 F2 G2) as [s2 [q2 [-> E2]]].
  apply round64_mono. rewrite E1, E2. exact H.
Qed.

Lemma double_bounds x :
  double x ->
  is_finite x = true
  /\ - (8 * pow2 1021) < val x /\ val x < 8 * pow2 1021.
Proof.
  intros [F V]. split; [exact F|].
  assert (E : pow2 emax == 8 * pow2 1021) by (vm_compute; reflexivity).
  rewrite <- E. apply finite_in_range; [exact F|].
  apply valid_in_range; [exact V|]. destruct x; try discriminate; reflexivity.
Qed.

Lemma float_of_int_bounds a f :
  float_of_int a = Ok f ->
  is_finite f = true
  /\ - (8 * pow2 1021) < val f /\ val f < 8 * pow2 1021.
Proof.
  intros H. destruct (float_of_int_finite a f H) as [F R].
  split; [exact F|].
  assert (E : pow2 emax == 8 * pow2 1021) by (vm_compute; reflexivity).
  rewrite <- E. apply finite_in_range; assumption.
Qed.

Lemma representable_U : representable (pow2 1021).
Proof. representable_by_computation. Qed.
Lemma representable_mU : representable (- pow2 1021).
Proof. representable_by_computation. Qed.
Lemma representable_2U : representable (2 * pow2 1021).
Proof. representable_by_computation. Qed.
Lemma representable_m2U : representable (- (2 * pow2 1021)).
Proof. representable_by_computation. Qed.
Lemma representable_3U : representable (3 * pow2 1021).
Proof. representable_by_computation. Qed.
Lemma representable_m3U : representable (- (3 * pow2 1021)).
Proof. representable_by_computation. Qed.
Lemma representable_4U : representable (4 * pow2 1021).
Proof. representable_by_computation. Qed.
Lemma representable_m4U : representable (- (4 * pow2 1021)).
Proof. representable_by_computation. Qed.

Lemma U_large : 1000 <= pow2 1021.
Proof. apply Qle_bool_iff. vm_compute. reflexivity. Qed.

(** The terms of the female formula are finite for all finite doubles. *)
Lemma female_terms_finite w h :
  double w -> double h ->
  is_finite (dec 1069 (-4) * h)%flt = true
  /\ is_finite (dec 2466 (-4) * w)%flt = true
  /\ is_finite (- dec 2097 (-3) + dec 1069 (-4) * h)%flt = true.
Proof.
  intros Dw Dh.
  destruct (double_bounds w Dw) as [Fw Bw].
  destruct (double_bounds h Dh) as [Fh Bh].
  pose proof U_large as HU.
  pose (kh := dec 1069 (-4)). pose (kw := dec 2466 (-4)).
  pose (c := fopp (dec 2097 (-3))).
  assert (Fkh : is_finite kh = true) by reflexivity.
  assert (Fkw : is_finite kw = true) by reflexivity.
  assert (Fc : is_finite c = true) by reflexivity.
  enclose_big fmul_within kh h Fkh Fh (- pow2 1021) (pow2 1021)
    representable_mU representable_U Fph Bph.
  enclose_big fmul_within kw w Fkw Fw (- (2 * pow2 1021)) (2 * pow2 1021)
    representable_m2U representable_2U Fpw Bpw.
  enclose_big fadd_within c (kh * h)%flt Fc Fph
    (- (2 * pow2 1021)) (2 * pow2 1021)
    representable_m2U representable_2U Fs Bs.
  repeat split; assumption.
Qed.

(** The terms of the male formula are finite for all finite doubles and
    every age that converts. *)
Lemma male_terms_finite w h a age :
  double w -> double h -> float_of_int a = Ok age ->
  is_finite age = true
  /\ is_finite (dec 9516 (-5) * age)%flt = true
  /\ is_finite (dec 2447 (-3) - dec 9516 (-5) * age)%flt = true
  /\ is_finite (dec 1074 (-4) * h)%flt = true
  /\ is_finite (dec 2447 (-3) - dec 9516 (-5) * age
                + dec 1074 (-4) * h)%flt = true
  /\ is_finite (dec 3362 (-4) * w)%flt = true.
Proof.
  intros Dw Dh Ea.
  destruct (double_bounds w Dw) as [Fw Bw].
  destruct (double_bounds h Dh) as [Fh Bh].
  destruct (float_of_int_bounds a age Ea) as [Fa Ba].
  pose proof U_large as HU.
  pose (ka := dec 9516 (-5)). pose (kh := dec 1074 (-4)).
  pose (kw := dec 3362 (-4)). pose (c := dec 2447 (-3)).
  assert (Fka : is_finite ka = true) by reflexivity.
  assert (Fkh : is_finite kh = true) by reflexivity.
  assert (Fkw : is_finite kw = true) by reflexivity.
  assert (Fc : is_finite c = true) by reflexivity.
  enclose_big fmul_within ka age Fka Fa (- pow2 1021) (pow2 1021)
    representable_mU representable_U Fpa Bpa.
  enclose_big fsub_within c (ka * age)%flt Fc Fpa
    (- (2 * pow2 1021)) (2 * pow2 1021)
    representable_m2U representable_2U Fs Bs.
  enclose_big fmul_within kh h Fkh Fh (- pow2 1021) (pow2 1021)
    representable_mU representable_U Fph Bph.
  enclose_big fadd_within (c - ka * age)%flt (kh * h)%flt Fs Fph
    (- (3 * pow2 1021)) (3 * pow2 1021)
    representable_m3U representable_3U Fb Bb.
  enclose_big fmul_within kw w Fkw Fw (- (4 * pow2 1021)) (4 * pow2 1021)
    representable_m4U representable_4U Fpw Bpw.
  repeat split; assumption.
Qed.


Lemma float_of_int_round a f :
  float_of_int a = Ok f -> f = round64 false (inject_Z a).
Proof.
  unfold float_of_int. destruct (round64 false (inject_Z a));
    try discriminate; intros E; injection E as <-; reflexivity.
Qed.

Lemma val_le_of_fleb x y :
  is_finite x = true -> is_finite y = true -> fleb x y = true ->
  val x <= val y.
Proof. intros Fx Fy H. apply (fleb_val x y Fx Fy), H. Qed.

Lemma female_weight_monotone w1 w2 h :
  double w1 -> double w2 -> double h -> fleb w1 w2 = true ->
  fleb (- dec 2097 (-3) + dec 1069 (-4) * h + dec 2466 (-4) * w1)%flt
       (- dec 2097 (-3) + dec 1069 (-4) * h + dec 2466 (-4) * w2)%flt
  = true.
Proof.
  intros D1 D2 Dh Hw.
  destruct (female_terms_finite w1 h D1 Dh) as [Fph [Fp1 Fs]].
  destruct (female_terms_finite w2 h D2 Dh) as [_ [Fp2 _]].
  pose proof (val_le_of_fleb w1 w2 (proj1 D1) (proj1 D2) Hw) as Vw.
  assert (Hp : fleb (dec 2466 (-4) * w1)%flt (dec 2466 (-4) * w2)%flt = true).
  { apply fmul_mono; try reflexivity; try apply D1; try apply D2.
    val_literals. lra. }
  pose proof (val_le_of_fleb _ _ Fp1 Fp2 Hp) as Vp.
  apply fadd_mono; try assumption. lra.
Qed.

Lemma female_height_monotone w h1 h2 :
  double w -> double h1 -> double h2 -> fleb h1 h2 = true ->
  fleb (- dec 2097 (-3) + dec 1069 (-4) * h1 + dec 2466 (-4) * w)%flt
       (- dec 2097 (-3) + dec 1069 (-4) * h2 + dec 2466 (-4) * w)%flt
  = true.
Proof.
  intros Dw D1 D2 Hh.
  destruct (female_terms_finite w h1 Dw D1) as [Fp1 [Fpw Fs1]].
  destruct (female_terms_finite w h2 Dw D2) as [Fp2 [_ Fs2]].
  pose proof (val_le_of_fleb h1 h2 (proj1 D1) (proj1 D2) Hh) as Vh.
  assert (Hp : fleb (dec 1069 (-4) * h1)%flt (dec 1069 (-4) * h2)%flt = true).
  { apply fmul_mono; try reflexivity; try apply D1; try apply D2.
    val_literals. lra. }
  pose proof (val_le_of_fleb _ _ Fp1 Fp2 Hp) as Vp.
  assert (Hs : fleb (- dec 2097 (-3) + dec 1069 (-4) * h1)%flt
                    (- dec 2097 (-3) + dec 1069 (-4) * h2)%flt = true).
  { apply fadd_mono; try reflexivity; try assumption. lra. }
  pose proof (val_le_of_fleb _ _ Fs1 Fs2 Hs) as Vs.
  apply fadd_mono; try assumption. lra.
Qed.

Lemma male_weight_monotone w1 w2 h a age :
  double w1 -> double w2 -> double h -> float_of_int a = Ok age ->
  fleb w1 w2 = true ->
  fleb (dec 2447 (-3) - dec 9516 (-5) * age + dec 1074 (-4) * h
        + dec 3362 (-4) * w1)%flt
       (dec 2447 (-3) - dec 9516 (-5) * age + dec 1074 (-4) * h
        + dec 3362 (-4) * w2)%flt = true.
Proof.
  intros D1 D2 Dh Ea Hw.
  destruct (male_terms_finite w1 h a age D1 Dh Ea)
    as [Fa [Fpa [Fs [Fph [Fb Fp1]]]]].
  destruct (male_terms_finite w2 h a age D2 Dh Ea)
    as [_ [_ [_ [_ [_ Fp2]]]]].
  pose proof (val_le_of_fleb w1 w2 (proj1 D1) (proj1 D2) Hw) as Vw.
  assert (Hp : fleb (dec 3362 (-4) * w1)%flt (dec 3362 (-4) * w2)%flt = true).
  { apply fmul_mono; try reflexivity; try apply D1; try apply D2.
    val_literals. lra. }
  pose proof (val_le_of_fleb _ _ Fp1 Fp2 Hp) as Vp.
  apply fadd_mono; try assumption. lra.
Qed.

Lemma male_height_monotone w h1 h2 a age :
  double w -> double h1 -> double h2 -> float_of_int a = Ok age ->
  fleb h1 h2 = true ->
  fleb (dec 2447 (-3) - dec 9516 (-5) * age + dec 1074 (-4) * h1
        + dec 3362 (-4) * w)%flt
       (dec 2447 (-3) - dec 9516 (-5) * age + dec 1074 (-4) * h2
        + dec 3362 (-4) * w)%flt = true.
Proof.
  intros Dw D1 D2 Ea Hh.
  destruct (male_terms_finite w h1 a age Dw D1 Ea)
    as [Fa [Fpa [Fs [Fp1 [Fb1 Fpw]]]]].
  destruct (male_terms_finite w h2 a age Dw D2 Ea)
    as [_ [_ [_ [Fp2 [Fb2 _]]]]].
  pose proof (val_le_of_fleb h1 h2 (proj1 D1) (proj1 D2) Hh) as Vh.
  assert (Hp : fleb (dec 1074 (-4) * h1)%flt (dec 1074 (-4) * h2)%flt = true).
  { apply fmul_mono; try reflexivity; try apply D1; try apply D2.
    val_literals. lra. }
  pose proof (val_le_of_fleb _ _ Fp1 Fp2 Hp) as Vp.
  assert (Hb : fleb (dec 2447 (-3) - dec 9516 (-5) * age
                     + dec 1074 (-4) * h1)%flt
                    (dec 2447 (-3) - dec 9516 (-5) * age
                     + dec 1074 (-4) * h2)%flt = true).
  { apply fadd_mono; try assumption. lra. }
  pose proof (val_le_of_fleb _ _ Fb1 Fb2 Hb) as Vb.
  apply fadd_mono; try assumption. lra.
Qed.

Lemma male_age_antitone w h a1 a2 age1 age2 :
  double w -> double h ->
  float_of_int a1 = Ok age1 -> float_of_int a2 = Ok age2 ->
  (a1 <= a2)%Z ->
  fleb (dec 2447 (-3) - dec 9516 (-5) * age2 + dec 1074 (-4) * h
        + dec 3362 (-4) * w)%flt
       (dec 2447 (-3) - dec 9516 (-5) * age1 + dec 1074 (-4) * h
        + dec 3362 (-4) * w)%flt = true.
Proof.
  intros Dw Dh E1 E2 Ha.
  destruct (male_terms_finite w h a1 age1 Dw Dh E1)
    as [Fa1 [Fpa1 [Fs1 [Fph [Fb1 Fpw]]]]].
  destruct (male_terms_finite w h a2 age2 Dw Dh E2)
    as [Fa2 [Fpa2 [Fs2 [_ [Fb2 _]]]]].
  assert (Hage : fleb age1 age2 = true).
  { rewrite (float_of_int_round _ _ E1), (float_of_int_round _ _ E2).
    apply round64_mono. rewrite <- Zle_Qle. exact Ha. }
  pose proof (val_le_of_fleb _ _ Fa1 Fa2 Hage) as Va.
  assert (Hp : fleb (dec 9516 (-5) * age1)%flt (dec 9516 (-5) * age2)%flt
               = true).
  { apply fmul_mono; try reflexivity; try assumption. val_literals. lra. }
  pose proof (val_le_of_fleb _ _ Fpa1 Fpa2 Hp) as Vp.
  assert (Hs : fleb (dec 2447 (-3) - dec 9516 (-5) * age2)%flt
                    (dec 2447 (-3) - dec 9516 (-5) * age1)%flt = true).
  { apply fsub_mono; try reflexivity; try assumption. lra. }
  pose proof (val_le_of_fleb _ _ Fs2 Fs1 Hs) as Vs.
  assert (Hb : fleb (dec 2447 (-3) - dec 9516 (-5) * age2
                     + dec 1074 (-4) * h)%flt
                    (dec 2447 (-3) - dec 9516 (-5) * age1
                     + dec 1074 (-4) * h)%flt = true).
  { apply fadd_mono; try assumption. lra. }
  pose proof (val_le_of_fleb _ _ Fb2 Fb1 Hb) as Vb.
  apply fadd_mono; try assumption. lra.
Qed.

End Monotone.

(* ================================================================== *)
(** ** One rounding moves a number of moderate size by very little *)

Section Nearness.

Lemma pack_sign_finite me :
  is_finite (pack true me) = is_finite (pack false me).
Proof.
  destruct me as [m e]. unfold pack.
  destruct (if (m =? 2 ^ prec)%Z then (2 ^ (prec - 1), e + 1)%Z else (m, e))
    as [m' e'].
  destruct m'; try reflexivity. destruct (emax - prec <? e')%Z; reflexivity.
Qed.

Lemma pack_sign_val me : val (pack true me) == - val (pack false me).
Proof.
  destruct me as [m e]. unfold pack.
  destruct (if (m =? 2 ^ prec)%Z then (2 ^ (prec - 1), e + 1)%Z else (m, e))
    as [m' e'].
  destruct m'; try reflexivity.
  destruct (emax - prec <? e')%Z; [reflexivity|].
  cbn [val]. generalize (pow2 e'). intro. ring.
Qed.

Lemma round64_negative s q :
  q < 0 ->
  is_finite (round64 s q) = is_finite (round64 false (- q))
  /\ val (round64 s q) == - val (round64 false (- q)).
Proof.
  intros H. unfold round64.
  destruct (Qcompare_spec q 0) as [K|K|K]; [lra | | lra].
  destruct (Qcompare_spec (- q) 0) as [L|L|L]; [lra | lra |].
  split; [apply pack_sign_finite | apply pack_sign_val].
Qed.

Lemma round64_near_positive s q :
  0 < q -> q <= 128 ->
  is_finite (round64 s q) = true
  /\ q - (1 # 70368744177664) <= val (round64 s q)
  /\ val (round64 s q) <= q + (1 # 70368744177664).
Proof.
  intros H0 H1.
  assert (P : 0 < pow2 (-1022)) by apply pow2_pos.
  assert (S : pow2 (-1022) <= 1 # 70368744177664).
  { assert (E : 1 # 70368744177664 == pow2 (-46)) by reflexivity.
    rewrite E. apply pow2_le. lia. }
  destruct (Qlt_le_dec q (pow2 (-1022))) as [Hs|Hn].
  - destruct (round64_within s q 0 (pow2 (-1022))) as [F [A B]];
      [representable_by_computation | representable_by_computation
       | split; lra |].
    split; [exact F|]. split; lra.
  - assert (U : q <= pow2 1023).
    { apply Qle_trans with (pow2 7); [exact H1 | apply pow2_le; lia]. }
    destruct (round64_relative s q Hn U) as [F [A B]].
    assert (E : pow2 (-53) == 1 # 9007199254740992) by reflexivity.
    rewrite E in A, B.
    split; [exact F|]. split; lra.
Qed.

(** The double nearest to [q], for [q] between -128 and 128, is within
    [2^-46] of it. *)
Lemma round64_near s q :
  -128 <= q -> q <= 128 ->
  is_finite (round64 s q) = true
  /\ q - (1 # 70368744177664) <= val (round64 s q)
  /\ val (round64 s q) <= q + (1 # 70368744177664).
Proof.
  intros L U.
  destruct (Q_dec q 0) as [[H|H]|H].
  - destruct (round64_negative s q H) as [F V].
    destruct (round64_near_positive false (- q)) as [F' [A B]]; [lra | lra |].
    rewrite F, V. split; [exact F'|]. split; lra.
  - apply round64_near_positive; assumption.
  - rewrite (round64_zero s q H). split; [reflexivity|].
    change (val (S754_zero s)) with 0. split; lra.
Qed.

Lemma fmul_near x y :
  is_finite x = true -> is_finite y = true ->
  -128 <= val x * val y -> val x * val y <= 128 ->
  is_finite (fmul x y) = true
  /\ val x * val y - (1 # 70368744177664) <= val (fmul x y)
  /\ val (fmul x y) <= val x * val y + (1 # 70368744177664).
Proof.
  intros Fx Fy L U. destruct (fmul_round x y Fx Fy) as [s ->].
  apply round64_near; assumption.
Qed.

Lemma fadd_near x y :
  is_finite x = true -> is_finite y = true ->
  -128 <= val x + val y -> val x + val y <= 128 ->
  is_finite (fadd x y) = true
  /\ val x + val y - (1 # 70368744177664) <= val (fadd x y)
  /\ val (fadd x y) <= val x + val y + (1 # 70368744177664).
Proof.
  intros Fx Fy L U. destruct (fadd_round x y Fx Fy) as [s ->].
  apply round64_near; assumption.
Qed.

Lemma fsub_near x y :
  is_finite x = true -> is_finite y = true ->
  -128 <= val x - val y -> val x - val y <= 128 ->
  is_finite (fsub x y) = true
  /\ val x - val y - (1 # 70368744177664) <= val (fsub x y)
  /\ val (fsub x y) <= val x - val y + (1 # 70368744177664).
Proof.
  intros Fx Fy L U. destruct (fsub_round x y Fx Fy) as [s [q [-> E]]].
  destruct (round64_near s q) as [F [A B]]; [lra | lra |].
  split; [exact F|]. split; lra.
Qed.

(** The age of the form as a double. *)
Lemma form_age_near a :
  (15 <= a <= 100)%Z ->
  exists age,
    float_of_int a = Ok age /\ is_finite age = true
    /\ inject_Z a - (1 # 70368744177664) <= val age
    /\ val age <= inject_Z a + (1 # 70368744177664).
Proof.
  intros Ha.
  assert (L : -128 <= inject_Z a)
    by (change (-128) with (inject_Z (-128)); rewrite <- Zle_Qle; lia).
  assert (U : inject_Z a <= 128)
    by (change 128 with (inject_Z 128); rewrite <- Zle_Qle; lia).
  destruct (round64_near false (inject_Z a) L U) as [F [A B]].
  exists (round64 false (inject_Z a)). split.
  - unfold float_of_int.
    destruct (round64 false (inject_Z a)); try discriminate; reflexivity.
  - split; [exact F|]. split; assumption.
Qed.

End Nearness.

(* ================================================================== *)
(** ** The Watson formula in doubles against the exact equation *)

Section Closeness.

(** On the form's ranges the double computed for "female" is within
    [10^-12] of the exact value of the equation. *)
Lemma female_tbw_near w h :
  fleb (dec 30 0) w = true -> fleb w (dec 200 0) = true ->
  fleb (dec 120 0) h = true -> fleb h (dec 220 0) = true ->
  let t := (- dec 2097 (-3) + dec 1069 (-4) * h + dec 2466 (-4) * w)%flt in
  let exact := - (2097 # 1000) + (1069 # 10000) * val h
               + (2466 # 10000) * val w in
  is_finite t = true
  /\ exact - (1 # 1000000000000) <= val t
  /\ val t <= exact + (1 # 1000000000000).
Proof.
  intros W1 W2 H1 H2.
  destruct (fleb_between (dec 30 0) (dec 200 0) w eq_refl eq_refl W1 W2)
    as [Fw Bw].
  destruct (fleb_between (dec 120 0) (dec 220 0) h eq_refl eq_refl H1 H2)
    as [Fh Bh].
  val_const (dec 30 0). val_const (dec 200 0).
  val_const (dec 120 0). val_const (dec 220 0).
  assert (Fkh : is_finite (dec 1069 (-4)) = true) by reflexivity.
  assert (Fkw : is_finite (dec 2466 (-4)) = true) by reflexivity.
  assert (Fc : is_finite (fopp (dec 2097 (-3))) = true) by reflexivity.
  destruct (fmul_near (dec 1069 (-4)) h Fkh Fh
              ltac:(val_literals; lra) ltac:(val_literals; lra))
    as [Fph [Aph Bph]].
  destruct (fmul_near (dec 2466 (-4)) w Fkw Fw
              ltac:(val_literals; lra) ltac:(val_literals; lra))
    as [Fpw [Apw Bpw]].
  val_const (dec 1069 (-4)). val_const (dec 2466 (-4)).
  destruct (fadd_near (fopp (dec 2097 (-3))) (dec 1069 (-4) * h)%flt Fc Fph
              ltac:(val_literals; lra) ltac:(val_literals; lra))
    as [Fs [As Bs]].
  val_const (fopp (dec 2097 (-3))).
  destruct (fadd_near (- dec 2097 (-3) + dec 1069 (-4) * h)%flt
              (dec 2466 (-4) * w)%flt Fs Fpw ltac:(lra) ltac:(lra))
    as [Ft [At Bt]].
  cbv zeta. split; [exact Ft|]. split; lra.
Qed.

(** The same for "male", at an age of the form. *)
Lemma male_tbw_near w h a :
  fleb (dec 30 0) w = true -> fleb w (dec 200 0) = true ->
  fleb (dec 120 0) h = true -> fleb h (dec 220 0) = true ->
  (15 <= a <= 100)%Z ->
  exists age,
    float_of_int a = Ok age /\
    let t := (dec 2447 (-3) - dec 9516 (-5) * age + dec 1074 (-4) * h
              + dec 3362 (-4) * w)%flt in
    let exact := (2447 # 1000) - (9516 # 100000) * inject_Z a
                 + (1074 # 10000) * val h + (3362 # 10000) * val w in
    is_finite t = true
    /\ exact - (1 # 1000000000000) <= val t
    /\ val t <= exact + (1 # 1000000000000).
Proof.
  intros W1 W2 H1 H2 Ha.
  destruct (fleb_between (dec 30 0) (dec 200 0) w eq_refl eq_refl W1 W2)
    as [Fw Bw].
  destruct (fleb_between (dec 120 0) (dec 220 0) h eq_refl eq_refl H1 H2)
    as [Fh Bh].
  val_const (dec 30 0). val_const (dec 200 0).
  val_const (dec 120 0). val_const (dec 220 0).
  destruct (form_age_near a Ha) as [age [Ea [Fa [Aa Ba]]]].
  exists age. split; [exact Ea|].
  assert (La : 15 <= inject_Z a)
    by (change 15 with (inject_Z 15); rewrite <- Zle_Qle; lia).
  assert (Ua : inject_Z a <= 100)
    by (change 100 with (inject_Z 100); rewrite <- Zle_Qle; lia).
  generalize dependent (inject_Z a). intros qa Aa Ba La Ua.
  assert (Fka : is_finite (dec 9516 (-5)) = true) by reflexivity.
  assert (Fkh : is_finite (dec 1074 (-4)) = true) by reflexivity.
  assert (Fkw : is_finite (dec 3362 (-4)) = true) by reflexivity.
  assert (Fc : is_finite (dec 2447 (-3)) = true) by reflexivity.
  destruct (fmul_near (dec 9516 (-5)) age Fka Fa
              ltac:(val_literals; lra) ltac:(val_literals; lra))
    as [Fpa [Apa Bpa]].
  destruct (fmul_near (dec 1074 (-4)) h Fkh Fh
              ltac:(val_literals; lra) ltac:(val_literals; lra))
    as [Fph [Aph Bph]].
  destruct (fmul_near (dec 3362 (-4)) w Fkw Fw
              ltac:(val_literals; lra) ltac:(val_literals; lra))
    as [Fpw [Apw Bpw]].
  val_const (dec 9516 (-5)). val_const (dec 1074 (-4)).
  val_const (dec 3362 (-4)).
  destruct (fsub_near (dec 2447 (-3)) (dec 9516 (-5) * age)%flt Fc Fpa
              ltac:(val_literals; lra) ltac:(val_literals; lra))
    as [Fs [As Bs]].
  val_const (dec 2447 (-3)).
  destruct (fadd_near (dec 2447 (-3) - dec 9516 (-5) * age)%flt
              (dec 1074 (-4) * h)%flt Fs Fph ltac:(lra) ltac:(lra))
    as [Fb [Ab Bb]].
  destruct (fadd_near (dec 2447 (-3) - dec 9516 (-5) * age
                       + dec 1074 (-4) * h)%flt
              (dec 3362 (-4) * w)%flt Fb Fpw ltac:(lra) ltac:(lra))
    as [Ft [At Bt]].
  cbv zeta. split; [exact Ft|]. split; lra.
Qed.

End Closeness.

(** C2, as stated, fails at one end: for "male" the integer age is
    converted to a double before the equation is evaluated, and an age
    of [2^1024 - 2^970] does not convert; [watson_tbw_liters] raises
    [OverflowError] where the equation has a value.  One less is the
    largest age that converts. *)
Lemma watson_raises_where_the_equation_has_a_value :
  watson_tbw_liters (lit "male") (dec 80 0) (dec 180 0) int_float_limit
  = Raise OverflowError
  /\ Spec.watson_value Spec.Male (dec 80 0) (dec 180 0) int_float_limit
     = S754_infinity true
  /\ watson_tbw_liters (lit "male") (dec 80 0) (dec 180 0)
       (int_float_limit - 1)
     = Ok (Spec.watson_value Spec.Male (dec 80 0) (dec 180 0)
             (int_float_limit - 1)).
Proof.
  split; [vm_compute; reflexivity|].
  split; vm_compute; reflexivity.
Qed.

(** C2, amended.  For "female", and for "male" at every age below
    [2^1024 - 2^970] in magnitude, [watson_tbw_liters] returns the value
    of the Watson equation of the specification, [2.447 - 0.09516 age
    + 0.1074 height + 0.3362 weight] and [-2.097 + 0.1069 height
    + 0.2466 weight], each operation taken in doubles from left to
    right; for "male" at any other age it raises [OverflowError].  On
    the ranges of the form the double returned is within [10^-12] of
    the exact value of the equation. *)
Theorem watson_is_watson_equation (s : Spec.Sex) (w h : float) (a : Z) :
  (s = Spec.Female \/ (Z.abs a < int_float_limit)%Z ->
   watson_tbw_liters (Spec.sex_name s) w h a
   = Ok (Spec.watson_value s w h a))
  /\ (s = Spec.Male -> (int_float_limit <= Z.abs a)%Z ->
      watson_tbw_liters (Spec.sex_name s) w h a = Raise OverflowError)
  /\ (fleb (dec 30 0) w = true -> fleb w (dec 200 0) = true ->
      fleb (dec 120 0) h = true -> fleb h (dec 220 0) = true ->
      (15 <= a <= 100)%Z ->
      is_finite (Spec.watson_value s w h a) = true
      /\ Qabs (val (Spec.watson_value s w h a)
               - Spec.watson_exact s (val w) (val h) a)
         <= 1 # 1000000000000).
Proof.
  assert (NM : lit "female" <> lit "male") by (vm_compute; discriminate).
  assert (EF : fopp (dec 2097 (-3)) = dec (-2097) (-3))
    by (vm_compute; reflexivity).
  split; [|split].
  - intros H. destruct s; cbn [Spec.sex_name Spec.watson_value].
    + destruct H as [H|H]; [discriminate|].
      destruct (float_of_int_ok a H) as [age Ea].
      rewrite watson_male, Ea. cbn [bind].
      rewrite (float_of_int_round a age Ea). reflexivity.
    + rewrite watson_not_male by exact NM. rewrite EF. reflexivity.
  - intros -> Ha. cbn [Spec.sex_name].
    rewrite watson_male, (float_of_int_overflow a Ha). reflexivity.
  - intros W1 W2 H1 H2 Ha.
    destruct s; cbn [Spec.watson_value Spec.watson_exact].
    + destruct (male_tbw_near w h a W1 W2 H1 H2 Ha) as [age [Ea [F [L U]]]].
      rewrite (float_of_int_round a age Ea) in F, L, U.
      cbv zeta in F, L, U. unfold Spec.age_as_double.
      split; [exact F|]. apply Qabs_Qle_condition. split; lra.
    + destruct (female_tbw_near w h W1 W2 H1 H2) as [F [L U]].
      cbv zeta in F, L, U. rewrite EF in F, L, U.
      split; [exact F|]. apply Qabs_Qle_condition. split; lra.
Qed.

Lemma watson_is_watson_equation_witness :
  watson_tbw_liters (lit "male") (dec 80 0) (dec 180 0) 30
  = Ok (Spec.watson_value Spec.Male (dec 80 0) (dec 180 0) 30)
  /\ Qabs (val (Spec.watson_value Spec.Male (dec 80 0) (dec 180 0) 30)
           - Spec.watson_exact Spec.Male (val (dec 80 0)) (val (dec 180 0))
               30)
     <= 1 # 1000000000000
  /\ watson_tbw_liters (lit "male") (dec 80 0) (dec 180 0) (2 ^ 1024)
     = Raise OverflowError.
Proof.
  destruct (watson_is_watson_equation Spec.Male (dec 80 0) (dec 180 0) 30)
    as [A [_ C]].
  destruct (watson_is_watson_equation Spec.Male (dec 80 0) (dec 180 0)
              (2 ^ 1024)) as [_ [B _]].
  split; [|split].
  - apply A. right. vm_compute. reflexivity.
  - apply C; try (vm_compute; reflexivity). lia.
  - apply B; [reflexivity|]. vm_compute. discriminate.
Defined.

(** C10, as stated, fails: the formula is not strictly monotone.  A
    weight one unit in the last place above 80 kg, a height one unit in
    the last place above 170 cm, and the age [2^53 + 1] against [2^53]
    each leave the result of both programs' [watson_tbw_liters] as it
    is. *)
Lemma neighbouring_inputs_same_tbw :
  (fltb (dec 80 0) just_above_80 = true
   /\ watson_tbw_liters (lit "female") (dec 80 0) (dec 170 0) 30
      = watson_tbw_liters (lit "female") just_above_80 (dec 170 0) 30
   /\ watson_tbw_liters (lit "male") (dec 80 0) (dec 180 0) 30
      = watson_tbw_liters (lit "male") just_above_80 (dec 180 0) 30)
  /\ (fltb (dec 170 0) just_above_170 = true
      /\ watson_tbw_liters (lit "female") (dec 80 0) (dec 170 0) 30
         = watson_tbw_liters (lit "female") (dec 80 0) just_above_170 30
      /\ watson_tbw_liters (lit "male") (dec 80 0) (dec 170 0) 30
         = watson_tbw_liters (lit "male") (dec 80 0) just_above_170 30)
  /\ ((2 ^ 53 < 2 ^ 53 + 1)%Z
      /\ watson_tbw_liters (lit "male") (dec 80 0) (dec 180 0) (2 ^ 53)
         = watson_tbw_liters (lit "male") (dec 80 0) (dec 180 0)
             (2 ^ 53 + 1))
  /\ exists t,
       watson_tbw_liters (lit "female") (dec 80 0) (dec 170 0) 30 = Ok t
       /\ is_finite t = true.
Proof.
  split; [|split; [|split; [|eexists; split]]];
    try (vm_compute; reflexivity);
    (split; [|split]); vm_compute; reflexivity.
Qed.

Section Strictness.

Lemma female_weight_strict w1 w2 h :
  fleb (dec 30 0) w1 = true -> fleb w1 (dec 200 0) = true ->
  fleb (dec 30 0) w2 = true -> fleb w2 (dec 200 0) = true ->
  fleb (dec 120 0) h = true -> fleb h (dec 220 0) = true ->
  val w1 + (1 # 1000000000) <= val w2 ->
  fltb (- dec 2097 (-3) + dec 1069 (-4) * h + dec 2466 (-4) * w1)%flt
       (- dec 2097 (-3) + dec 1069 (-4) * h + dec 2466 (-4) * w2)%flt
  = true.
Proof.
  intros A1 B1 A2 B2 H1 H2 D.
  destruct (female_tbw_near w1 h A1 B1 H1 H2) as [F1 [L1 U1]].
  destruct (female_tbw_near w2 h A2 B2 H1 H2) as [F2 [L2 U2]].
  cbv zeta in *. apply fltb_val; [exact F1 | exact F2 |]. lra.
Qed.

Lemma female_height_strict w h1 h2 :
  fleb (dec 30 0) w = true -> fleb w (dec 200 0) = true ->
  fleb (dec 120 0) h1 = true -> fleb h1 (dec 220 0) = true ->
  fleb (dec 120 0) h2 = true -> fleb h2 (dec 220 0) = true ->
  val h1 + (1 # 1000000000) <= val h2 ->
  fltb (- dec 2097 (-3) + dec 1069 (-4) * h1 + dec 2466 (-4) * w)%flt
       (- dec 2097 (-3) + dec 1069 (-4) * h2 + dec 2466 (-4) * w)%flt
  = true.
Proof.
  intros W1 W2 A1 B1 A2 B2 D.
  destruct (female_tbw_near w h1 W1 W2 A1 B1) as [F1 [L1 U1]].
  destruct (female_tbw_near w h2 W1 W2 A2 B2) as [F2 [L2 U2]].
  cbv zeta in *. apply fltb_val; [exact F1 | exact F2 |]. lra.
Qed.

Lemma male_weight_strict w1 w2 h a :
  fleb (dec 30 0) w1 = true -> fleb w1 (dec 200 0) = true ->
  fleb (dec 30 0) w2 = true -> fleb w2 (dec 200 0) = true ->
  fleb (dec 120 0) h = true -> fleb h (dec 220 0) = true ->
  (15 <= a <= 100)%Z ->
  val w1 + (1 # 1000000000) <= val w2 ->
  exists t1 t2,
    watson_tbw_liters (lit "male") w1 h a = Ok t1
    /\ watson_tbw_liters (lit "male") w2 h a = Ok t2
    /\ fltb t1 t2 = true.
Proof.
  intros A1 B1 A2 B2 H1 H2 Ha D.
  destruct (male_tbw_near w1 h a A1 B1 H1 H2 Ha) as [age [E [F1 [L1 U1]]]].
  destruct (male_tbw_near w2 h a A2 B2 H1 H2 Ha) as [age' [E' [F2 [L2 U2]]]].
  rewrite E in E'. injection E' as <-.
  rewrite !watson_male, E. cbn [bind].
  eexists. eexists. split; [reflexivity|]. split; [reflexivity|].
  apply fltb_val; [exact F1 | exact F2 |]. lra.
Qed.

Lemma male_height_strict w h1 h2 a :
  fleb (dec 30 0) w = true -> fleb w (dec 200 0) = true ->
  fleb (dec 120 0) h1 = true -> fleb h1 (dec 220 0) = true ->
  fleb (dec 120 0) h2 = true -> fleb h2 (dec 220 0) = true ->
  (15 <= a <= 100)%Z ->
  val h1 + (1 # 1000000000) <= val h2 ->
  exists t1 t2,
    watson_tbw_liters (lit "male") w h1 a = Ok t1
    /\ watson_tbw_liters (lit "male") w h2 a = Ok t2
    /\ fltb t1 t2 = true.
Proof.
  intros W1 W2 A1 B1 A2 B2 Ha D.
  destruct (male_tbw_near w h1 a W1 W2 A1 B1 Ha) as [age [E [F1 [L1 U1]]]].
  destruct (male_tbw_near w h2 a W1 W2 A2 B2 Ha) as [age' [E' [F2 [L2 U2]]]].
  rewrite E in E'. injection E' as <-.
  rewrite !watson_male, E. cbn [bind].
  eexists. eexists. split; [reflexivity|]. split; [reflexivity|].
  apply fltb_val; [exact F1 | exact F2 |]. lra.
Qed.

Lemma male_age_strict w h a1 a2 :
  fleb (dec 30 0) w = true -> fleb w (dec 200 0) = true ->
  fleb (dec 120 0) h = true -> fleb h (dec 220 0) = true ->
  (15 <= a1)%Z -> (a1 < a2)%Z -> (a2 <= 100)%Z ->
  exists t1 t2,
    watson_tbw_liters (lit "male") w h a1 = Ok t1
    /\ watson_tbw_liters (lit "male") w h a2 = Ok t2
    /\ fltb t2 t1 = true.
Proof.
  intros W1 W2 H1 H2 L12 Ha U12.
  destruct (male_tbw_near w h a1 W1 W2 H1 H2 ltac:(lia))
    as [age1 [E1 [F1 [L1 U1]]]].
  destruct (male_tbw_near w h a2 W1 W2 H1 H2 ltac:(lia))
    as [age2 [E2 [F2 [L2 U2]]]].
  rewrite !watson_male, E1, E2. cbn [bind].
  eexists. eexists. split; [reflexivity|]. split; [reflexivity|].
  apply fltb_val; [exact F2 | exact F1 |].
  assert (D : inject_Z a1 + 1 <= inject_Z a2).
  { change 1 with (inject_Z 1). rewrite <- inject_Z_plus, <- Zle_Qle. lia. }
  cbv zeta in *. lra.
Qed.

End Strictness.

(** C10, amended.  On finite doubles, and for an age that converts,
    [watson_tbw_liters] is monotone: a weight or a height at least as
    large never gives a smaller result, for either sex; for "male" an
    age at least as large never gives a larger result; for "female" the
    result does not depend on the age at all.  The order is strict on
    the ranges of the form (weight 30 to 200, height 120 to 220, age 15
    to 100) as soon as the two weights, or the two heights, are
    [10^-9] apart, and for any two different ages; the steps of the
    form, 0.5 kg, 0.5 cm and one year, are such.  It is not strict
    between neighbouring doubles. *)
Theorem tbw_monotone :
  (forall s w1 w2 h a,
      is_Sex s -> age_converts s a ->
      double w1 -> double w2 -> double h -> fleb w1 w2 = true ->
      exists t1 t2,
        watson_tbw_liters s w1 h a = Ok t1
        /\ watson_tbw_liters s w2 h a = Ok t2 /\ fleb t1 t2 = true)
  /\ (forall s w h1 h2 a,
        is_Sex s -> age_converts s a ->
        double w -> double h1 -> double h2 -> fleb h1 h2 = true ->
        exists t1 t2,
          watson_tbw_liters s w h1 a = Ok t1
          /\ watson_tbw_liters s w h2 a = Ok t2 /\ fleb t1 t2 = true)
  /\ (forall w h a1 a2,
        double w -> double h ->
        (Z.abs a1 < int_float_limit)%Z -> (Z.abs a2 < int_float_limit)%Z ->
        (a1 <= a2)%Z ->
        exists t1 t2,
          watson_tbw_liters (lit "male") w h a1 = Ok t1
          /\ watson_tbw_liters (lit "male") w h a2 = Ok t2
          /\ fleb t2 t1 = true)
  /\ (forall w h a1 a2,
        watson_tbw_liters (lit "female") w h a1
        = watson_tbw_liters (lit "female") w h a2)
  /\ (forall s w1 w2 h a,
        is_Sex s ->
        fleb (dec 30 0) w1 = true -> fleb w1 (dec 200 0) = true ->
        fleb (dec 30 0) w2 = true -> fleb w2 (dec 200 0) = true ->
        fleb (dec 120 0) h = true -> fleb h (dec 220 0) = true ->
        (15 <= a <= 100)%Z ->
        val w1 + (1 # 1000000000) <= val w2 ->
        exists t1 t2,
          watson_tbw_liters s w1 h a = Ok t1
          /\ watson_tbw_liters s w2 h a = Ok t2 /\ fltb t1 t2 = true)
  /\ (forall s w h1 h2 a,
        is_Sex s ->
        fleb (dec 30 0) w = true -> fleb w (dec 200 0) = true ->
        fleb (dec 120 0) h1 = true -> fleb h1 (dec 220 0) = true ->
        fleb (dec 120 0) h2 = true -> fleb h2 (dec 220 0) = true ->
        (15 <= a <= 100)%Z ->
        val h1 + (1 # 1000000000) <= val h2 ->
        exists t1 t2,
          watson_tbw_liters s w h1 a = Ok t1
          /\ watson_tbw_liters s w h2 a = Ok t2 /\ fltb t1 t2 = true)
  /\ (forall w h a1 a2,
        fleb (dec 30 0) w = true -> fleb w (dec 200 0) = true ->
        fleb (dec 120 0) h = true -> fleb h (dec 220 0) = true ->
        (15 <= a1)%Z -> (a1 < a2)%Z -> (a2 <= 100)%Z ->
        exists t1 t2,
          watson_tbw_liters (lit "male") w h a1 = Ok t1
          /\ watson_tbw_liters (lit "male") w h a2 = Ok t2
          /\ fltb t2 t1 = true).
Proof.
  assert (NM : lit "female" <> lit "male") by (vm_compute; discriminate).
  split; [|split; [|split; [|split; [|split; [|split]]]]].
  - intros s w1 w2 h a [-> | ->] Ha D1 D2 Dh Hw.
    + destruct Ha as [Ha|Ha]; [contradiction Ha; reflexivity|].
      destruct (float_of_int_ok a Ha) as [age Ea].
      rewrite !watson_male, Ea. cbn [bind].
      eexists. eexists. split; [reflexivity|]. split; [reflexivity|].
      apply (male_weight_monotone w1 w2 h a age); assumption.
    + rewrite !watson_not_male by exact NM.
      eexists. eexists. split; [reflexivity|]. split; [reflexivity|].
      apply female_weight_monotone; assumption.
  - intros s w h1 h2 a [-> | ->] Ha Dw D1 D2 Hh.
    + destruct Ha as [Ha|Ha]; [contradiction Ha; reflexivity|].
      destruct (float_of_int_ok a Ha) as [age Ea].
      rewrite !watson_male, Ea. cbn [bind].
      eexists. eexists. split; [reflexivity|]. split; [reflexivity|].
      apply (male_height_monotone w h1 h2 a age); assumption.
    + rewrite !watson_not_male by exact NM.
      eexists. eexists. split; [reflexivity|]. split; [reflexivity|].
      apply female_height_monotone; assumption.
  - intros w h a1 a2 Dw Dh H1 H2 Ha.
    destruct (float_of_int_ok a1 H1) as [age1 E1].
    destruct (float_of_int_ok a2 H2) as [age2 E2].
    rewrite !watson_male, E1, E2. cbn [bind].
    eexists. eexists. split; [reflexivity|]. split; [reflexivity|].
    apply (male_age_antitone w h a1 a2 age1 age2); assumption.
  - intros w h a1 a2. rewrite !watson_not_male by exact NM. reflexivity.
  - intros s w1 w2 h a [-> | ->] A1 B1 A2 B2 H1 H2 Ha D.
    + apply male_weight_strict; assumption.
    + rewrite !watson_not_male by exact NM.
      eexists. eexists. split; [reflexivity|]. split; [reflexivity|].
      apply female_weight_strict; assumption.
  - intros s w h1 h2 a [-> | ->] W1 W2 A1 B1 A2 B2 Ha D.
    + apply male_height_strict; assumption.
    + rewrite !watson_not_male by exact NM.
      eexists. eexists. split; [reflexivity|]. split; [reflexivity|].
      apply female_height_strict; assumption.
  - intros w h a1 a2. apply male_age_strict.
Qed.

Lemma tbw_monotone_witness :
  (exists t1 t2,
      watson_tbw_liters (lit "female") (dec 80 0) (dec 170 0) 30 = Ok t1
      /\ watson_tbw_liters (lit "female") just_above_80 (dec 170 0) 30
         = Ok t2
      /\ fleb t1 t2 = true)
  /\ (exists t1 t2,
        watson_tbw_liters (lit "male") (dec 80 0) (dec 180 0) 30 = Ok t1
        /\ watson_tbw_liters (lit "male") (dec 80 0) (dec 180 0) 31 = Ok t2
        /\ fleb t2 t1 = true)
  /\ (exists t1 t2,
        watson_tbw_liters (lit "female") (dec 80 0) (dec 170 0) 30 = Ok t1
        /\ watson_tbw_liters (lit "female") (dec 805 (-1)) (dec 170 0) 30
           = Ok t2
        /\ fltb t1 t2 = true)
  /\ (exists t1 t2,
        watson_tbw_liters (lit "male") (dec 80 0) (dec 180 0) 30 = Ok t1
        /\ watson_tbw_liters (lit "male") (dec 80 0) (dec 1805 (-1)) 30
           = Ok t2
        /\ fltb t1 t2 = true)
  /\ (exists t1 t2,
        watson_tbw_liters (lit "male") (dec 80 0) (dec 180 0) 30 = Ok t1
        /\ watson_tbw_liters (lit "male") (dec 80 0) (dec 180 0) 31 = Ok t2
        /\ fltb t2 t1 = true).
Proof.
  destruct tbw_monotone as [Hw [_ [Ha [_ [Sw [Sh Sa]]]]]].
  split; [|split; [|split; [|split]]].
  - apply (Hw (lit "female") (dec 80 0) just_above_80 (dec 170 0) 30%Z).
    + right. reflexivity.
    + left. vm_compute. discriminate.
    + split; vm_compute; reflexivity.
    + split; vm_compute; reflexivity.
    + split; vm_compute; reflexivity.
    + vm_compute. reflexivity.
  - apply (Ha (dec 80 0) (dec 180 0) 30%Z 31%Z).
    + split; vm_compute; reflexivity.
    + split; vm_compute; reflexivity.
    + vm_compute. reflexivity.
    + vm_compute. reflexivity.
    + lia.
  - apply (Sw (lit "female") (dec 80 0) (dec 805 (-1)) (dec 170 0) 30%Z).
    + right. reflexivity.
    + vm_compute. reflexivity.
    + vm_compute. reflexivity.
    + vm_compute. reflexivity.
    + vm_compute. reflexivity.
    + vm_compute. reflexivity.
    + vm_compute. reflexivity.
    + lia.
    + apply Qle_bool_iff. vm_compute. reflexivity.
  - apply (Sh (lit "male") (dec 80 0) (dec 180 0) (dec 1805 (-1)) 30%Z).
    + left. reflexivity.
    + vm_compute. reflexivity.
    + vm_compute. reflexivity.
    + vm_compute. reflexivity.
    + vm_compute. reflexivity.
    + vm_compute. reflexivity.
    + vm_compute. reflexivity.
    + lia.
    + apply Qle_bool_iff. vm_compute. reflexivity.
  - apply (Sa (dec 80 0) (dec 180 0) 30%Z 31%Z).
    + vm_compute. reflexivity.
    + vm_compute. reflexivity.
    + vm_compute. reflexivity.
    + vm_compute. reflexivity.
    + lia.
    + lia.
    + lia.
Defined.

(* ================================================================== *)
(** ** What the normalisation of [parse_bac] ignores *)

Section Normalisation.

Lemma parse_bac_normalize a b :
  Spec.normalize a = Spec.normalize b -> parse_bac a = parse_bac b.
Proof.
  intros H. rewrite !parse_bac_unfold. unfold bac_remainder, permille_flag.
  fold (Spec.normalize a). fold (Spec.normalize b). rewrite H. reflexivity.
Qed.

Lemma lower_char_capital c :
  (65 <= c)%N -> (c <= 90)%N -> lower_char c = (c + 32)%N.
Proof.
  intros A B. unfold lower_char.
  destruct (N.leb_spec 65 c); [|lia]. destruct (N.leb_spec c 90); [|lia].
  reflexivity.
Qed.

Lemma isspace_letter c : (65 <= c)%N -> (c <= 122)%N -> isspace c = false.
Proof.
  intros A B. unfold isspace.
  replace (c <=? 13)%N with false by (symmetry; apply N.leb_gt; lia).
  replace (c <=? 32)%N with false by (symmetry; apply N.leb_gt; lia).
  replace (8192 <=? c)%N with false by (symmetry; apply N.leb_gt; lia).
  repeat match goal with
    | |- context [(c =? ?k)%N] =>
        replace (c =? k)%N with false by (symmetry; apply N.eqb_neq; lia)
    end.
  rewrite !andb_false_r. reflexivity.
Qed.

Lemma isspace_lower_char c : isspace (lower_char c) = isspace c.
Proof.
  unfold lower_char.
  destruct (N.leb_spec 65 c); [|reflexivity].
  destruct (N.leb_spec c 90); [|reflexivity]. cbn [andb].
  rewrite !isspace_letter by lia. reflexivity.
Qed.

Lemma lower_char_other c :
  (c < 65)%N \/ (90 < c)%N -> lower_char c = c.
Proof.
  intros H. unfold lower_char.
  destruct (N.leb_spec 65 c); [|reflexivity].
  destruct (N.leb_spec c 90); [lia | reflexivity].
Qed.

Lemma lower_char_idem c : lower_char (lower_char c) = lower_char c.
Proof.
  destruct (N.leb_spec 65 c); [|rewrite !(lower_char_other c) by lia; reflexivity].
  destruct (N.leb_spec c 90); [|rewrite !(lower_char_other c) by lia; reflexivity].
  rewrite (lower_char_capital c) by assumption.
  apply lower_char_other. lia.
Qed.

Lemma lower_idem s : lower (lower s) = lower s.
Proof.
  unfold lower. rewrite map_map. apply map_ext. apply lower_char_idem.
Qed.

Lemma lstrip_lower s : lstrip (lower s) = lower (lstrip s).
Proof.
  induction s as [|c s IH]; [reflexivity|].
  cbn [lower map lstrip]. rewrite isspace_lower_char.
  destruct (isspace c); [exact IH | reflexivity].
Qed.

Lemma lower_rev s : lower (rev s) = rev (lower s).
Proof. apply map_rev. Qed.

Lemma strip_lower s : strip (lower s) = lower (strip s).
Proof.
  unfold strip, rstrip.
  rewrite lstrip_lower, <- lower_rev, lstrip_lower, <- lower_rev.
  reflexivity.
Qed.

Lemma lower_char_space c : (lower_char c =? 32)%N = (c =? 32)%N.
Proof.
  unfold lower_char.
  destruct (N.leb_spec 65 c); [|reflexivity].
  destruct (N.leb_spec c 90); [|reflexivity]. cbn [andb].
  destruct (N.eqb_spec (c + 32) 32); [lia|].
  destruct (N.eqb_spec c 32); [lia | reflexivity].
Qed.

Lemma remove_spaces_lower s :
  remove_spaces (lower s) = lower (remove_spaces s).
Proof.
  induction s as [|c s IH]; [reflexivity|].
  cbn [lower map remove_spaces filter]. rewrite lower_char_space.
  destruct (c =? 32)%N; cbn [negb]; [exact IH|].
  cbn [map]. f_equal. exact IH.
Qed.

Lemma remove_spaces_idem s : remove_spaces (remove_spaces s) = remove_spaces s.
Proof.
  induction s as [|c s IH]; [reflexivity|].
  cbn [remove_spaces filter]. destruct (negb (c =? 32)%N) eqn:E; [|exact IH].
  cbn [filter]. rewrite E. f_equal. exact IH.
Qed.

Lemma remove_spaces_rev s : remove_spaces (rev s) = rev (remove_spaces s).
Proof. apply filter_rev. Qed.

Lemma isspace_space : isspace 32%N = true.
Proof. reflexivity. Qed.

Lemma remove_spaces_lstrip s :
  remove_spaces (lstrip (remove_spaces s)) = remove_spaces (lstrip s).
Proof.
  induction s as [|c s IH]; [reflexivity|].
  cbn [remove_spaces filter lstrip].
  destruct (N.eqb_spec c 32) as [->|NE]; cbn [negb].
  - rewrite isspace_space. exact IH.
  - cbn [lstrip]. destruct (isspace c); [exact IH|].
    cbn [filter]. destruct (N.eqb_spec c 32); [contradiction|]. cbn [negb].
    f_equal. apply remove_spaces_idem.
Qed.

Lemma remove_spaces_rstrip s :
  remove_spaces (rstrip (remove_spaces s)) = remove_spaces (rstrip s).
Proof.
  unfold rstrip.
  rewrite (remove_spaces_rev (lstrip (rev (remove_spaces s)))).
  rewrite (remove_spaces_rev (lstrip (rev s))).
  rewrite <- (remove_spaces_rev s), remove_spaces_lstrip. reflexivity.
Qed.

Lemma remove_spaces_strip s :
  remove_spaces (strip (remove_spaces s)) = remove_spaces (strip s).
Proof.
  unfold strip.
  rewrite <- (remove_spaces_rstrip (lstrip (remove_spaces s))).
  rewrite remove_spaces_lstrip. apply remove_spaces_rstrip.
Qed.

Lemma lstrip_app_spaces ws s : forallb isspace ws = true -> lstrip (ws ++ s) = lstrip s.
Proof.
  induction ws as [|c ws IH]; [reflexivity|]. cbn [forallb app lstrip].
  intros H. apply andb_prop in H. destruct H as [-> H]. exact (IH H).
Qed.

Lemma lstrip_app s t :
  lstrip (s ++ t) = match lstrip s with [] => lstrip t | r => r ++ t end.
Proof.
  induction s as [|c s IH]; cbn [app lstrip].
  - destruct (lstrip t); reflexivity.
  - destruct (isspace c); [exact IH | reflexivity].
Qed.

Lemma lstrip_spaces ws : forallb isspace ws = true -> lstrip ws = [].
Proof.
  intros H. rewrite <- (app_nil_r ws). rewrite lstrip_app_spaces by exact H.
  reflexivity.
Qed.

Lemma rstrip_app_spaces s ws :
  forallb isspace ws = true -> rstrip (s ++ ws) = rstrip s.
Proof.
  intros H. unfold rstrip. rewrite rev_app_distr.
  rewrite lstrip_app_spaces; [reflexivity|].
  rewrite forallb_forall in *. intros x Hx. apply H. apply in_rev. exact Hx.
Qed.

Lemma strip_padding ws1 s ws2 :
  forallb isspace ws1 = true -> forallb isspace ws2 = true ->
  strip (ws1 ++ s ++ ws2) = strip s.
Proof.
  intros H1 H2. unfold strip. rewrite lstrip_app_spaces by exact H1.
  rewrite lstrip_app. destruct (lstrip s) as [|c r] eqn:E.
  - rewrite lstrip_spaces by exact H2. reflexivity.
  - apply rstrip_app_spaces. exact H2.
Qed.

End Normalisation.

(** X1. On plain text [parse_bac] does not see the case of the letters
    A to Z, nor spaces anywhere in the string, nor white space around
    it: two plain strings that agree once lowercased, or once their
    spaces are removed, parse alike, and so does a plain string padded
    with white space. *)
Theorem parse_bac_ignores_case_and_spaces :
  (forall a b,
      plain_text a -> plain_text b ->
      lower a = lower b -> parse_bac a = parse_bac b)
  /\ (forall a b,
        plain_text a -> plain_text b ->
        remove_spaces a = remove_spaces b -> parse_bac a = parse_bac b)
  /\ (forall ws1 s ws2,
        plain_text s ->
        forallb isspace ws1 = true -> forallb isspace ws2 = true ->
        parse_bac (ws1 ++ s ++ ws2) = parse_bac s).
Proof.
  split; [|split].
  - intros a b _ _ H. apply parse_bac_normalize. unfold Spec.normalize.
    rewrite <- !strip_lower, H. reflexivity.
  - intros a b _ _ H. apply parse_bac_normalize. unfold Spec.normalize.
    rewrite !remove_spaces_lower. f_equal.
    rewrite <- (remove_spaces_strip a), <- (remove_spaces_strip b), H.
    reflexivity.
  - intros ws1 s ws2 _ H1 H2. apply parse_bac_normalize.
    unfold Spec.normalize.
    rewrite strip_padding by assumption. reflexivity.
Qed.

Lemma parse_bac_ignores_case_and_spaces_witness :
  parse_bac (lit "0.5 PerMille") = parse_bac (lit "0.5 permille")
  /\ parse_bac (lit "0 . 5 permille") = parse_bac (lit "0.5permille")
  /\ parse_bac (lit "  0.5permille ") = parse_bac (lit "0.5permille").
Proof.
  destruct parse_bac_ignores_case_and_spaces as [H1 [H2 H3]].
  split; [|split].
  - apply H1; vm_compute; reflexivity.
  - apply H2; vm_compute; reflexivity.
  - apply (H3 (lit "  ") (lit "0.5permille") (lit " "));
      vm_compute; reflexivity.
Defined.

(* ================================================================== *)
(** ** Suffixes on a bare body *)

Section BareBody.

Lemma bare_char_spec c :
  bare_char c = true ->
  isspace c = false /\ lower_char c = c /\ c <> 32%N
  /\ c <> 37%N /\ c <> 8240%N /\ c <> 112%N /\ c <> 47%N.
Proof.
  unfold bare_char. rewrite !andb_true_iff, !negb_true_iff, !orb_false_iff.
  rewrite !N.eqb_neq. intros [[[_ Hs] Hu] [[[H1 H2] H3] H4]].
  split; [exact Hs|]. split.
  - unfold lower_char. rewrite Hu. reflexivity.
  - repeat split; try assumption. intros ->. discriminate Hs.
Qed.

Lemma lstrip_head c s : isspace c = false -> lstrip (c :: s) = c :: s.
Proof. intros H. cbn [lstrip]. rewrite H. reflexivity. Qed.

Lemma lstrip_fixed s :
  Forall (fun c => isspace c = false) s -> lstrip s = s.
Proof.
  intros [|c t Hc _]; [reflexivity | apply lstrip_head, Hc].
Qed.

Lemma lower_fixed s :
  Forall (fun c => lower_char c = c) s -> lower s = s.
Proof.
  unfold lower. induction 1 as [|c t Hc _ IH]; [reflexivity|].
  cbn [map]. rewrite Hc, IH. reflexivity.
Qed.

Lemma remove_spaces_fixed s :
  Forall (fun c => c <> 32%N) s -> remove_spaces s = s.
Proof.
  unfold remove_spaces. induction 1 as [|c t Hc _ IH]; [reflexivity|].
  cbn [filter]. destruct (N.eqb_spec c 32); [contradiction|].
  cbn [negb]. rewrite IH. reflexivity.
Qed.

(** Nothing to normalise in a string without white space and capitals. *)
Lemma normalize_fixed s :
  Forall (fun c => isspace c = false /\ lower_char c = c /\ c <> 32%N) s ->
  Spec.normalize s = s.
Proof.
  intros H. unfold Spec.normalize, strip, rstrip.
  assert (H1 : Forall (fun c => isspace c = false) s)
    by (eapply Forall_impl; [|exact H]; cbn; tauto).
  assert (H2 : Forall (fun c => lower_char c = c) s)
    by (eapply Forall_impl; [|exact H]; cbn; tauto).
  assert (H3 : Forall (fun c => c <> 32%N) s)
    by (eapply Forall_impl; [|exact H]; cbn; tauto).
  rewrite (lstrip_fixed s H1), (lstrip_fixed (rev s) (Forall_rev H1)).
  rewrite rev_involutive, (lower_fixed s H2). apply remove_spaces_fixed, H3.
Qed.

Lemma endswith_In s suf c : endswith s suf = true -> In c suf -> In c s.
Proof.
  intros H Hc. apply endswith_spec in H. destruct H as [a ->].
  apply in_or_app. right. exact Hc.
Qed.

Lemma endswith_last s suf c c' :
  endswith (s ++ [c]) (suf ++ [c']) = true -> c = c'.
Proof.
  intros H. apply endswith_spec in H. destruct H as [a H].
  rewrite app_assoc in H. apply app_inj_tail in H. apply H.
Qed.

Lemma endswith_self d suf : endswith (d ++ suf) suf = true.
Proof. apply endswith_spec. exists d. reflexivity. Qed.

Lemma bare_not_in d c :
  forallb bare_char d = true ->
  (c = 37 \/ c = 8240 \/ c = 112 \/ c = 47)%N -> ~ In c d.
Proof.
  intros H Hc Hin. rewrite forallb_forall in H.
  destruct (bare_char_spec c (H c Hin)) as [_ [_ [_ [A [B [C D]]]]]].
  destruct Hc as [?|[?|[?|?]]]; contradiction.
Qed.


Lemma bare_plain d :
  forallb bare_char d = true ->
  Forall (fun c => isspace c = false /\ lower_char c = c /\ c <> 32%N) d.
Proof.
  intros H. apply Forall_forall. intros c Hc.
  rewrite forallb_forall in H.
  destruct (bare_char_spec c (H c Hc)) as [A [B [C _]]]. auto.
Qed.

Lemma suffix_plain suf :
  In suf suffixes ->
  Forall (fun c => isspace c = false /\ lower_char c = c /\ c <> 32%N) suf.
Proof.
  intros [<-|[<-|[<-|[<-|[]]]]];
    repeat constructor; try reflexivity; discriminate.
Qed.

Lemma normalize_bare_suffix d suf :
  forallb bare_char d = true -> In suf suffixes ->
  Spec.normalize (d ++ suf) = d ++ suf.
Proof.
  intros Hd Hs. apply normalize_fixed, Forall_app.
  split; [apply bare_plain, Hd | apply suffix_plain, Hs].
Qed.

Lemma normalize_bare d :
  forallb bare_char d = true -> Spec.normalize d = d.
Proof. intros Hd. apply normalize_fixed, bare_plain, Hd. Qed.

(** No marker occurs in a bare body, also when "%" follows. *)
Lemma no_marker_in_bare d t :
  forallb bare_char d = true -> t = [] \/ t = lit "%" ->
  existsb (fun x => contains x (d ++ t)) permille_markers = false.
Proof.
  intros Hd Ht. apply not_true_is_false. intros H.
  apply existsb_exists in H. destruct H as [m [Hm Hc]].
  assert (K : exists c, In c m /\ (c = 37 \/ c = 8240 \/ c = 112 \/ c = 47)%N
                        /\ c <> 37%N).
  { destruct Hm as [<-|[<-|[<-|[]]]].
    - exists 8240%N. split; [left; reflexivity|]. split; [auto | discriminate].
    - exists 112%N. split; [left; reflexivity|]. split; [auto | discriminate].
    - exists 47%N. split; [left; reflexivity|]. split; [auto | discriminate]. }
  destruct K as [c [Hin [Hc4 Hne]]].
  pose proof (contains_In m (d ++ t) c Hc Hin) as Hi.
  apply in_app_or in Hi. destruct Hi as [Hi|Hi].
  - exact (bare_not_in d c Hd Hc4 Hi).
  - destruct Ht as [->| ->]; [exact Hi|].
    destruct Hi as [Hi|[]]. apply Hne. symmetry. exact Hi.
Qed.

(** No candidate suffix ends a bare body. *)
Lemma no_suffix_on_bare d suf :
  forallb bare_char d = true -> In suf suffixes -> endswith d suf = false.
Proof.
  intros Hd Hs. apply not_true_is_false. intros H.
  assert (K : exists c, In c suf
                        /\ (c = 37 \/ c = 8240 \/ c = 112 \/ c = 47)%N).
  { destruct Hs as [<-|[<-|[<-|[<-|[]]]]].
    - exists 37%N. split; [left; reflexivity | auto].
    - exists 8240%N. split; [left; reflexivity | auto].
    - exists 112%N. split; [left; reflexivity | auto].
    - exists 47%N. split; [left; reflexivity | auto]. }
  destruct K as [c [Hin Hc4]].
  exact (bare_not_in d c Hd Hc4 (endswith_In d suf c H Hin)).
Qed.

Lemma bac_remainder_bare d :
  forallb bare_char d = true -> strip_first_suffix suffixes d = d.
Proof.
  intros Hd. unfold suffixes. cbn [strip_first_suffix].
  rewrite !(no_suffix_on_bare d) by (exact Hd || (cbn; auto)).
  reflexivity.
Qed.

Lemma endswith_other_last s c x c' :
  c <> c' -> endswith (s ++ [c]) (x ++ [c']) = false.
Proof.
  intros H. apply not_true_is_false. intros K.
  exact (H (endswith_last _ _ _ _ K)).
Qed.

(** The suffix scan takes a candidate off a bare body again. *)
Lemma bac_remainder_bare_suffix d suf :
  In suf suffixes -> strip_first_suffix suffixes (d ++ suf) = d.
Proof.
  assert (P : lit "%" = [] ++ [37%N]) by reflexivity.
  assert (M : lit "‰" = [] ++ [8240%N]) by reflexivity.
  assert (W : lit "permille" = lit "permill" ++ [101%N]) by reflexivity.
  assert (T : lit "/1000" = lit "/100" ++ [48%N]) by reflexivity.
  assert (E : forall x c y c', c <> c' ->
              endswith (d ++ x ++ [c]) (y ++ [c']) = false).
  { intros x c y c' H. rewrite app_assoc. apply endswith_other_last, H. }
  unfold suffixes. cbn [strip_first_suffix].
  intros [<-|[<-|[<-|[<-|[]]]]].
  - rewrite endswith_self. apply drop_last_app. discriminate.
  - replace (endswith (d ++ lit "‰") (lit "%")) with false
      by (symmetry; rewrite M, P; apply E; discriminate).
    rewrite endswith_self. apply drop_last_app. discriminate.
  - replace (endswith (d ++ lit "permille") (lit "%")) with false
      by (symmetry; rewrite W, P; apply E; discriminate).
    replace (endswith (d ++ lit "permille") (lit "‰")) with false
      by (symmetry; rewrite W, M; apply E; discriminate).
    rewrite endswith_self. apply drop_last_app. discriminate.
  - replace (endswith (d ++ lit "/1000") (lit "%")) with false
      by (symmetry; rewrite T, P; apply E; discriminate).
    replace (endswith (d ++ lit "/1000") (lit "‰")) with false
      by (symmetry; rewrite T, M; apply E; discriminate).
    replace (endswith (d ++ lit "/1000") (lit "permille")) with false
      by (symmetry; rewrite T, W; apply E; discriminate).
    rewrite endswith_self. apply drop_last_app. discriminate.
Qed.

End BareBody.

(** X2. On a body [d] of plain characters without white space, capitals
    and the characters [%], [‰], [p] and [/] (every numeral is one),
    [parse_bac d] is [float(d)]; a trailing "%" changes nothing; and the
    three permille notations "‰", "permille" and "/1000" are synonyms,
    each giving [parse_bac d] times [0.1]. *)
Theorem parse_bac_suffix_synonyms (d : str)
    (Hd : forallb bare_char d = true) :
  parse_bac d = float_of_str d
  /\ parse_bac (d ++ lit "%") = parse_bac d
  /\ (forall m, In m [lit "‰"; lit "permille"; lit "/1000"] ->
        parse_bac (d ++ m)
        = (x <- parse_bac d ;; Ok (x * dec 1 (-1))%flt)).
Proof.
  assert (E0 : parse_bac d = float_of_str d).
  { rewrite parse_bac_unfold. unfold bac_remainder, permille_flag.
    fold (Spec.normalize d). rewrite (normalize_bare d Hd).
    rewrite (bac_remainder_bare d Hd).
    pose proof (no_marker_in_bare d [] Hd (or_introl eq_refl)) as N0.
    rewrite app_nil_r in N0. rewrite N0.
    destruct (float_of_str d); reflexivity. }
  split; [exact E0|]. split.
  - rewrite E0, parse_bac_unfold. unfold bac_remainder, permille_flag.
    fold (Spec.normalize (d ++ lit "%")).
    rewrite (normalize_bare_suffix d (lit "%") Hd) by (left; reflexivity).
    rewrite bac_remainder_bare_suffix by (left; reflexivity).
    rewrite (no_marker_in_bare d (lit "%") Hd (or_intror eq_refl)).
    destruct (float_of_str d); reflexivity.
  - intros m Hm.
    assert (Hs : In m suffixes) by (right; exact Hm).
    rewrite E0, parse_bac_unfold. unfold bac_remainder, permille_flag.
    fold (Spec.normalize (d ++ m)).
    rewrite (normalize_bare_suffix d m Hd Hs).
    rewrite (bac_remainder_bare_suffix d m Hs).
    assert (F : existsb (fun x => contains x (d ++ m)) permille_markers
                = true).
    { apply existsb_exists. exists m. split; [exact Hm|].
      apply contains_spec. exists d, []. rewrite app_nil_r. reflexivity. }
    rewrite F. reflexivity.
Qed.

Lemma parse_bac_suffix_synonyms_witness :
  parse_bac (lit "0.5‰") = parse_bac (lit "0.5permille")
  /\ parse_bac (lit "0.5/1000") = parse_bac (lit "0.5permille")
  /\ parse_bac (lit "0.05%") = parse_bac (lit "0.05").
Proof.
  destruct (parse_bac_suffix_synonyms (lit "0.5") eq_refl) as [_ [_ H]].
  destruct (parse_bac_suffix_synonyms (lit "0.05") eq_refl) as [_ [H' _]].
  split; [|split].
  - change (lit "0.5‰") with (lit "0.5" ++ lit "‰").
    change (lit "0.5permille") with (lit "0.5" ++ lit "permille").
    rewrite !H by (cbn; auto). reflexivity.
  - change (lit "0.5/1000") with (lit "0.5" ++ lit "/1000").
    change (lit "0.5permille") with (lit "0.5" ++ lit "permille").
    rewrite !H by (cbn; auto). reflexivity.
  - exact H'.
Defined.

(* ================================================================== *)
(** ** The plan on the inputs of the form *)

Section FormBounds.

Lemma fdiv_within x y lo hi :
  is_finite x = true -> is_finite y = true -> is_zero y = false ->
  representable lo -> representable hi ->
  lo <= val x / val y <= hi ->
  is_finite (fdiv x y) = true /\ lo <= val (fdiv x y) <= hi.
Proof.
  intros Fx Fy Zy Rlo Rhi H. destruct (fdiv_round x y Fx Fy Zy) as [s ->].
  apply round64_within; assumption.
Qed.

(** A product of two enclosed non-negative doubles. *)
Lemma fmul_within_nonneg x y a b c d lo hi :
  finite_in x a b -> finite_in y c d -> 0 <= a -> 0 <= c ->
  representable lo -> representable hi -> lo <= a * c -> b * d <= hi ->
  finite_in (fmul x y) lo hi.
Proof.
  intros [Fx [Ax Bx]] [Fy [Cy Dy]] Ha Hc Rlo Rhi Hlo Hhi.
  destruct (fmul_within x y lo hi Fx Fy Rlo Rhi) as [F [L U]].
  - split.
    + eapply Qle_trans; [exact Hlo|].
      apply Qmult_le_compat_nonneg; split; assumption.
    + eapply Qle_trans; [|exact Hhi].
      apply Qmult_le_compat_nonneg; split; try assumption;
        [exact (Qle_trans _ _ _ Ha Ax) | exact (Qle_trans _ _ _ Hc Cy)].
  - split; [exact F | split; assumption].
Qed.

Lemma finite_in_of_fleb lo hi x :
  is_finite lo = true -> is_finite hi = true ->
  fleb lo x = true -> fleb x hi = true ->
  finite_in x (val lo) (val hi).
Proof.
  intros Flo Fhi H1 H2.
  destruct (fleb_between lo hi x Flo Fhi H1 H2) as [F [A B]].
  split; [exact F | split; assumption].
Qed.

(** The Watson estimate on the inputs of the form. *)
Lemma tbw_on_form inp :
  form_inputs inp ->
  exists t,
    watson_tbw_liters (sex inp) (weight_kg inp) (height_cm inp)
      (age_years inp) = Ok t
    /\ finite_in t 14 94.
Proof.
  intros [Hs [W1 [W2 [H1 [H2 [Ha _]]]]]].
  destruct Hs as [Hs|Hs]; rewrite Hs.
  - rewrite watson_male.
    destruct (male_tbw_enclosure _ _ _ W1 W2 H1 H2 Ha) as [age [-> [F B]]].
    cbn [bind]. eexists. split; [reflexivity|].
    split; [exact F | split; apply B].
  - rewrite watson_not_male by (vm_compute; discriminate).
    destruct (female_tbw_enclosure _ _ W1 W2 H1 H2) as [F B].
    eexists. split; [reflexivity|].
    split; [exact F|]. split; lra.
Qed.

(** Every result of an operation is a valid binary64 datum. *)
Lemma fmul_valid x y : valid_binary prec emax (fmul x y) = true.
Proof.
  destruct x as [sx|sx| |sx mx ex], y as [sy|sy| |sy my ey];
    try reflexivity. apply round64_valid.
Qed.

Lemma fadd_valid x y :
  valid_binary prec emax x = true -> valid_binary prec emax y = true ->
  valid_binary prec emax (fadd x y) = true.
Proof.
  destruct x as [sx|sx| |sx mx ex], y as [sy|sy| |sy my ey];
    intros Vx Vy; try reflexivity; try apply round64_valid.
  cbn [fadd]. destruct (Bool.eqb sx sy); reflexivity.
Qed.

Lemma fdiv_valid x y : valid_binary prec emax (fdiv x y) = true.
Proof.
  destruct x as [sx|sx| |sx mx ex], y as [sy|sy| |sy my ey];
    try reflexivity. apply round64_valid.
Qed.

(** A valid finite double is its own rounding, in value. *)
Lemma round64_fixed s x :
  valid_binary prec emax x = true -> is_finite x = true ->
  is_finite (round64 s (val x)) = true
  /\ val (round64 s (val x)) == val x.
Proof.
  intros V F. destruct x as [sx|sx| |sx mx ex]; try discriminate.
  - cbn [val]. rewrite round64_zero by reflexivity.
    split; reflexivity.
  - rewrite (round64_val_id s sx mx ex V). split; reflexivity.
Qed.

(** Adding a non-negative double never gives less. *)
Lemma fadd_nonneg_right x y :
  valid_binary prec emax x = true ->
  is_finite x = true -> is_finite y = true -> 0 <= val y ->
  is_finite (fadd x y) = true -> val x <= val (fadd x y).
Proof.
  intros V Fx Fy Hy F.
  destruct (round64_fixed false x V Fx) as [F' E].
  rewrite <- E. apply val_le_of_fleb; [exact F' | exact F |].
  destruct (fadd_round x y Fx Fy) as [s ->].
  apply round64_mono. lra.
Qed.

(** The gram quantities of [make_plan] for a body water, a target and a
    duration within the form's ranges. *)
Lemma grams_on_form t target dur :
  finite_in t 14 94 -> finite_in target 0 1 -> finite_in dur (1 # 2) 24 ->
  let d := (t * dec 100 (-1))%flt in
  let l := (target * d)%flt in
  let m := (dec 15 (-3) * d)%flt in
  let g := (l + m * dur)%flt in
  finite_in d 140 940 /\ finite_in l 0 940 /\ finite_in m 2 15
  /\ finite_in (m * dur)%flt 1 360 /\ finite_in g 1 1300
  /\ val l <= val g.
Proof.
  intros [Ft Bt] Ht Hd d l m g.
  assert (Fk : is_finite (dec 100 (-1)) = true) by reflexivity.
  assert (Fb : is_finite (dec 15 (-3)) = true) by reflexivity.
  enclose fmul_within t (dec 100 (-1)) Ft Fk 140 940 Fd Bd.
  fold d in Fd, Bd.
  assert (Hdd : finite_in d 140 940) by (split; [exact Fd | split; apply Bd]).
  assert (Hl : finite_in l 0 940).
  { apply (fmul_within_nonneg target d 0 1 140 940); try assumption;
      try representable_by_computation; lra. }
  enclose fmul_within (dec 15 (-3)) d Fb Fd 2 15 Fm Bm.
  fold m in Fm, Bm.
  assert (Hm : finite_in m 2 15) by (split; [exact Fm | split; apply Bm]).
  assert (Hx : finite_in (m * dur)%flt 1 360).
  { apply (fmul_within_nonneg m dur 2 15 (1 # 2) 24); try assumption;
      try representable_by_computation; lra. }
  destruct Hl as [Fl [Ll Ul]]. destruct Hx as [Fx [Lx Ux]].
  destruct (fadd_within l (m * dur)%flt 1 1300 Fl Fx
              ltac:(representable_by_computation)
              ltac:(representable_by_computation)
              ltac:(lra)) as [Fg Bg].
  fold g in Fg, Bg.
  split; [exact Hdd|]. split; [split; [exact Fl | split; assumption]|].
  split; [exact Hm|]. split; [split; [exact Fx | split; assumption]|].
  split; [split; [exact Fg | split; apply Bg]|].
  apply fadd_nonneg_right; try assumption; [apply fmul_valid | lra].
Qed.

Lemma form_target_duration inp :
  form_inputs inp -> plausible_target (target_bac inp) ->
  finite_in (target_bac inp) 0 1 /\ finite_in (duration_hours inp) (1 # 2) 24.
Proof.
  intros [_ [_ [_ [_ [_ [_ [D1 [D2 _]]]]]]]] [T1 T2]. split.
  - destruct (finite_in_of_fleb (S754_zero false) (dec 1 0) _ eq_refl eq_refl
                T1 T2) as [F [A B]].
    change (val (S754_zero false)) with 0 in A. val_const (dec 1 0).
    split; [exact F | split; lra].
  - destruct (finite_in_of_fleb (dec 5 (-1)) (dec 24 0) _ eq_refl eq_refl
                D1 D2) as [F [A B]].
    val_const (dec 5 (-1)). val_const (dec 24 0).
    split; [exact F | split; lra].
Qed.

End FormBounds.

(** X3. On every input of the form with a target between 0 and 1 g/dL
    the first program's [make_plan] returns a plan whose fields are all
    finite: the loading dose lies between 0 and 940 g, the maintenance
    rate between 2 and 15 g/h, the total between 1 and 1300 g and never
    below the loading dose, and both standard-drink counts are
    positive. *)
Theorem mass_plan_on_form (inp : Inputs)
    (Hf : form_inputs inp) (Ht : plausible_target (target_bac inp)) :
  exists p, MassPlanner.make_plan inp = Ok p
  /\ finite_in (MassPlanner.tbw_L p) 14 94
  /\ finite_in (MassPlanner.tbw_dL p) 140 940
  /\ finite_in (MassPlanner.loading_grams p) 0 940
  /\ finite_in (MassPlanner.maintenance_g_per_h p) 2 15
  /\ finite_in (MassPlanner.total_grams_for_duration p) 1 1300
  /\ val (MassPlanner.loading_grams p)
     <= val (MassPlanner.total_grams_for_duration p)
  /\ finite_in (MassPlanner.std_drinks_12g p) (1 # 16) 128
  /\ finite_in (MassPlanner.std_drinks_14g p) (1 # 16) 128.
Proof.
  destruct (tbw_on_form inp Hf) as [t [Et Bt]].
  destruct (form_target_duration inp Hf Ht) as [Btg Bdu].
  assert (Hb : beta inp = dec 15 (-3)) by apply Hf.
  rewrite mass_make_plan_eq, Et, Hb. cbn [bind]. cbv zeta.
  eexists. split; [reflexivity|].
  cbn [MassPlanner.tbw_L MassPlanner.tbw_dL MassPlanner.loading_grams
       MassPlanner.maintenance_g_per_h MassPlanner.total_grams_for_duration
       MassPlanner.std_drinks_12g MassPlanner.std_drinks_14g].
  destruct (grams_on_form t _ _ Bt Btg Bdu) as [Hd [Hl [Hm [_ [Hg Hlg]]]]].
  cbv zeta in Hd, Hl, Hm, Hg, Hlg.
  destruct Hg as [Fg [Lg Ug]].
  set (g := (target_bac inp * (t * dec 100 (-1))
             + dec 15 (-3) * (t * dec 100 (-1)) * duration_hours inp)%flt)
    in *.
  enclose_div fdiv_within g (dec 120 (-1)) Fg (1 # 16) 128 F12 B12.
  enclose_div fdiv_within g (dec 140 (-1)) Fg (1 # 16) 128 F14 B14.
  repeat split; try assumption; try apply B12; try apply B14;
    try apply Bt; try apply Hd; try apply Hl; try apply Hm.
Qed.

Lemma scenario_on_form : form_inputs scenario /\ plausible_target (target_bac scenario).
Proof.
  split; [|split; vm_compute; reflexivity].
  split; [left; reflexivity|].
  repeat split; try (vm_compute; reflexivity); vm_compute; discriminate.
Qed.

Lemma mass_plan_on_form_witness :
  exists p, MassPlanner.make_plan scenario = Ok p
  /\ finite_in (MassPlanner.total_grams_for_duration p) 1 1300.
Proof.
  destruct (mass_plan_on_form scenario (proj1 scenario_on_form)
              (proj2 scenario_on_form)) as [p [E [_ [_ [_ [_ [H _]]]]]]].
  exists p. split; [exact E | exact H].
Defined.

(* ================================================================== *)
(** ** Quotients by a positive literal, and the beverage table *)

Section Quotients.

Lemma round64_proper s p q : p == q -> round64 s p = round64 s q.
Proof.
  intros E. unfold round64.
  destruct (Qcompare_spec p 0) as [Hp|Hp|Hp];
  destruct (Qcompare_spec q 0) as [Hq|Hq|Hq];
    try (exfalso; lra); try reflexivity.
  - f_equal. apply round_mag_proper; lra.
  - f_equal. apply round_mag_proper; lra.
Qed.

Lemma fdiv_mono x y c :
  is_finite x = true -> is_finite y = true ->
  is_finite c = true -> is_zero c = false ->
  val x / val c <= val y / val c ->
  fleb (fdiv x c) (fdiv y c) = true.
Proof.
  intros Fx Fy Fc Zc H.
  destruct (fdiv_round x c Fx Fc Zc) as [s1 ->].
  destruct (fdiv_round y c Fy Fc Zc) as [s2 ->].
  apply round64_mono, H.
Qed.

(** For a numerator that is not negative, the larger divisor gives the
    quotient that is not larger. *)
Lemma fdiv_antitone x c1 c2 :
  is_finite x = true -> 0 <= val x ->
  is_finite c1 = true -> is_finite c2 = true ->
  0 < val c1 -> val c1 <= val c2 ->
  fleb (fdiv x c2) (fdiv x c1) = true.
Proof.
  intros Fx Hx F1 F2 P1 H12.
  assert (Z1 : is_zero c1 = false)
    by (destruct c1; try discriminate; reflexivity).
  assert (P2 : 0 < val c2) by lra.
  assert (Z2 : is_zero c2 = false)
    by (destruct c2; try discriminate; reflexivity).
  destruct (fdiv_round x c1 Fx F1 Z1) as [s1 ->].
  destruct (fdiv_round x c2 Fx F2 Z2) as [s2 ->].
  apply round64_mono.
  apply Qle_shift_div_l; [exact P1|].
  assert (E : val x / val c2 * val c1 == val x * (val c1 / val c2))
    by (field; lra).
  rewrite E. rewrite <- (Qmult_1_r (val x)) at 2.
  assert (K : val c1 / val c2 <= 1)
    by (apply Qle_shift_div_r; [exact P2 | lra]).
  generalize dependent (val c1 / val c2). intros r _ K.
  generalize dependent (val x). intros a Ha. nra.
Qed.

End Quotients.

(** X4. [ethanol_to_beverage_volume] raises [ZeroDivisionError] exactly
    when the ABV is a zero, whatever the ethanol volume; at an ABV of
    [1.0] it returns the ethanol volume unchanged; and for a non-negative
    ethanol volume and an ABV above 0 and at most 1 the beverage volume
    it returns is never below the ethanol volume. *)
Theorem beverage_volume_edges (ethanol_ml abv : float) :
  (is_zero abv = true ->
   VolumePlanner.ethanol_to_beverage_volume ethanol_ml abv
   = Raise ZeroDivisionError)
  /\ (is_zero abv = false ->
      VolumePlanner.ethanol_to_beverage_volume ethanol_ml abv
      = Ok (ethanol_ml / abv)%flt)
  /\ (valid_binary prec emax ethanol_ml = true ->
      VolumePlanner.ethanol_to_beverage_volume ethanol_ml (dec 1 0)
      = Ok ethanol_ml)
  /\ (double ethanol_ml -> 0 <= val ethanol_ml ->
      is_finite abv = true -> 0 < val abv -> val abv <= 1 ->
      exists v,
        VolumePlanner.ethanol_to_beverage_volume ethanol_ml abv = Ok v
        /\ fleb ethanol_ml v = true).
Proof.
  split; [|split; [|split]].
  - intros Z. unfold VolumePlanner.ethanol_to_beverage_volume, py_truediv.
    rewrite Z. reflexivity.
  - intros Z. apply py_truediv_nonzero, Z.
  - intros V. unfold VolumePlanner.ethanol_to_beverage_volume.
    rewrite py_truediv_nonzero by reflexivity. f_equal.
    replace (dec 1 0) with (S754_finite false 4503599627370496 (-52))
      by (vm_compute; reflexivity).
    destruct ethanol_ml as [s|s| |s m e]; cbn [fdiv];
      rewrite ?xorb_false_r; try reflexivity.
    rewrite <- (round64_val_id s s m e V) at 2.
    apply round64_proper.
    replace (val (S754_finite false 4503599627370496 (-52)))
      with (4503599627370496 # 4503599627370496)
      by (vm_compute; reflexivity).
    field.
  - intros [Fe Ve] He Fa Pa Ha.
    assert (Za : is_zero abv = false)
      by (destruct abv; try discriminate; reflexivity).
    unfold VolumePlanner.ethanol_to_beverage_volume.
    rewrite py_truediv_nonzero by exact Za.
    eexists. split; [reflexivity|].
    destruct (fdiv_round ethanol_ml abv Fe Fa Za) as [s ->].
    assert (K : val ethanol_ml <= val ethanol_ml / val abv).
    { apply Qle_shift_div_l; [exact Pa|].
      generalize dependent (val abv). generalize dependent (val ethanol_ml).
      intros. nra. }
    destruct ethanol_ml as [se|se| |se me ee]; try discriminate.
    + rewrite round64_zero by (cbn [val]; field; lra). reflexivity.
    + rewrite <- (round64_val_id se se me ee Ve) at 1.
      apply round64_mono, K.
Qed.

Lemma beverage_volume_edges_witness :
  VolumePlanner.ethanol_to_beverage_volume (dec 100 0) (dec 1 0)
  = Ok (dec 100 0)
  /\ exists v,
       VolumePlanner.ethanol_to_beverage_volume (dec 100 0) (dec 5 (-2))
       = Ok v
       /\ fleb (dec 100 0) v = true.
Proof.
  destruct (beverage_volume_edges (dec 100 0) (dec 5 (-2)))
    as [_ [_ [H1 H2]]].
  split.
  - apply H1. vm_compute. reflexivity.
  - apply H2.
    + split; vm_compute; reflexivity.
    + apply Qle_bool_iff. vm_compute. reflexivity.
    + reflexivity.
    + vm_compute. reflexivity.
    + apply Qle_bool_iff. vm_compute. reflexivity.
Defined.

(** X5. For an ethanol volume that is finite and not negative, the two
    loops of [main] produce one volume per entry of [BEVERAGES], in the
    order of the table, and the volumes never increase along it:
    Beer >= Wine >= Fortified Wine >= Spirits. *)
Theorem beverage_volumes_decrease (ml : float)
    (F : is_finite ml = true) (H : 0 <= val ml) :
  exists beer wine fortified spirits,
    VolumePlanner.beverage_volumes VolumePlanner.BEVERAGES ml
    = Ok [ (lit "Beer (5%)", beer); (lit "Wine (12%)", wine);
           (lit "Fortified Wine (18%)", fortified);
           (lit "Spirits (40%)", spirits) ]
    /\ fleb wine beer = true /\ fleb fortified wine = true
    /\ fleb spirits fortified = true.
Proof.
  rewrite beverage_volumes_table.
  eexists. eexists. eexists. eexists. split; [reflexivity|].
  repeat split; apply fdiv_antitone; try assumption; try reflexivity;
    apply Qle_bool_iff; vm_compute; reflexivity.
Qed.

Lemma beverage_volumes_decrease_witness :
  exists beer wine fortified spirits,
    VolumePlanner.beverage_volumes VolumePlanner.BEVERAGES (dec 100 0)
    = Ok [ (lit "Beer (5%)", beer); (lit "Wine (12%)", wine);
           (lit "Fortified Wine (18%)", fortified);
           (lit "Spirits (40%)", spirits) ]
    /\ fleb wine beer = true /\ fleb fortified wine = true
    /\ fleb spirits fortified = true.
Proof.
  apply (beverage_volumes_decrease (dec 100 0)).
  - reflexivity.
  - apply Qle_bool_iff. vm_compute. reflexivity.
Defined.

(* ================================================================== *)
(** ** What the two [make_plan] share *)

(** X6. The two programs fail together and agree on every field they
    share: for each input either both [make_plan] raise the same
    exception, or both return, with equal [tbw_L], [tbw_dL],
    [std_drinks_12g] and [std_drinks_14g]; and [tbw_dL] is [tbw_L]
    times ten. *)
Theorem programs_agree_on_shared_fields (inp : Inputs) :
  (forall e, MassPlanner.make_plan inp = Raise e
             <-> VolumePlanner.make_plan inp = Raise e)
  /\ (forall pm pv,
        MassPlanner.make_plan inp = Ok pm ->
        VolumePlanner.make_plan inp = Ok pv ->
        MassPlanner.tbw_L pm = VolumePlanner.tbw_L pv
        /\ MassPlanner.tbw_dL pm = VolumePlanner.tbw_dL pv
        /\ MassPlanner.std_drinks_12g pm = VolumePlanner.std_drinks_12g pv
        /\ MassPlanner.std_drinks_14g pm = VolumePlanner.std_drinks_14g pv
        /\ VolumePlanner.tbw_dL pv
           = (VolumePlanner.tbw_L pv * dec 100 (-1))%flt).
Proof.
  rewrite mass_make_plan_eq, volume_make_plan_eq.
  destruct (watson_tbw_liters _ _ _ _) as [t|e0]; cbn [bind]; cbv zeta.
  - split.
    + intros e. split; discriminate.
    + intros pm pv Hm Hv. injection Hm as <-. injection Hv as <-.
      repeat split.
  - split.
    + intros e. split; intros H; injection H as <-; reflexivity.
    + intros pm pv Hm. discriminate.
Qed.

Lemma programs_agree_on_shared_fields_witness :
  exists pm pv,
    MassPlanner.make_plan scenario = Ok pm
    /\ VolumePlanner.make_plan scenario = Ok pv
    /\ MassPlanner.std_drinks_12g pm = VolumePlanner.std_drinks_12g pv.
Proof.
  destruct (MassPlanner.make_plan scenario) as [pm|] eqn:Em;
    [|vm_compute in Em; discriminate].
  destruct (VolumePlanner.make_plan scenario) as [pv|] eqn:Ev;
    [|vm_compute in Ev; discriminate].
  exists pm, pv. split; [reflexivity|]. split; [reflexivity|].
  destruct (programs_agree_on_shared_fields scenario) as [_ H].
  apply (H pm pv Em Ev).
Defined.

(** X7. Whenever the total is finite and not negative, the count of 12 g
    drinks is at least the count of 14 g drinks, in both programs; for a
    total that is not positive the order is the other way round. *)
Theorem std_drinks_12g_at_least_14g (inp : Inputs) :
  (forall p, MassPlanner.make_plan inp = Ok p ->
     is_finite (MassPlanner.total_grams_for_duration p) = true ->
     (0 <= val (MassPlanner.total_grams_for_duration p) ->
      fleb (MassPlanner.std_drinks_14g p) (MassPlanner.std_drinks_12g p)
      = true)
     /\ (val (MassPlanner.total_grams_for_duration p) <= 0 ->
         fleb (MassPlanner.std_drinks_12g p) (MassPlanner.std_drinks_14g p)
         = true))
  /\ (forall pm pv,
        MassPlanner.make_plan inp = Ok pm ->
        VolumePlanner.make_plan inp = Ok pv ->
        is_finite (MassPlanner.total_grams_for_duration pm) = true ->
        0 <= val (MassPlanner.total_grams_for_duration pm) ->
        fleb (VolumePlanner.std_drinks_14g pv)
             (VolumePlanner.std_drinks_12g pv) = true).
Proof.
  assert (K : forall g, is_finite g = true ->
      (0 <= val g -> fleb (g / dec 140 (-1))%flt (g / dec 120 (-1))%flt = true)
      /\ (val g <= 0 ->
          fleb (g / dec 120 (-1))%flt (g / dec 140 (-1))%flt = true)).
  { intros g Fg.
    destruct (fdiv_round g (dec 120 (-1)) Fg eq_refl eq_refl) as [s1 ->].
    destruct (fdiv_round g (dec 140 (-1)) Fg eq_refl eq_refl) as [s2 ->].
    split; intros H; apply round64_mono;
      inv_const (dec 120 (-1)); inv_const (dec 140 (-1)); lra. }
  rewrite mass_make_plan_eq, volume_make_plan_eq.
  destruct (watson_tbw_liters _ _ _ _) as [t|e0]; cbn [bind]; cbv zeta.
  - split.
    + intros p Hp. injection Hp as <-.
      cbn [MassPlanner.total_grams_for_duration MassPlanner.std_drinks_12g
           MassPlanner.std_drinks_14g]. apply K.
    + intros pm pv Hm Hv. injection Hm as <-. injection Hv as <-.
      cbn [MassPlanner.total_grams_for_duration VolumePlanner.std_drinks_12g
           VolumePlanner.std_drinks_14g]. intros F. apply K, F.
  - split; intros; discriminate.
Qed.

Lemma std_drinks_12g_at_least_14g_witness :
  exists p, MassPlanner.make_plan scenario = Ok p
  /\ fleb (MassPlanner.std_drinks_14g p) (MassPlanner.std_drinks_12g p)
     = true.
Proof.
  destruct (MassPlanner.make_plan scenario) as [p|] eqn:E;
    [|vm_compute in E; discriminate].
  exists p. split; [reflexivity|].
  destruct (std_drinks_12g_at_least_14g scenario) as [H _].
  apply (H p E).
  - vm_compute in E. injection E as <-. reflexivity.
  - vm_compute in E. injection E as <-.
    apply Qle_bool_iff. vm_compute. reflexivity.
Defined.

(** X8. A target that is not a number is not rejected: when
    [target_bac] is a NaN, [make_plan] still returns whenever the body
    water is computed, and the loading dose, the total and both
    standard-drink counts of the plan are NaN, as are the loading and
    total volumes of the second program; the maintenance rate does not
    depend on the target. *)
Theorem nan_target_gives_nan_plan (inp : Inputs)
    (Hn : target_bac inp = S754_nan) :
  returns (MassPlanner.make_plan inp)
  = returns (watson_tbw_liters (sex inp) (weight_kg inp) (height_cm inp)
               (age_years inp))
  /\ (forall p, MassPlanner.make_plan inp = Ok p ->
        MassPlanner.loading_grams p = S754_nan
        /\ MassPlanner.total_grams_for_duration p = S754_nan
        /\ MassPlanner.std_drinks_12g p = S754_nan
        /\ MassPlanner.std_drinks_14g p = S754_nan
        /\ MassPlanner.maintenance_g_per_h p
           = (beta inp * MassPlanner.tbw_dL p)%flt)
  /\ (forall p, VolumePlanner.make_plan inp = Ok p ->
        VolumePlanner.loading_ml p = S754_nan
        /\ VolumePlanner.total_ml_for_duration p = S754_nan
        /\ VolumePlanner.std_drinks_12g p = S754_nan
        /\ VolumePlanner.std_drinks_14g p = S754_nan).
Proof.
  split; [apply make_plan_returns|].
  rewrite mass_make_plan_eq, volume_make_plan_eq, Hn.
  destruct (watson_tbw_liters _ _ _ _) as [t|e0]; cbn [bind]; cbv zeta.
  - split; intros p Hp; injection Hp as <-; repeat split.
  - split; intros; discriminate.
Qed.

Lemma nan_target_gives_nan_plan_witness :
  parse_bac (lit "nan") = Ok S754_nan
  /\ exists p,
       MassPlanner.make_plan (with_target scenario S754_nan) = Ok p
       /\ MassPlanner.total_grams_for_duration p = S754_nan.
Proof.
  split; [vm_compute; reflexivity|].
  destruct (MassPlanner.make_plan (with_target scenario S754_nan))
    as [p|] eqn:E; [|vm_compute in E; discriminate].
  exists p. split; [reflexivity|].
  destruct (nan_target_gives_nan_plan (with_target scenario S754_nan)
              eq_refl) as [_ [H _]].
  apply (H p E).
Defined.

(* ================================================================== *)
(** ** The volume plan, and how the plan moves with its inputs *)

Section PlanOrder.

Lemma val_positive_sign x :
  is_finite x = true -> 0 < val x ->
  exists m e, x = S754_finite false m e.
Proof.
  destruct x as [s|s| |s m e]; try discriminate; intros _ H.
  destruct s; [|eauto]. exfalso. cbn [val] in H.
  assert (P : 0 < inject_Z (Zpos m) * pow2 e)
    by (apply Qmult_lt_0_compat; [reflexivity | apply pow2_pos]).
  assert (E : - inject_Z (Zpos m) * pow2 e == - (inject_Z (Zpos m) * pow2 e))
    by ring.
  rewrite E in H. lra.
Qed.

Lemma fadd_zero_left s x :
  valid_binary prec emax x = true -> is_finite x = true -> 0 < val x ->
  fadd (S754_zero s) x = x.
Proof.
  intros V F P. destruct (val_positive_sign x F P) as [m [e ->]].
  cbn [fadd]. rewrite <- (round64_val_id false false m e V) at 2.
  apply round64_proper. cbn [val]. ring.
Qed.

Lemma fmul_order_right x1 x2 y :
  is_finite x1 = true -> is_finite x2 = true -> is_finite y = true ->
  0 <= val y -> val x1 <= val x2 ->
  fleb (fmul x1 y) (fmul x2 y) = true.
Proof.
  intros F1 F2 Fy Hy H.
  destruct (fmul_round x1 y F1 Fy) as [s1 ->].
  destruct (fmul_round x2 y F2 Fy) as [s2 ->].
  apply round64_mono. apply Qmult_le_compat_r; assumption.
Qed.

Lemma fmul_order_left x y1 y2 :
  is_finite x = true -> is_finite y1 = true -> is_finite y2 = true ->
  0 <= val x -> val y1 <= val y2 ->
  fleb (fmul x y1) (fmul x y2) = true.
Proof.
  intros Fx F1 F2 Hx H.
  destruct (fmul_round x y1 Fx F1) as [s1 ->].
  destruct (fmul_round x y2 Fx F2) as [s2 ->].
  apply round64_mono. rewrite !(Qmult_comm (val x)).
  apply Qmult_le_compat_r; assumption.
Qed.

Lemma finite_in_fleb x y a b c d :
  finite_in x a b -> finite_in y c d -> fleb x y = true -> val x <= val y.
Proof. intros [Fx _] [Fy _]. apply val_le_of_fleb; assumption. Qed.

End PlanOrder.

(** X9. On every input of the form with a target between 0 and 1 g/dL
    the second program's [make_plan] returns a plan with finite fields:
    a loading volume between 0 and 1200 mL, a maintenance volume
    between 2 and 20 mL/h, a total between 1 and 1650 mL that is never
    below the loading volume; and the two loops of [main] never raise:
    every total beverage volume lies between 2 and 33000 mL, every
    hourly one between 4 and 400 mL. *)
Theorem volume_plan_on_form (inp : Inputs)
    (Hf : form_inputs inp) (Ht : plausible_target (target_bac inp)) :
  exists p totals per_hour,
    VolumePlanner.make_plan inp = Ok p
    /\ finite_in (VolumePlanner.loading_ml p) 0 1200
    /\ finite_in (VolumePlanner.maintenance_ml_per_h p) 2 20
    /\ finite_in (VolumePlanner.total_ml_for_duration p) 1 1650
    /\ val (VolumePlanner.loading_ml p)
       <= val (VolumePlanner.total_ml_for_duration p)
    /\ VolumePlanner.total_volumes p = Ok totals
    /\ List.length totals = 4%nat
    /\ Forall (fun nv => finite_in (snd nv) 2 33000) totals
    /\ VolumePlanner.per_hour_volumes p = Ok per_hour
    /\ List.length per_hour = 4%nat
    /\ Forall (fun nv => finite_in (snd nv) 4 400) per_hour.
Proof.
  destruct (tbw_on_form inp Hf) as [t [Et Bt]].
  destruct (form_target_duration inp Hf Ht) as [Btg Bdu].
  assert (Hb : beta inp = dec 15 (-3)) by apply Hf.
  rewrite volume_make_plan_eq, Et, Hb. cbn [bind]. cbv zeta.
  destruct (grams_on_form t _ _ Bt Btg Bdu)
    as [_ [[Fl [Ll Ul]] [[Fm [Lm Um]] [_ [[Fg [Lg Ug]] Hlg]]]]].
  cbv zeta in Fl, Ll, Ul, Fm, Lm, Um, Fg, Lg, Ug, Hlg.
  set (l := (target_bac inp * (t * dec 100 (-1)))%flt) in *.
  set (m := (dec 15 (-3) * (t * dec 100 (-1)))%flt) in *.
  set (g := (l + m * duration_hours inp)%flt) in *.
  unfold VolumePlanner.ETHANOL_DENSITY.
  enclose_div fdiv_within l (dec 789 (-3)) Fl 0 1200 FL BL.
  enclose_div fdiv_within m (dec 789 (-3)) Fm 2 20 FM BM.
  enclose_div fdiv_within g (dec 789 (-3)) Fg 1 1650 FT BT.
  assert (HLT : val (l / dec 789 (-3))%flt <= val (g / dec 789 (-3))%flt).
  { apply val_le_of_fleb; try assumption.
    apply fdiv_mono; try assumption; try reflexivity.
    inv_const (dec 789 (-3)). lra. }
  set (vL := (l / dec 789 (-3))%flt) in *.
  set (vM := (m / dec 789 (-3))%flt) in *.
  set (vT := (g / dec 789 (-3))%flt) in *.
  eexists. eexists. eexists. split; [reflexivity|].
  cbn [VolumePlanner.loading_ml VolumePlanner.maintenance_ml_per_h
       VolumePlanner.total_ml_for_duration].
  unfold VolumePlanner.total_volumes, VolumePlanner.per_hour_volumes.
  cbn [VolumePlanner.total_ml_for_duration VolumePlanner.maintenance_ml_per_h].
  rewrite !beverage_volumes_table.
  split; [split; [exact FL | split; apply BL]|].
  split; [split; [exact FM | split; apply BM]|].
  split; [split; [exact FT | split; apply BT]|].
  split; [exact HLT|].
  split; [reflexivity|]. split; [reflexivity|]. split.
  - enclose_div fdiv_within vT (dec 5 (-2)) FT 2 33000 F1 B1.
    enclose_div fdiv_within vT (dec 12 (-2)) FT 2 33000 F2 B2.
    enclose_div fdiv_within vT (dec 18 (-2)) FT 2 33000 F3 B3.
    enclose_div fdiv_within vT (dec 40 (-2)) FT 2 33000 F4 B4.
    repeat constructor; cbn [snd]; try assumption;
      try apply B1; try apply B2; try apply B3; try apply B4.
  - split; [reflexivity|]. split; [reflexivity|].
    enclose_div fdiv_within vM (dec 5 (-2)) FM 4 400 F1 B1.
    enclose_div fdiv_within vM (dec 12 (-2)) FM 4 400 F2 B2.
    enclose_div fdiv_within vM (dec 18 (-2)) FM 4 400 F3 B3.
    enclose_div fdiv_within vM (dec 40 (-2)) FM 4 400 F4 B4.
    repeat constructor; cbn [snd]; try assumption;
      try apply B1; try apply B2; try apply B3; try apply B4.
Qed.

Lemma volume_plan_on_form_witness :
  exists p, VolumePlanner.make_plan scenario = Ok p
  /\ finite_in (VolumePlanner.total_ml_for_duration p) 1 1650.
Proof.
  destruct (volume_plan_on_form scenario (proj1 scenario_on_form)
              (proj2 scenario_on_form))
    as [p [totals [per_hour [E [_ [_ [H _]]]]]]].
  exists p. split; [exact E | exact H].
Defined.

Section PlanMoves.

Lemma target_order t t1 t2 dur :
  finite_in t 14 94 -> finite_in t1 0 1 -> finite_in t2 0 1 ->
  finite_in dur (1 # 2) 24 ->
  fleb t1 t2 = true ->
  fleb (t1 * (t * dec 100 (-1)))%flt (t2 * (t * dec 100 (-1)))%flt = true
  /\ fleb (t1 * (t * dec 100 (-1))
           + dec 15 (-3) * (t * dec 100 (-1)) * dur)%flt
          (t2 * (t * dec 100 (-1))
           + dec 15 (-3) * (t * dec 100 (-1)) * dur)%flt
     = true.
Proof.
  intros Bt B1 B2 Bd H12.
  destruct (grams_on_form t t1 _ Bt B1 Bd) as [Hd [Hl1 [_ [Hx _]]]].
  destruct (grams_on_form t t2 _ Bt B2 Bd) as [_ [Hl2 _]].
  cbv zeta in Hd, Hl1, Hl2, Hx.
  assert (L : fleb (t1 * (t * dec 100 (-1)))%flt
                   (t2 * (t * dec 100 (-1)))%flt = true).
  { apply fmul_order_right; [apply B1 | apply B2 | apply Hd | |].
    - destruct Hd as [_ [A _]]. lra.
    - apply val_le_of_fleb; [apply B1 | apply B2 | exact H12]. }
  split; [exact L|].
  apply fadd_mono; [apply Hl1 | apply Hx | apply Hl2 | apply Hx |].
  pose proof (finite_in_fleb _ _ _ _ _ _ Hl1 Hl2 L). lra.
Qed.

Lemma duration_order t target d1 d2 :
  finite_in t 14 94 -> finite_in target 0 1 ->
  finite_in d1 (1 # 2) 24 -> finite_in d2 (1 # 2) 24 ->
  fleb d1 d2 = true ->
  fleb (target * (t * dec 100 (-1))
        + dec 15 (-3) * (t * dec 100 (-1)) * d1)%flt
       (target * (t * dec 100 (-1))
        + dec 15 (-3) * (t * dec 100 (-1)) * d2)%flt = true.
Proof.
  intros Bt Btg B1 B2 H12.
  destruct (grams_on_form t target d1 Bt Btg B1) as [_ [Hl [Hm [Hx1 _]]]].
  destruct (grams_on_form t target d2 Bt Btg B2) as [_ [_ [_ [Hx2 _]]]].
  cbv zeta in Hl, Hm, Hx1, Hx2.
  assert (X : fleb (dec 15 (-3) * (t * dec 100 (-1)) * d1)%flt
                   (dec 15 (-3) * (t * dec 100 (-1)) * d2)%flt = true).
  { apply fmul_order_left; [apply Hm | apply B1 | apply B2 | |].
    - destruct Hm as [_ [A _]]. lra.
    - apply val_le_of_fleb; [apply B1 | apply B2 | exact H12]. }
  apply fadd_mono; [apply Hl | apply Hx1 | apply Hl | apply Hx2 |].
  pose proof (finite_in_fleb _ _ _ _ _ _ Hx1 Hx2 X). lra.
Qed.

Lemma form_with_target inp t : form_inputs inp -> form_inputs (with_target inp t).
Proof. intros H. exact H. Qed.

Lemma form_with_duration inp d :
  form_inputs inp ->
  fleb (dec 5 (-1)) d = true -> fleb d (dec 24 0) = true ->
  form_inputs (with_duration inp d).
Proof.
  intros [A [B [C [D [E [F [_ [_ G]]]]]]]] D1 D2.
  unfold form_inputs.
  cbn [with_duration sex weight_kg height_cm age_years duration_hours beta].
  tauto.
Qed.

Lemma mass_plan_grams inp t :
  watson_tbw_liters (sex inp) (weight_kg inp) (height_cm inp) (age_years inp)
  = Ok t ->
  exists p, MassPlanner.make_plan inp = Ok p
  /\ MassPlanner.loading_grams p
     = (target_bac inp * (t * dec 100 (-1)))%flt
  /\ MassPlanner.maintenance_g_per_h p
     = (beta inp * (t * dec 100 (-1)))%flt
  /\ MassPlanner.total_grams_for_duration p
     = (target_bac inp * (t * dec 100 (-1))
        + beta inp * (t * dec 100 (-1)) * duration_hours inp)%flt.
Proof.
  intros E. rewrite mass_make_plan_eq, E. cbn [bind]. cbv zeta.
  eexists. split; [reflexivity|]. repeat split.
Qed.

End PlanMoves.

(** X10. On the inputs of the form a larger target never lowers the
    loading dose or the total and leaves the maintenance rate as it is,
    and a longer duration never lowers the total and leaves the loading
    dose and the maintenance rate as they are. *)
Theorem more_target_or_hours_never_less (inp : Inputs)
    (Hf : form_inputs inp) (Ht : plausible_target (target_bac inp)) :
  (forall t2,
      plausible_target t2 -> fleb (target_bac inp) t2 = true ->
      exists p1 p2,
        MassPlanner.make_plan inp = Ok p1
        /\ MassPlanner.make_plan (with_target inp t2) = Ok p2
        /\ fleb (MassPlanner.loading_grams p1) (MassPlanner.loading_grams p2)
           = true
        /\ fleb (MassPlanner.total_grams_for_duration p1)
                (MassPlanner.total_grams_for_duration p2) = true
        /\ MassPlanner.maintenance_g_per_h p1
           = MassPlanner.maintenance_g_per_h p2)
  /\ (forall d2,
        fleb (duration_hours inp) d2 = true -> fleb d2 (dec 24 0) = true ->
        exists p1 p2,
          MassPlanner.make_plan inp = Ok p1
          /\ MassPlanner.make_plan (with_duration inp d2) = Ok p2
          /\ fleb (MassPlanner.total_grams_for_duration p1)
                  (MassPlanner.total_grams_for_duration p2) = true
          /\ MassPlanner.loading_grams p1 = MassPlanner.loading_grams p2
          /\ MassPlanner.maintenance_g_per_h p1
             = MassPlanner.maintenance_g_per_h p2).
Proof.
  destruct (tbw_on_form inp Hf) as [t [Et Bt]].
  destruct (form_target_duration inp Hf Ht) as [Btg Bdu].
  assert (Hb : beta inp = dec 15 (-3)) by apply Hf.
  destruct (mass_plan_grams inp t Et) as [p1 [E1 [L1 [M1 G1]]]].
  rewrite Hb in M1, G1.
  split.
  - intros t2 P2 H12.
    destruct (form_target_duration (with_target inp t2)
                (form_with_target inp t2 Hf) P2) as [B2 _].
    destruct (mass_plan_grams (with_target inp t2) t Et)
      as [p2 [E2 [L2 [M2 G2]]]].
    change (beta (with_target inp t2)) with (beta inp) in M2, G2.
    change (target_bac (with_target inp t2)) with t2 in L2, G2, B2.
    change (duration_hours (with_target inp t2)) with (duration_hours inp)
      in G2.
    rewrite Hb in M2, G2.
    exists p1, p2. split; [exact E1|]. split; [exact E2|].
    rewrite L1, L2, G1, G2, M1, M2.
    destruct (target_order t _ t2 _ Bt Btg B2 Bdu H12) as [A B].
    split; [exact A|]. split; [exact B | reflexivity].
  - intros d2 H12 D2.
    assert (D1 : fleb (dec 5 (-1)) d2 = true).
    { destruct Bdu as [Fd [Ld Ud]].
      destruct (fleb_between (duration_hours inp) (dec 24 0) d2 Fd eq_refl
                  H12 D2) as [F2 [K _]].
      apply fleb_val; [vm_compute; reflexivity | exact F2 |].
      val_const (dec 5 (-1)). lra. }
    destruct (form_target_duration (with_duration inp d2)
                (form_with_duration inp d2 Hf D1 D2) Ht) as [_ B2].
    change (duration_hours (with_duration inp d2)) with d2 in B2.
    destruct (mass_plan_grams (with_duration inp d2) t Et)
      as [p2 [E2 [L2 [M2 G2]]]].
    change (beta (with_duration inp d2)) with (beta inp) in M2, G2.
    change (target_bac (with_duration inp d2)) with (target_bac inp)
      in L2, G2.
    change (duration_hours (with_duration inp d2)) with d2 in G2.
    rewrite Hb in M2, G2.
    exists p1, p2. split; [exact E1|]. split; [exact E2|].
    rewrite L1, L2, G1, G2, M1, M2.
    split; [|split; reflexivity].
    exact (duration_order t _ _ d2 Bt Btg Bdu B2 H12).
Qed.

Lemma more_target_or_hours_never_less_witness :
  exists p1 p2,
    MassPlanner.make_plan scenario = Ok p1
    /\ MassPlanner.make_plan (with_target scenario (dec 1 (-1))) = Ok p2
    /\ fleb (MassPlanner.total_grams_for_duration p1)
            (MassPlanner.total_grams_for_duration p2) = true.
Proof.
  destruct (more_target_or_hours_never_less scenario
              (proj1 scenario_on_form) (proj2 scenario_on_form)) as [H _].
  destruct (H (dec 1 (-1))) as [p1 [p2 [E1 [E2 [_ [G _]]]]]].
  - split; vm_compute; reflexivity.
  - vm_compute. reflexivity.
  - exists p1, p2. split; [exact E1|]. split; [exact E2 | exact G].
Defined.

(* ================================================================== *)
(** ** The edge of a zero target, and the Calculate handler *)

(** X11. On the inputs of the form a target of zero, of either sign, is
    accepted: the loading dose is that zero, and the total is exactly
    the maintenance rate times the duration. *)
Theorem zero_target_is_maintenance_only (inp : Inputs)
    (Hf : form_inputs inp) (Hz : is_zero (target_bac inp) = true) :
  exists p,
    MassPlanner.make_plan inp = Ok p
    /\ MassPlanner.loading_grams p = target_bac inp
    /\ MassPlanner.total_grams_for_duration p
       = (MassPlanner.maintenance_g_per_h p * duration_hours inp)%flt
    /\ fltb (S754_zero false) (MassPlanner.total_grams_for_duration p)
       = true.
Proof.
  destruct (tbw_on_form inp Hf) as [t [Et Bt]].
  assert (Hb : beta inp = dec 15 (-3)) by apply Hf.
  assert (Bz : finite_in (S754_zero false) 0 1).
  { split; [reflexivity|]. change (val (S754_zero false)) with 0.
    split; lra. }
  assert (Bdu : finite_in (duration_hours inp) (1 # 2) 24).
  { apply (form_target_duration (with_target inp (S754_zero false))
             (form_with_target inp _ Hf)).
    split; vm_compute; reflexivity. }
  destruct (grams_on_form t _ _ Bt Bz Bdu)
    as [[Fd [Ld _]] [_ [_ [[Fx [Lx _]] _]]]].
  cbv zeta in Fd, Ld, Fx, Lx.
  destruct (mass_plan_grams inp t Et) as [p [E [L [M G]]]].
  rewrite Hb in M, G.
  exists p. split; [exact E|].
  rewrite L, G, M.
  destruct (target_bac inp) as [s| | |]; try discriminate Hz.
  destruct (val_positive_sign _ Fd ltac:(lra)) as [m [e Ed]].
  assert (Z0 : (S754_zero s * (t * dec 100 (-1)))%flt = S754_zero s).
  { rewrite Ed. cbn [fmul]. destruct s; reflexivity. }
  rewrite Z0.
  assert (A : (S754_zero s
               + dec 15 (-3) * (t * dec 100 (-1)) * duration_hours inp)%flt
              = (dec 15 (-3) * (t * dec 100 (-1)) * duration_hours inp)%flt).
  { apply fadd_zero_left; [apply fmul_valid | exact Fx | lra]. }
  rewrite A. split; [reflexivity|]. split; [reflexivity|].
  apply fltb_val; [reflexivity | exact Fx |].
  change (val (S754_zero false)) with 0. lra.
Qed.

Lemma zero_target_is_maintenance_only_witness :
  exists p,
    MassPlanner.make_plan (with_target scenario (S754_zero false)) = Ok p
    /\ MassPlanner.loading_grams p = S754_zero false.
Proof.
  destruct (zero_target_is_maintenance_only
              (with_target scenario (S754_zero false))
              (proj1 scenario_on_form) eq_refl) as [p [E [L _]]].
  exists p. split; [exact E | exact L].
Defined.

(** X12. The computation of the Calculate handler of either program, for
    any sex text, any floats, an age below [2^1024 - 2^970] in magnitude
    (the widget allows 15 to 100) and a target given in plain text, ends
    in the [except] branch exactly when [parse_bac] rejects the target
    text, and then with a [ValueError]; otherwise [make_plan] is reached with [beta] at its
    default and returns, and in the second program both beverage loops
    run over the whole table, in its order, without raising. *)
Theorem calculate_fails_only_on_target_text
    (s : str) (weight height : float) (age : Z) (duration : float)
    (text : str) (Ha : (Z.abs age < int_float_limit)%Z)
    (Hp : plain_text text) :
  (forall e,
      parse_bac text = Raise e ->
      e = ValueError
      /\ mass_on_calculate s weight height age duration text = Error e
      /\ volume_on_calculate s weight height age duration text = Error e)
  /\ (forall target,
        parse_bac text = Ok target ->
        let inp := Inputs_default s weight height age duration target in
        beta inp = dec 15 (-3)
        /\ (exists p,
              MassPlanner.make_plan inp = Ok p
              /\ mass_on_calculate s weight height age duration text
                 = Results p)
        /\ (exists q totals per_hour,
              VolumePlanner.make_plan inp = Ok q
              /\ VolumePlanner.total_volumes q = Ok totals
              /\ VolumePlanner.per_hour_volumes q = Ok per_hour
              /\ volume_on_calculate s weight height age duration text
                 = Results (q, totals, per_hour)
              /\ map fst totals = map fst VolumePlanner.BEVERAGES
              /\ map fst per_hour = map fst VolumePlanner.BEVERAGES)).
Proof.
  split.
  - intros e H.
    assert (Ee : e = ValueError).
    { rewrite parse_bac_unfold in H.
      destruct (float_of_str (bac_remainder text)) eqn:E; cbn [bind] in H.
      - destruct (permille_flag text); discriminate.
      - injection H as <-. exact (float_of_str_error _ _ E). }
    split; [exact Ee|].
    unfold mass_on_calculate, volume_on_calculate.
    rewrite H. cbn [bind shown]. split; reflexivity.
  - intros target H inp.
    split; [reflexivity|].
    assert (K : exists t,
               watson_tbw_liters s weight height age = Ok t).
    { destruct (str_eqb s (lit "male")) eqn:E.
      - apply str_eqb_eq in E. rewrite E, watson_male.
        destruct (float_of_int_ok _ Ha) as [f ->]. cbn [bind]. eauto.
      - apply str_eqb_neq in E. rewrite watson_not_male by exact E. eauto. }
    destruct K as [t Et].
    split.
    + unfold mass_on_calculate. rewrite H. cbn [bind]. fold inp.
      rewrite mass_make_plan_eq.
      change (watson_tbw_liters (sex inp) (weight_kg inp)
                (height_cm inp) (age_years inp))
        with (watson_tbw_liters s weight height age).
      rewrite Et. cbn [bind]. cbv zeta.
      eexists. split; reflexivity.
    + unfold volume_on_calculate. rewrite H. cbn [bind]. fold inp.
      rewrite volume_make_plan_eq.
      change (watson_tbw_liters (sex inp) (weight_kg inp)
                (height_cm inp) (age_years inp))
        with (watson_tbw_liters s weight height age).
      rewrite Et. cbn [bind]. cbv zeta.
      unfold VolumePlanner.total_volumes, VolumePlanner.per_hour_volumes.
      cbn [VolumePlanner.total_ml_for_duration
           VolumePlanner.maintenance_ml_per_h].
      rewrite !beverage_volumes_table. cbn [bind shown].
      eexists. eexists. eexists.
      split; [reflexivity|].
      cbn [VolumePlanner.total_ml_for_duration
           VolumePlanner.maintenance_ml_per_h].
      rewrite !beverage_volumes_table. cbn [bind shown].
      repeat split.
Qed.

Lemma calculate_fails_only_on_target_text_witness :
  mass_on_calculate (lit "male") (dec 80 0) (dec 180 0) 30 (dec 3 0)
    (lit "abc%") = Error ValueError
  /\ exists p,
       mass_on_calculate (lit "male") (dec 80 0) (dec 180 0) 30 (dec 3 0)
         (lit "0.08") = Results p.
Proof.
  split.
  - destruct (calculate_fails_only_on_target_text (lit "male") (dec 80 0)
                (dec 180 0) 30 (dec 3 0) (lit "abc%")) as [H _].
    + vm_compute. reflexivity.
    + vm_compute. reflexivity.
    + destruct (H ValueError) as [_ [E _]];
        [vm_compute; reflexivity | exact E].
  - destruct (calculate_fails_only_on_target_text (lit "male") (dec 80 0)
                (dec 180 0) 30 (dec 3 0) (lit "0.08")) as [_ H].
    + vm_compute. reflexivity.
    + vm_compute. reflexivity.
    + destruct (H (dec 8 (-2))) as [_ [[p [_ E]] _]];
        [vm_compute; reflexivity|].
      exists p. exact E.
Defined.
